(** * Kubernetes-Dashboard: command executor, response cache, port-forward
      handle and the EKS provisioning WebSocket handler

    A shallow embedding of
      - [utils/cache.js]                   (module [Cache]),
      - [utils/kubectlUtils.js]            (module [KubectlUtils]),
      - [utils/eksConfigGenerator.js]      (module [EksConfig]),
      - [routes/kubernetesRoutes.js], the two port-forward routes
                                           (module [PortForward]),
      - [websocket/kubernetesWsHandlers.js], the [eks-cli-stream] branch
                                           (module [WsHandlers]),
      - [utils/validationUtils.js], the resource patterns and the namespace
        validator                          (module [Validation]),
      - [utils/manifestGenerators.js], the quantity normaliser, the name
        sanitisers and three generators    (module [Manifests]),
      - [routes/kubernetesRoutes.js], the cluster-details read and the
        namespace write                    (module [Routes]).

    JavaScript strings are modelled as [string], one [ascii] per code unit
    (code units 0..255).  Child processes, timers, the WebSocket peer and the
    clock are the environment: the handlers of the source become transition
    functions that consume the environment's events one at a time, the way
    the Node event loop runs them. *)

From Stdlib Require Import ZArith Lia Bool List.
From Stdlib Require Import Ascii String Decimal DecimalString.
From stdpp Require Import base option list strings.

Set Warnings "-register-all".

Open Scope string_scope.
Open Scope Z_scope.

(* ===================================================================== *)
(** * JavaScript string primitives used by the sources *)
(* ===================================================================== *)

Module JsString.

(** White space of [String.prototype.trim] and of the regex class [\s],
    among code units below 256: TAB, LF, VT, FF, CR, SPACE, NBSP. *)
Definition is_whitespace (c : ascii) : bool :=
  let n := nat_of_ascii c in
  ((9 <=? n) && (n <=? 13) || (n =? 32) || (n =? 160))%nat.

Definition is_empty (s : string) : bool :=
  match s with EmptyString => true | String _ _ => false end.

(** A string is truthy exactly when it is not empty. *)
Definition truthy (s : string) : bool := negb (is_empty s).

Fixpoint trimStart (s : string) : string :=
  match s with
  | EmptyString => EmptyString
  | String c r => if is_whitespace c then trimStart r else s
  end.

Fixpoint trimEnd (s : string) : string :=
  match s with
  | EmptyString => EmptyString
  | String c r =>
      let r' := trimEnd r in
      if is_whitespace c && is_empty r' then EmptyString else String c r'
  end.

(** [s.trim()] *)
Definition trim (s : string) : string := trimEnd (trimStart s).

(** [s.toLowerCase()] on code units below 256: A-Z and the Latin-1
    capitals U+00C0..U+00DE (U+00D7, the multiplication sign, apart). *)
Definition lower_char (c : ascii) : ascii :=
  let n := nat_of_ascii c in
  if ((65 <=? n) && (n <=? 90)
      || (192 <=? n) && (n <=? 222) && negb (n =? 215))%nat
  then ascii_of_nat (n + 32) else c.

Fixpoint toLowerCase (s : string) : string :=
  match s with
  | EmptyString => EmptyString
  | String c r => String (lower_char c) (toLowerCase r)
  end.

(** [s.replace(/\s+/g, rep)]: every maximal run of white space becomes one
    [rep].  [in_run] says that the previous code unit was white space. *)
Fixpoint replace_ws_from (in_run : bool) (rep s : string) : string :=
  match s with
  | EmptyString => EmptyString
  | String c r =>
      if is_whitespace c
      then (if in_run then replace_ws_from true rep r
            else rep +:+ replace_ws_from true rep r)
      else String c (replace_ws_from false rep r)
  end.

Definition replace_whitespace_runs (rep s : string) : string :=
  replace_ws_from false rep s.

(** [s.split(/\s+/)]: the pieces between maximal runs of white space; a
    leading or trailing run leaves an empty first or last piece, and the
    empty string splits into one empty piece. *)
Fixpoint split_ws_from (in_run : bool) (s : string) : list string :=
  match s with
  | EmptyString => [EmptyString]
  | String c r =>
      if is_whitespace c
      then (if in_run then split_ws_from true r
            else EmptyString :: split_ws_from true r)
      else match split_ws_from false r with
           | t :: ts => String c t :: ts
           | [] => [String c EmptyString]
           end
  end.

Definition split_whitespace (s : string) : list string :=
  split_ws_from false s.

Fixpoint starts_with (p s : string) : bool :=
  match p, s with
  | EmptyString, _ => true
  | String a p', String b s' => if Ascii.eqb a b then starts_with p' s' else false
  | String _ _, EmptyString => false
  end.

(** [s.includes(sub)] *)
Fixpoint includes (sub s : string) : bool :=
  starts_with sub s ||
  match s with
  | EmptyString => false
  | String _ r => includes sub r
  end.

(** [xs.join(sep)] on strings. *)
Fixpoint join (sep : string) (xs : list string) : string :=
  match xs with
  | [] => EmptyString
  | [x] => x
  | x :: rest => x +:+ sep +:+ join sep rest
  end.

(** A template literal's rendering of an integer. *)
Definition of_Z (n : Z) : string := NilZero.string_of_int (Z.to_int n).

(** ANSI colour wrappers the sources put around stderr and notices. *)
Definition esc : string := String (ascii_of_nat 27) EmptyString.
Definition red (s : string) : string := esc +:+ "[31m" +:+ s +:+ esc +:+ "[0m".
Definition yellow (s : string) : string := esc +:+ "[33m" +:+ s +:+ esc +:+ "[0m".

Definition nl : string := String (ascii_of_nat 10) EmptyString.

(** The double quote. *)
Definition dq : string := String (ascii_of_nat 34) EmptyString.

End JsString.

(* ===================================================================== *)
(** * The WebSocket as the handlers see it *)
(* ===================================================================== *)

Module Ws.

(** [ws.readyState] of a server-side socket (never CONNECTING). *)
Inductive ready_state := OPEN | CLOSING | CLOSED.

(** The frames [JSON.stringify({type: ...})] puts on the wire. *)
Inductive frame :=
| Log (data : string)
| Complete (message : string)
| Error (message : string).

Definition is_terminal (f : frame) : bool :=
  match f with Log _ => false | Complete _ | Error _ => true end.

(** The socket: its state and the frames transmitted so far, oldest first. *)
Record socket := { readyState : ready_state; sent : list frame }.

Definition fresh : socket := {| readyState := OPEN; sent := [] |}.

Definition is_open (ws : socket) : bool :=
  match readyState ws with OPEN => true | _ => false end.

(** [ws.send(frame)]: transmitted only on an open socket; on a closing or
    closed one the library drops the data. *)
Definition send (f : frame) (ws : socket) : socket :=
  if is_open ws
  then {| readyState := readyState ws; sent := sent ws ++ [f] |}
  else ws.

(** [if (ws.readyState === WebSocket.OPEN) ws.send(frame)] *)
Definition send_if_open (f : frame) (ws : socket) : socket :=
  if is_open ws then send f ws else ws.

(** [ws.close()]: starts the closing handshake of an open socket. *)
Definition close (ws : socket) : socket :=
  if is_open ws
  then {| readyState := CLOSING; sent := sent ws |}
  else ws.

(** The peer is gone: the state the socket has when ['close'] is emitted. *)
Definition closed (ws : socket) : socket :=
  {| readyState := CLOSED; sent := sent ws |}.

End Ws.

(* ===================================================================== *)
(** * Values and exceptions of the JavaScript runtime *)
(* ===================================================================== *)

Module Js.

(** What a call gives back: a value, or an exception with its message. *)
Inductive outcome (A : Type) :=
| Returned (a : A)
| Thrown (message : string).
Arguments Returned {A} a.
Arguments Thrown {A} message.

(** Parsed JSON.  A number carries the text [String(n)] gives it; an
    object keeps its members in source order. *)
Inductive json :=
| JNull
| JBool (b : bool)
| JNumber (text : string)
| JString (s : string)
| JArray (items : list json)
| JObject (members : list (string * json)).

(** [v.key] on a value that is not [null]: the member of an object (the
    last one, if the text repeated the key), [undefined] ([None]) on
    everything else for the keys the sources read. *)
Fixpoint get_member (key : string) (members : list (string * json)) : option json :=
  match members with
  | [] => None
  | (k, v) :: rest =>
      match get_member key rest with
      | Some v' => Some v'
      | None => if String.eqb k key then Some v else None
      end
  end.

Definition get_prop (v : json) (key : string) : option json :=
  match v with
  | JObject members => get_member key members
  | _ => None
  end.

(** [String(v)], with [Array.prototype.join]'s rule that [null] and
    [undefined] items render as the empty string. *)
Fixpoint to_string (v : json) : string :=
  match v with
  | JNull => "null"
  | JBool true => "true"
  | JBool false => "false"
  | JNumber text => text
  | JString s => s
  | JArray items =>
      JsString.join ","
        (List.map (fun i => match i with JNull => EmptyString | _ => to_string i end) items)
  | JObject _ => "[object Object]"
  end.

(** An item of [array.join]: [undefined] and [null] give the empty string. *)
Definition join_item (v : option json) : string :=
  match v with
  | None | Some JNull => EmptyString
  | Some v => to_string v
  end.

(** The [TypeError]s a property read or a method call can raise. *)
Inductive type_error :=
| ReadOfNull (prop : string)
| ReadOfUndefined (prop : string)
| NotAFunction (name : string).

(** The builtins taken from the engine: [JSON.parse] (the value, or the
    [SyntaxError]'s message), the message of a [TypeError], and
    [now - t > ttl] for a JSON value [t] in the place of a time stamp
    (the engine's conversion to a number and its arithmetic). *)
Class Runtime := {
  JSON_parse : string -> outcome json;
  type_error_message : type_error -> string;
  older_than : Z -> json -> Z -> bool
}.

End Js.

(* ===================================================================== *)
(** * utils/kubectlUtils.js *)
(* ===================================================================== *)

Module KubectlUtils.
Import JsString Js.

(** What a child process emits: chunks on its two streams, then ['close']
    with the exit code ([None] is [null]: ended by a signal), or ['error']
    when it could not be spawned. *)
Inductive stream := StdoutStream | StderrStream.

Inductive exit_event :=
| Closed (code : option Z)
| SpawnFailed (message : string).

Inductive proc_event :=
| Data (from : stream) (data : string)
| Exit (x : exit_event).

(** [spawn(cmd, args)] and what was written to the child's stdin. *)
Record spawn_record := {
  cmd : string;
  args : list string;
  stdin : option string
}.

(** [const parts = command.split(/\s+/); cmd = parts[0]; args = parts.slice(1)] *)
Definition spawn_of_command (command : string) (input : option string) : spawn_record :=
  let parts := split_whitespace command in
  {| cmd := List.hd EmptyString parts;
     args := List.tl parts;
     stdin := match input with
              | Some i => if truthy i then Some i else None
              | None => None
              end |}.

(** The two accumulators of [execPromise] and of [executeCommand]. *)
Record buffers := { stdoutBuffer : string; stderrBuffer : string }.

Definition no_output : buffers :=
  {| stdoutBuffer := EmptyString; stderrBuffer := EmptyString |}.

Definition accumulate (b : buffers) (from : stream) (data : string) : buffers :=
  match from with
  | StdoutStream =>
      {| stdoutBuffer := stdoutBuffer b +:+ data; stderrBuffer := stderrBuffer b |}
  | StderrStream =>
      {| stdoutBuffer := stdoutBuffer b; stderrBuffer := stderrBuffer b +:+ data |}
  end.

(** [a || b] on strings. *)
Definition or_else (a b : string) : string := if truthy a then a else b.

(** [${code}] *)
Definition code_text (code : option Z) : string :=
  match code with Some n => of_Z n | None => "null" end.

(** [code === 0] *)
Definition is_zero (code : option Z) : bool :=
  match code with Some n => n =? 0 | None => false end.

(** ** execPromise *)

(** The ['close'] and ['error'] listeners of [execPromise]: how the promise
    settles. *)
Definition execPromise_exit (command : string) (b : buffers) (x : exit_event)
    : outcome string :=
  match x with
  | Closed code =>
      if is_zero code
      then Returned (trim (stdoutBuffer b))
      else
        let fullError :=
          or_else (stderrBuffer b)
            (or_else (stdoutBuffer b)
               ("Command exited with code " +:+ code_text code)) in
        Thrown (trim fullError)
  | SpawnFailed message =>
      Thrown ("Failed to execute command " +:+ dq +:+ command +:+ dq +:+ ": " +:+ message)
  end.

Definition accumulate_all (chunks : list (stream * string)) : buffers :=
  fold_left (fun b c => accumulate b (fst c) (snd c)) chunks no_output.

(** [execPromise(command)] for a child that emits [chunks] and then [x]. *)
Definition execPromise (command : string) (chunks : list (stream * string))
    (x : exit_event) : outcome string :=
  execPromise_exit command (accumulate_all chunks) x.

(** ** parseAndHandleJson *)

(** [[\s\S]*] followed by the code unit [c], matched greedily: the longest
    prefix of [s] that ends with [c]. *)
Fixpoint greedy_until (c : ascii) (s : string) : option string :=
  match s with
  | EmptyString => None
  | String a r =>
      match greedy_until c r with
      | Some m => Some (String a m)
      | None => if Ascii.eqb a c then Some (String a EmptyString) else None
      end
  end.

(** One alternative of the pattern, tried at the start of [s]. *)
Definition bracketed (o c : ascii) (s : string) : option string :=
  match s with
  | EmptyString => None
  | String a r =>
      if Ascii.eqb a o
      then match greedy_until c r with
           | Some m => Some (String a m)
           | None => None
           end
      else None
  end.

(** [s.match(/(\{[\s\S]*\}|\[[\s\S]*\])/)]: start positions from the left,
    at each one the brace alternative before the bracket one; the result is
    [jsonMatch[0]], [None] when there is no match. *)
Fixpoint json_match (s : string) : option string :=
  match bracketed "{" "}" s with
  | Some m => Some m
  | None =>
      match bracketed "[" "]" s with
      | Some m => Some m
      | None =>
          match s with
          | EmptyString => None
          | String _ r => json_match r
          end
      end
  end.

Definition parseAndHandleJson `{Runtime} (jsonString context : string)
    : outcome json :=
  let cleanedJsonString := trim jsonString in
  match json_match cleanedJsonString with
  | Some extracted =>
      match JSON_parse extracted with
      | Returned parsed => Returned parsed
      | Thrown message =>
          Thrown ("Failed to parse " +:+ context
                  +:+ " as JSON. Raw output might be malformed or contain non-JSON data. Details: "
                  +:+ message)
      end
  | None =>
      Thrown ("No valid JSON structure found for " +:+ context
              +:+ ". Raw output might be empty or malformed.")
  end.

(** ** executeCommand *)

(** [{ success: true, output }] or [{ success: false, error }] *)
Inductive command_result :=
| Succeeded (output : string)
| Failed (error : string).

Definition success (r : command_result) : bool :=
  match r with Succeeded _ => true | Failed _ => false end.

(** The ['data'] listeners of [executeCommand]: collect, and stream to the
    socket (stderr in red) when [ws.readyState === 1]. *)
Definition stream_frame (from : stream) (data : string) : Ws.frame :=
  match from with
  | StdoutStream => Ws.Log data
  | StderrStream => Ws.Log (red data)
  end.

Definition executeCommand_data (b : buffers) (from : stream) (data : string)
    (ws : Ws.socket) : buffers * Ws.socket :=
  (accumulate b from data, Ws.send_if_open (stream_frame from data) ws).

(** The ['close'] and ['error'] listeners: how the promise resolves. *)
Definition executeCommand_exit (b : buffers) (x : exit_event) : command_result :=
  match x with
  | Closed code =>
      if is_zero code
      then Succeeded (stdoutBuffer b)
      else Failed (or_else (stderrBuffer b)
                     ("Command exited with code " +:+ code_text code))
  | SpawnFailed message => Failed message
  end.

(** ** executeCommandWithRetry *)

(** What happens around the retrying executor while it waits: output of the
    current child, or the client going away. *)
Inductive env_event :=
| Chunk (from : stream) (data : string)
| PeerGone.

(** One attempt as the environment plays it: events, then the child's end. *)
Record attempt := { during : list env_event; ending : exit_event }.

(** The socket, the children spawned and the delays slept, oldest first. *)
Record world := {
  ws : Ws.socket;
  spawned : list spawn_record;
  slept : list Z
}.

Definition start_world (sock : Ws.socket) : world :=
  {| ws := sock; spawned := []; slept := [] |}.

Definition on_env_event (st : buffers * Ws.socket) (e : env_event)
    : buffers * Ws.socket :=
  match e with
  | Chunk from data => executeCommand_data (fst st) from data (snd st)
  | PeerGone => (fst st, Ws.closed (snd st))
  end.

(** [await executeCommand(command, ws, input)] for one played attempt. *)
Definition executeCommand (command : string) (input : option string)
    (a : attempt) (w : world) : command_result * world :=
  let st := fold_left on_env_event (during a) (no_output, ws w) in
  (executeCommand_exit (fst st) (ending a),
   {| ws := snd st;
      spawned := spawned w ++ [spawn_of_command command input];
      slept := slept w |}).

Definition retry_notice (i retries : Z) (command : string) : Ws.frame :=
  Ws.Log (yellow ("Retrying command (attempt " +:+ of_Z (i + 1) +:+ "/"
                  +:+ of_Z retries +:+ "): " +:+ command) +:+ nl).

(** The body of [for (let i = 0; i < retries; i++)], [todo] iterations
    left, and the [return] after the loop. *)
Fixpoint retry_from (todo : nat) (i : Z) (command : string) (retries delay : Z)
    (input : option string) (env : Z -> attempt) (w : world)
    : command_result * world :=
  match todo with
  | O =>
      (Failed ("Command failed after " +:+ of_Z retries +:+ " attempts: " +:+ command), w)
  | S todo' =>
      let (result, w1) := executeCommand command input (env i) w in
      if success result then (result, w1)
      else
        let w2 := {| ws := Ws.send_if_open (retry_notice i retries command) (ws w1);
                     spawned := spawned w1;
                     slept := slept w1 ++ [delay] |} in
        retry_from todo' (i + 1) command retries delay input env w2
  end.

(** [executeCommandWithRetry(command, ws, retries, delay, input)]; [env i]
    plays attempt [i]. *)
Definition executeCommandWithRetry (command : string) (retries delay : Z)
    (input : option string) (env : Z -> attempt) (w : world)
    : command_result * world :=
  retry_from (Z.to_nat retries) 0 command retries delay input env w.

End KubectlUtils.

(* ===================================================================== *)
(** * utils/eksConfigGenerator.js *)
(* ===================================================================== *)

Module EksConfig.
Import JsString.

(** The [payload] of a [create] message, as the front end's form builds it
    (the fields the server reads). *)
Record payload := {
  clusterName : string;
  region : string;
  kubernetesVersion : string;
  nodeGroupName : string;
  instanceType : string;
  desiredCapacity : Z;
  minNodes : Z;
  maxNodes : Z;
  volumeSize : Z;
  volumeType : string;
  enableSsh : bool;
  sshKeyName : string;
  enableEbsCsiAccess : bool;
  enableEfsCsiAccess : bool;
  albIngressAccess : bool
}.

Definition of_bool (b : bool) : string := if b then "true" else "false".

(** The first template literal: header, [metadata] and [iam]. *)
Definition metadata_block (config : payload) : string :=
  nl +:+ "apiVersion: eksctl.io/v1alpha5" +:+ nl
  +:+ "kind: ClusterConfig" +:+ nl
  +:+ nl
  +:+ "metadata:" +:+ nl
  +:+ "  name: " +:+ clusterName config +:+ nl
  +:+ "  region: " +:+ region config +:+ nl
  +:+ "  version: " +:+ dq +:+ kubernetesVersion config +:+ dq +:+ nl
  +:+ nl
  +:+ "iam:" +:+ nl
  +:+ "  withOIDC: true".

Definition node_group_block (config : payload) : string :=
  nl +:+ "managedNodeGroups:" +:+ nl
  +:+ "  - name: " +:+ nodeGroupName config +:+ nl
  +:+ "    instanceType: " +:+ instanceType config +:+ nl
  +:+ "    desiredCapacity: " +:+ of_Z (desiredCapacity config) +:+ nl
  +:+ "    minSize: " +:+ of_Z (minNodes config) +:+ nl
  +:+ "    maxSize: " +:+ of_Z (maxNodes config) +:+ nl
  +:+ "    volumeSize: " +:+ of_Z (volumeSize config) +:+ nl
  +:+ "    volumeType: " +:+ volumeType config +:+ nl
  +:+ "    ssh:" +:+ nl
  +:+ "      allow: " +:+ of_bool (enableSsh config) +:+ nl.

Definition ssh_key_block (config : payload) : string :=
  if enableSsh config && truthy (sshKeyName config)
  then nl +:+ "      publicKeyName: " +:+ sshKeyName config +:+ nl
  else EmptyString.

Definition addons_block (config : payload) : string :=
  nl +:+ "addons:"
  +:+ (if enableEbsCsiAccess config
       then nl +:+ "  - name: aws-ebs-csi-driver" +:+ nl
            +:+ "    wellKnownPolicies:" +:+ nl
            +:+ "      ebsCSIController: true" +:+ nl
       else EmptyString)
  +:+ (if enableEfsCsiAccess config
       then nl +:+ "  - name: aws-efs-csi-driver" +:+ nl
            +:+ "    wellKnownPolicies:" +:+ nl
            +:+ "      efsCSIController: true" +:+ nl
       else EmptyString)
  +:+ nl +:+ "  - name: vpc-cni" +:+ nl.

(** [generateEksClusterConfig(config)] *)
Definition generateEksClusterConfig (config : payload) : string :=
  metadata_block config
  +:+ node_group_block config
  +:+ ssh_key_block config
  +:+ addons_block config.

End EksConfig.

(* ===================================================================== *)
(** * routes/kubernetesRoutes.js: the Grafana port-forward routes *)
(* ===================================================================== *)

Module PortForward.
Import JsString KubectlUtils.

(** [res.status(n).json({...})] *)
Inductive body :=
| Message (message : string) (port : option Z)
| Failure (error : string).

Record response := { status : Z; content : body }.

Definition localPort : Z := 8080.

(** What reaches the two routes and the child's listeners. *)
Inductive event :=
| Start                                  (* POST /kube-start-port-forward *)
| Stop                                   (* POST /kube-stop-port-forward *)
| Proc (pid : nat) (e : proc_event).

(** [req.app.locals.portForwardProcess], the listeners attached to each
    child with the request whose [res] they close over, the responses
    sent (by request, oldest first), the children spawned and the ones
    sent SIGTERM. *)
Record state := {
  portForwardProcess : option nat;
  listeners : list (nat * nat);
  responses : list (nat * response);
  spawned : list (nat * spawn_record);
  terminated : list nat;
  next_request : nat
}.

(** [app.locals.portForwardProcess = null] of server.js. *)
Definition init : state :=
  {| portForwardProcess := None; listeners := []; responses := [];
     spawned := []; terminated := []; next_request := O |}.

Definition response_to (r : nat) (s : state) : option response :=
  snd <$> List.find (fun x => Nat.eqb (fst x) r) (responses s).

(** [res.headersSent] *)
Definition headersSent (r : nat) (s : state) : bool :=
  match response_to r s with Some _ => true | None => false end.

Definition respond (r : nat) (st : Z) (b : body) (s : state) : state :=
  {| portForwardProcess := portForwardProcess s;
     listeners := listeners s;
     responses := responses s ++ [(r, {| status := st; content := b |})];
     spawned := spawned s;
     terminated := terminated s;
     next_request := next_request s |}.

Definition set_handle (h : option nat) (s : state) : state :=
  {| portForwardProcess := h;
     listeners := listeners s;
     responses := responses s;
     spawned := spawned s;
     terminated := terminated s;
     next_request := next_request s |}.

Definition accept_request (s : state) : state :=
  {| portForwardProcess := portForwardProcess s;
     listeners := listeners s;
     responses := responses s;
     spawned := spawned s;
     terminated := terminated s;
     next_request := S (next_request s) |}.

Definition forward_args : list string :=
  ["port-forward"; "--namespace"; "monitoring"; "service/grafana-service";
   of_Z localPort +:+ ":" +:+ of_Z 3000].

(** [router.post('/kube-start-port-forward', ...)]; the request is number
    [next_request], the child's pid the number of children spawned. *)
Definition start (s : state) : state :=
  let r := next_request s in
  let s := accept_request s in
  match portForwardProcess s with
  | Some _ =>
      respond r 200 (Message "Port-forwarding already active." (Some 8080)) s
  | None =>
      let pid := List.length (spawned s) in
      {| portForwardProcess := Some pid;
         listeners := listeners s ++ [(pid, r)];
         responses := responses s;
         spawned := spawned s ++
                    [(pid, {| cmd := "kubectl"; args := forward_args; stdin := None |})];
         terminated := terminated s;
         next_request := next_request s |}
  end.

(** [router.post('/kube-stop-port-forward', ...)] *)
Definition stop (s : state) : state :=
  let r := next_request s in
  let s := accept_request s in
  match portForwardProcess s with
  | Some pid =>
      let s := {| portForwardProcess := None;
                  listeners := listeners s;
                  responses := responses s;
                  spawned := spawned s;
                  terminated := terminated s ++ [pid];
                  next_request := next_request s |} in
      respond r 200 (Message "Port-forwarding stopped." None) s
  | None =>
      respond r 200 (Message "No active port-forwarding process to stop." None) s
  end.

Definition detach (pid : nat) (s : state) : state :=
  {| portForwardProcess := portForwardProcess s;
     listeners := List.filter (fun x => negb (Nat.eqb (fst x) pid)) (listeners s);
     responses := responses s;
     spawned := spawned s;
     terminated := terminated s;
     next_request := next_request s |}.

(** The four listeners [start] attaches to the child it spawned for
    request [r]. *)
Definition on_proc (pid r : nat) (e : proc_event) (s : state) : state :=
  match e with
  | Data StdoutStream data =>
      if negb (headersSent r s) && includes "Forwarding from" data
      then respond r 200 (Message "Port-forwarding started successfully." (Some localPort)) s
      else s
  | Data StderrStream data =>
      let s := if negb (headersSent r s)
               then respond r 500 (Failure ("Failed to start port-forwarding: " +:+ data)) s
               else s in
      set_handle None s
  | Exit (Closed code) =>
      detach pid (set_handle None s)
  | Exit (SpawnFailed message) =>
      let s := if negb (headersSent r s)
               then respond r 500 (Failure "Failed to spawn kubectl port-forward process.") s
               else s in
      set_handle None s
  end.

Definition step (s : state) (e : event) : state :=
  match e with
  | Start => start s
  | Stop => stop s
  | Proc pid pe =>
      match List.find (fun x => Nat.eqb (fst x) pid) (listeners s) with
      | Some (_, r) => on_proc pid r pe s
      | None => s
      end
  end.

Definition run (s : state) (trace : list event) : state :=
  fold_left step trace s.

End PortForward.

(* ===================================================================== *)
(** * websocket/kubernetesWsHandlers.js: the eks-cli-stream connection *)
(* ===================================================================== *)

Module WsHandlers.
Import JsString Js KubectlUtils EksConfig.

(** An inbound message after [JSON.parse] and the reads of [commandType]
    and [payload]: a [create], a [delete], another command type (no branch
    runs), or a message whose handling throws before the first [await]
    (not JSON, or no payload), with the exception's message. *)
Inductive inbound :=
| Create (p : payload)
| Delete (clusterName region : string)
| OtherCommand
| Malformed (message : string).

(** Modelled from the spec: utils/clusterUtils.js is not among the sources.
    Its five functions are external steps of the post-creation sequence:
    each is given the socket, reports progress and failures on it as log
    frames, and ends by returning a value or by throwing. *)
Inductive helper :=
| applyDefaultStorageClass
| installCertManager
| createOrVerifyAlbIamPolicy
| createAlbIamServiceAccount
| installAlbControllerManifest.

Inductive hval := HUndefined | HBool (b : bool) | HString (s : string).

Definition hval_truthy (v : hval) : bool :=
  match v with
  | HUndefined => false
  | HBool b => b
  | HString s => truthy s
  end.

(** A helper sends a log frame, or ends ([Returned v] or [Thrown message]). *)
Inductive helper_event :=
| HelperLog (data : string)
| HelperEnd (r : outcome hval).

Record helper_call := { callee : helper; arguments : list hval }.

(** The constants of one [create] handler run: the normalised name, the
    region and the payload. *)
Record context := { name : string; where_ : string; request : payload }.

(** What is waiting on the event loop: an [await] of the async handlers
    with its continuation, the listeners on an eksctl child, or a timer. *)
Inductive cont :=
| AwaitCallerIdentity (c : context) (command : string) (b : buffers)
| AwaitIamSimulation (c : context) (command : string) (b : buffers)
| AwaitExistenceCheck (c : context) (b : buffers)
| EksCreateListeners (c : context)
| EksDeleteListeners (clusterName : string)
| AwaitHelper (h : helper) (c : context)
| AwaitStabilise (c : context)
| CloseTimer.

(** The connection: the socket, the two variables of the closure, the
    waiting continuations by id (pids, helper calls and timers draw their
    ids from one counter), and what the handlers did to the outside:
    children spawned, children sent SIGKILL, helpers called. *)
Record session := {
  ws : Ws.socket;
  eksProcess : option nat;
  eksProcessExited : bool;
  pending : list (nat * cont);
  next_id : nat;
  spawned : list (nat * spawn_record);
  killed : list nat;
  called : list (nat * helper_call)
}.

(** A new connection: [let eksProcess; let eksProcessExited = false;]. *)
Definition init : session :=
  {| ws := Ws.fresh; eksProcess := None; eksProcessExited := false;
     pending := []; next_id := O; spawned := []; killed := []; called := [] |}.

Definition with_ws (f : Ws.socket -> Ws.socket) (s : session) : session :=
  {| ws := f (ws s); eksProcess := eksProcess s;
     eksProcessExited := eksProcessExited s; pending := pending s;
     next_id := next_id s; spawned := spawned s; killed := killed s;
     called := called s |}.

Definition with_eksProcess (p : option nat) (s : session) : session :=
  {| ws := ws s; eksProcess := p;
     eksProcessExited := eksProcessExited s; pending := pending s;
     next_id := next_id s; spawned := spawned s; killed := killed s;
     called := called s |}.

Definition with_exited (b : bool) (s : session) : session :=
  {| ws := ws s; eksProcess := eksProcess s;
     eksProcessExited := b; pending := pending s;
     next_id := next_id s; spawned := spawned s; killed := killed s;
     called := called s |}.

Definition with_pending (l : list (nat * cont)) (s : session) : session :=
  {| ws := ws s; eksProcess := eksProcess s;
     eksProcessExited := eksProcessExited s; pending := l;
     next_id := next_id s; spawned := spawned s; killed := killed s;
     called := called s |}.

Definition kill (p : nat) (s : session) : session :=
  {| ws := ws s; eksProcess := eksProcess s;
     eksProcessExited := eksProcessExited s; pending := pending s;
     next_id := next_id s; spawned := spawned s; killed := killed s ++ [p];
     called := called s |}.

Fixpoint lookup_cont (id : nat) (l : list (nat * cont)) : option cont :=
  match l with
  | [] => None
  | (i, k) :: rest => if Nat.eqb i id then Some k else lookup_cont id rest
  end.

Definition remove_cont (id : nat) (l : list (nat * cont)) : list (nat * cont) :=
  List.filter (fun x => negb (Nat.eqb (fst x) id)) l.

Definition forget (id : nat) (s : session) : session :=
  with_pending (remove_cont id (pending s)) s.

Definition replace_cont (id : nat) (k : cont) (s : session) : session :=
  with_pending
    (List.map (fun x => if Nat.eqb (fst x) id then (id, k) else x) (pending s)) s.

(** Register a continuation under a fresh id. *)
Definition wait (k : cont) (s : session) : session :=
  {| ws := ws s; eksProcess := eksProcess s;
     eksProcessExited := eksProcessExited s;
     pending := pending s ++ [(next_id s, k)];
     next_id := S (next_id s); spawned := spawned s; killed := killed s;
     called := called s |}.

(** [spawn(cmd, args)] with the listeners or the awaiting promise [k]. *)
Definition spawn (r : spawn_record) (k : cont) (s : session) : session :=
  let s' := wait k s in
  {| ws := ws s'; eksProcess := eksProcess s';
     eksProcessExited := eksProcessExited s'; pending := pending s';
     next_id := next_id s'; spawned := spawned s ++ [(next_id s, r)];
     killed := killed s'; called := called s' |}.

(** [await helper(arguments..., ws)] *)
Definition call (h : helper) (arguments : list hval) (c : context) (s : session)
    : session :=
  let s' := wait (AwaitHelper h c) s in
  {| ws := ws s'; eksProcess := eksProcess s';
     eksProcessExited := eksProcessExited s'; pending := pending s';
     next_id := next_id s'; spawned := spawned s'; killed := killed s';
     called := called s ++ [(next_id s, {| callee := h; arguments := arguments |})] |}.

Definition send (f : Ws.frame) : session -> session := with_ws (Ws.send f).
Definition send_if_open (f : Ws.frame) : session -> session :=
  with_ws (Ws.send_if_open f).
Definition close_socket : session -> session := with_ws Ws.close.
Definition is_open (s : session) : bool := Ws.is_open (ws s).

(** [cleanupEksProcessResources()] *)
Definition cleanupEksProcessResources (s : session) : session :=
  match eksProcess s with
  | Some p =>
      let s := forget p s in
      let s := if eksProcessExited s then s else kill p s in
      with_eksProcess None s
  | None => s
  end.

(** [ws.send(error); ws.close(); cleanupEksProcessResources(); return;] *)
Definition abort (message : string) (s : session) : session :=
  cleanupEksProcessResources (close_socket (send (Ws.Error message) s)).

(** ** The [create] branch *)

Definition normalise (clusterName : string) : string :=
  toLowerCase (replace_whitespace_runs "-" clusterName).

Definition sts_command : string :=
  "aws sts get-caller-identity --query Arn --output text".

Definition requiredPermissions : list string :=
  ["iam:CreateRole"; "iam:AttachRolePolicy"; "iam:PutRolePolicy";
   "iam:CreateServiceLinkedRole"].

Definition checkIamPermsCmd (callerIdentityArn : string) : string :=
  "aws iam simulate-principal-policy --policy-source-arn "
  +:+ trim callerIdentityArn +:+ " --action-names " +:+ join " " requiredPermissions.

Definition on_create (p : payload) (s : session) : session :=
  let c := {| name := normalise (clusterName p); where_ := region p; request := p |} in
  let s := send (Ws.Log (nl +:+ "--- Running pre-flight permission check for IAM role creation ---" +:+ nl)) s in
  spawn (spawn_of_command sts_command None) (AwaitCallerIdentity c sts_command no_output) s.

(** [catch (iamCheckError)] *)
Definition preflight_error (message : string) (s : session) : session :=
  abort ("Failed during IAM pre-flight check: " +:+ message
         +:+ ". This could be due to missing 'iam:SimulatePrincipalPolicy' or 'sts:GetCallerIdentity' permissions.") s.

Definition after_caller_identity (c : context) (callerIdentityArn : string)
    (s : session) : session :=
  let command := checkIamPermsCmd callerIdentityArn in
  spawn (spawn_of_command command None) (AwaitIamSimulation c command no_output) s.

(** [parsedResult.EvaluationResults.filter] up to the call: the array, or
    the [TypeError] of the read that fails. *)
Definition evaluation_results (parsedResult : json) : type_error + list json :=
  match parsedResult with
  | JNull => inl (ReadOfNull "EvaluationResults")
  | _ =>
      match get_prop parsedResult "EvaluationResults" with
      | None => inl (ReadOfUndefined "filter")
      | Some JNull => inl (ReadOfNull "filter")
      | Some (JArray items) => inr items
      | Some _ => inl (NotAFunction "filter")
      end
  end.

(** [res => res.EvalDecision !== 'allowed'] *)
Definition not_allowed (res : json) : bool :=
  match get_prop res "EvalDecision" with
  | Some (JString d) => negb (String.eqb d "allowed")
  | _ => true
  end.

(** [items.filter(res => res.EvalDecision !== 'allowed')]; reading the
    decision of a [null] item throws. *)
Fixpoint filter_denied (items : list json) : type_error + list json :=
  match items with
  | [] => inr []
  | JNull :: _ => inl (ReadOfNull "EvalDecision")
  | res :: rest =>
      match filter_denied rest with
      | inl e => inl e
      | inr ds => inr (if not_allowed res then res :: ds else ds)
      end
  end.

Definition denied_results (parsedResult : json) : type_error + list json :=
  match evaluation_results parsedResult with
  | inl e => inl e
  | inr items => filter_denied items
  end.

(** [denied.map(d => d.EvalActionName).join(', ')] *)
Definition deniedActions (denied : list json) : string :=
  join ", " (List.map (fun d => join_item (get_prop d "EvalActionName")) denied).

Definition check_command (c : context) : string :=
  "eksctl get cluster --name=" +:+ name c +:+ " --region=" +:+ where_ c
  +:+ " --output json".

Definition after_iam_simulation `{Runtime} (c : context) (iamCheckResult : string)
    (s : session) : session :=
  match JSON_parse iamCheckResult with
  | Thrown message => preflight_error message s
  | Returned parsedResult =>
      match denied_results parsedResult with
      | inl e => preflight_error (type_error_message e) s
      | inr (d :: ds) =>
          abort ("Pre-flight check failed. Missing permissions: "
                 +:+ deniedActions (d :: ds)
                 +:+ ". Please grant these permissions to your IAM user and try again.") s
      | inr [] =>
          let s := send (Ws.Log ("IAM permission check successful. Proceeding with cluster creation." +:+ nl)) s in
          let s := send (Ws.Log (nl +:+ "Checking for existing cluster '" +:+ name c
                                 +:+ "' in region '" +:+ where_ c +:+ "'..." +:+ nl)) s in
          spawn (spawn_of_command (check_command c) None)
                (AwaitExistenceCheck c no_output) s
      end
  end.

Definition create_spawn (c : context) : spawn_record :=
  {| cmd := "eksctl"; args := ["create"; "cluster"; "-f"; "-"];
     stdin := Some (generateEksClusterConfig (request c)) |}.

Definition after_existence_check (c : context) (checkResult : command_result)
    (s : session) : session :=
  match checkResult with
  | Succeeded _ =>
      abort ("Cluster '" +:+ name c +:+ "' already exists in region '"
             +:+ where_ c +:+ "'.") s
  | Failed error =>
      if truthy error && negb (includes "ResourceNotFoundException" error)
      then abort ("Failed to check for existing cluster: " +:+ error) s
      else
        let s := send (Ws.Log ("Cluster '" +:+ name c
                               +:+ "' does not exist. Proceeding with creation." +:+ nl)) s in
        let clusterConfigFileContent := generateEksClusterConfig (request c) in
        let s := send (Ws.Log (nl +:+ "--- Generated eksctl Configuration ---" +:+ nl
                               +:+ clusterConfigFileContent +:+ nl
                               +:+ "------------------------------------" +:+ nl)) s in
        let pid := next_id s in
        with_eksProcess (Some pid) (spawn (create_spawn c) (EksCreateListeners c) s)
  end.

(** The tail of both ['close'] listeners inside [if (ws is open)]:
    [setTimeout(() => { if (open) ws.close(); }, 1000)], and then the
    [cleanupEksProcessResources()] that ends the listener. *)
Definition finish (s : session) : session :=
  cleanupEksProcessResources (wait CloseTimer s).

(** From the 15 s delay on. *)
Definition stabilise (c : context) (s : session) : session :=
  let s := send (Ws.Log (nl +:+ "--- Waiting for 15 seconds for API server to stabilize before deploying monitoring stack... ---" +:+ nl)) s in
  wait (AwaitStabilise c) s.

Definition after_stabilise (c : context) (s : session) : session :=
  finish (send (Ws.Complete ("Cluster '" +:+ name c
                             +:+ "' and all selected add-ons created successfully.")) s).

(** [eksProcess.on('close', async (code) => ...)] of the create branch. *)
Definition on_create_close (c : context) (code : option Z) (s : session) : session :=
  let s := with_exited true s in
  if is_open s
  then
    if is_zero code
    then call applyDefaultStorageClass [HString (name c); HString (where_ c)] c s
    else finish (send (Ws.Error ("Cluster creation failed with code "
                                 +:+ code_text code +:+ ".")) s)
  else cleanupEksProcessResources s.

(** The async ['close'] listener resumed after the helper it awaited. *)
Definition after_helper (h : helper) (c : context) (r : outcome hval)
    (s : session) : session :=
  match r with
  | Returned v =>
      match h with
      | applyDefaultStorageClass =>
          if albIngressAccess (request c)
          then call installCertManager [] c s
          else stabilise c s
      | installCertManager =>
          if hval_truthy v
          then call createOrVerifyAlbIamPolicy [] c s
          else stabilise c
                 (send (Ws.Log (red "Failed to install cert-manager. Skipping ALB Controller installation." +:+ nl)) s)
      | createOrVerifyAlbIamPolicy =>
          call createAlbIamServiceAccount
               [HString (name c); HString (where_ c); v] c s
      | createAlbIamServiceAccount =>
          if hval_truthy v
          then call installAlbControllerManifest [HString (name c)] c s
          else stabilise c
                 (send (Ws.Log (red "Could not create IAM Service Account for ALB. The controller will not function correctly." +:+ nl)) s)
      | installAlbControllerManifest => stabilise c s
      end
  | Thrown message =>
      match h with
      | applyDefaultStorageClass =>
          (* outside the [try]: the listener's promise rejects and the
             rest of the listener never runs *)
          s
      | _ =>
          stabilise c
            (send (Ws.Log (red ("An error occurred during ALB Controller setup: "
                                +:+ message +:+ ".") +:+ nl)) s)
      end
  end.

(** [eksProcess.on('error', ...)] of either branch. *)
Definition on_eks_error (prefix message : string) (s : session) : session :=
  let s := with_exited true s in
  let s := if is_open s
           then close_socket (send (Ws.Error (prefix +:+ message)) s)
           else s in
  cleanupEksProcessResources s.

(** ** The [delete] branch *)

Definition delete_spawn (clusterName region : string) : spawn_record :=
  {| cmd := "eksctl";
     args := ["delete"; "cluster"; "--name=" +:+ clusterName; "--region=" +:+ region];
     stdin := None |}.

Definition on_delete (clusterName region : string) (s : session) : session :=
  let pid := next_id s in
  with_eksProcess (Some pid)
    (spawn (delete_spawn clusterName region) (EksDeleteListeners clusterName) s).

Definition on_delete_close (clusterName : string) (code : option Z) (s : session)
    : session :=
  let s := with_exited true s in
  if is_open s
  then
    finish
      (if is_zero code
       then send (Ws.Complete ("Cluster '" +:+ clusterName +:+ "' deleted successfully.")) s
       else send (Ws.Error ("Cluster deletion failed with code "
                            +:+ code_text code +:+ ".")) s)
  else cleanupEksProcessResources s.

(** ** The listeners of the socket *)

(** [ws.on('message', async message => ...)] *)
Definition on_message (m : inbound) (s : session) : session :=
  match m with
  | Create p => on_create p s
  | Delete clusterName region => on_delete clusterName region s
  | OtherCommand => s
  | Malformed message =>
      if is_open s
      then close_socket (send (Ws.Error ("Invalid message format: " +:+ message)) s)
      else s
  end.

(** [ws.on('close', ...)]; the socket is closed when it is emitted. *)
Definition on_ws_close (s : session) : session :=
  cleanupEksProcessResources (with_ws Ws.closed s).

(** [ws.on('error', ...)] *)
Definition on_ws_error (message : string) (s : session) : session :=
  let s := cleanupEksProcessResources s in
  if is_open s
  then close_socket (send (Ws.Error ("WebSocket error: " +:+ message)) s)
  else s.

(** ** The event loop *)

Inductive event :=
| Message (m : inbound)
| WsClose
| WsError (message : string)
| Proc (pid : nat) (e : proc_event)
| Helper (id : nat) (e : helper_event)
| Timeout (id : nat).

(** An event of child [pid], run by what is attached to it.  A settled
    promise and a closed child hear nothing more, so their entry goes. *)
Definition on_proc `{Runtime} (pid : nat) (e : proc_event) (s : session) : session :=
  match lookup_cont pid (pending s) with
  | Some (AwaitCallerIdentity c command b) =>
      match e with
      | Data from data =>
          replace_cont pid (AwaitCallerIdentity c command (accumulate b from data)) s
      | Exit x =>
          match execPromise_exit command b x with
          | Returned callerIdentityArn =>
              after_caller_identity c callerIdentityArn (forget pid s)
          | Thrown message => preflight_error message (forget pid s)
          end
      end
  | Some (AwaitIamSimulation c command b) =>
      match e with
      | Data from data =>
          replace_cont pid (AwaitIamSimulation c command (accumulate b from data)) s
      | Exit x =>
          match execPromise_exit command b x with
          | Returned iamCheckResult =>
              after_iam_simulation c iamCheckResult (forget pid s)
          | Thrown message => preflight_error message (forget pid s)
          end
      end
  | Some (AwaitExistenceCheck c b) =>
      match e with
      | Data from data =>
          let (b', sock) := executeCommand_data b from data (ws s) in
          with_ws (fun _ => sock) (replace_cont pid (AwaitExistenceCheck c b') s)
      | Exit x =>
          after_existence_check c (executeCommand_exit b x) (forget pid s)
      end
  | Some (EksCreateListeners c) =>
      match e with
      | Data from data => send_if_open (stream_frame from data) s
      | Exit (Closed code) => on_create_close c code (forget pid s)
      | Exit (SpawnFailed message) =>
          on_eks_error "Failed to spawn EKS process: " message s
      end
  | Some (EksDeleteListeners clusterName) =>
      match e with
      | Data from data => send_if_open (stream_frame from data) s
      | Exit (Closed code) => on_delete_close clusterName code (forget pid s)
      | Exit (SpawnFailed message) =>
          on_eks_error "Failed to spawn EKS delete process: " message s
      end
  | _ => s
  end.

Definition on_helper (id : nat) (e : helper_event) (s : session) : session :=
  match lookup_cont id (pending s) with
  | Some (AwaitHelper h c) =>
      match e with
      | HelperLog data => send (Ws.Log data) s
      | HelperEnd r => after_helper h c r (forget id s)
      end
  | _ => s
  end.

Definition on_timeout (id : nat) (s : session) : session :=
  match lookup_cont id (pending s) with
  | Some (AwaitStabilise c) => after_stabilise c (forget id s)
  | Some CloseTimer =>
      let s := forget id s in
      if is_open s then close_socket s else s
  | _ => s
  end.

Definition step `{Runtime} (s : session) (e : event) : session :=
  match e with
  | Message m => on_message m s
  | WsClose => on_ws_close s
  | WsError message => on_ws_error message s
  | Proc pid pe => on_proc pid pe s
  | Helper id he => on_helper id he s
  | Timeout id => on_timeout id s
  end.

Definition run `{Runtime} (s : session) (trace : list event) : session :=
  fold_left step trace s.

Definition frames (s : session) : list Ws.frame := Ws.sent (ws s).

End WsHandlers.

(* ===================================================================== *)
(** * Further JavaScript primitives: truthiness, [for-in], string ends *)
(* ===================================================================== *)

Module JsValue.
Import JsString Js.

(** [0-9], the regex class [\d]. *)
Definition is_digit (c : ascii) : bool :=
  let n := nat_of_ascii c in ((48 <=? n) && (n <=? 57))%nat.

(** [a-z] *)
Definition is_lower (c : ascii) : bool :=
  let n := nat_of_ascii c in ((97 <=? n) && (n <=? 122))%nat.

Fixpoint all_digits (s : string) : bool :=
  match s with
  | EmptyString => true
  | String c r => is_digit c && all_digits r
  end.

(** [s.endsWith(suffix)] *)
Fixpoint ends_with (suffix s : string) : bool :=
  String.eqb suffix s ||
  match s with
  | EmptyString => false
  | String _ r => ends_with suffix r
  end.

(** [s.slice(0, -1)] *)
Fixpoint drop_last (s : string) : string :=
  match s with
  | EmptyString => EmptyString
  | String c r => if is_empty r then EmptyString else String c (drop_last r)
  end.

(** [if (v)] on a value that came out of [JSON.parse]: [null], [false],
    [0] and the empty string are falsy.  A number carries the text
    [String(n)] gives it, which is ["0"] for both zeros. *)
Definition truthy (v : json) : bool :=
  match v with
  | JNull => false
  | JBool b => b
  | JNumber text => negb (String.eqb text "0" || String.eqb text "NaN")
  | JString s => JsString.truthy s
  | JArray _ | JObject _ => true
  end.

(** [if (v)] on a destructured field, [None] being [undefined]. *)
Definition truthy_field (v : option json) : bool :=
  match v with Some v => truthy v | None => false end.

(** [typeof v === 'object'] *)
Definition is_object (v : option json) : bool :=
  match v with
  | Some (JNull | JArray _ | JObject _) => true
  | _ => false
  end.

(** The value a decimal numeral denotes. *)
Fixpoint decimal_value (acc : N) (s : string) : N :=
  match s with
  | EmptyString => acc
  | String c r => decimal_value (10 * acc + N.of_nat (nat_of_ascii c - 48)) r
  end.

(** A key that is an array index: a canonical decimal numeral below
    2^32 - 1. *)
Definition is_index (k : string) : bool :=
  match k with
  | EmptyString => false
  | String c r =>
      all_digits k && (negb (Ascii.eqb c "0") || is_empty r)
      && (decimal_value 0 k <? 4294967295)%N
  end.

(** The keys of an object's own properties in creation order: where the
    text repeated a key, the property stays where it first stood. *)
Fixpoint distinct_keys (members : list (string * json)) : list string :=
  match members with
  | [] => []
  | (k, _) :: rest =>
      k :: List.filter (fun k' => negb (String.eqb k k')) (distinct_keys rest)
  end.

Fixpoint insert_index (k : string) (sorted : list string) : list string :=
  match sorted with
  | [] => [k]
  | k' :: rest =>
      if (decimal_value 0 k <=? decimal_value 0 k')%N
      then k :: sorted
      else k' :: insert_index k rest
  end.

Definition sort_indices (keys : list string) : list string :=
  List.fold_right insert_index [] keys.

(** The order in which [for (const key in object)] visits the keys: array
    indices first, ascending, then the other keys in creation order. *)
Definition enumeration_order (keys : list string) : list string :=
  sort_indices (List.filter is_index keys)
  ++ List.filter (fun k => negb (is_index k)) keys.

Fixpoint indexed (i : nat) (items : list json) : list (string * json) :=
  match items with
  | [] => []
  | v :: rest => (of_Z (Z.of_nat i), v) :: indexed (S i) rest
  end.

Fixpoint characters (i : nat) (s : string) : list (string * json) :=
  match s with
  | EmptyString => []
  | String c r =>
      (of_Z (Z.of_nat i), JString (String c EmptyString)) :: characters (S i) r
  end.

(** [for (const key in v)] with [v[key]] beside each key: nothing for
    [undefined], [null], numbers and booleans; the elements of an array
    and the code units of a string by index; the own properties of an
    object, each with the value the last occurrence of its key gave it. *)
Definition for_in (v : option json) : list (string * json) :=
  match v with
  | Some (JObject members) =>
      List.flat_map
        (fun k => match get_member k members with
                  | Some x => [(k, x)]
                  | None => []
                  end)
        (enumeration_order (distinct_keys members))
  | Some (JArray items) => indexed 0 items
  | Some (JString s) => characters 0 s
  | _ => []
  end.

End JsValue.

(* ===================================================================== *)
(** * Anchored regular expressions *)
(* ===================================================================== *)

Module Regex.
Import JsString JsValue.

(** The patterns the validators and the manifest generators [test] are
    anchored at both ends ([^...$], no flags) and built from classes,
    sequence, alternation, [?], [*] and [+] only: [test] asks whether the
    whole string belongs to the pattern's language. *)
Inductive regex :=
| Never
| Eps
| Class (p : ascii -> bool)
| Seq (r1 r2 : regex)
| Alt (r1 r2 : regex)
| Star (r : regex).

(** [r+], [r?], one code unit, a literal, [w1|w2|...]. *)
Definition Plus (r : regex) : regex := Seq r (Star r).
Definition Opt (r : regex) : regex := Alt r Eps.
Definition Char (c : ascii) : regex := Class (Ascii.eqb c).

Fixpoint Lit (s : string) : regex :=
  match s with
  | EmptyString => Eps
  | String c r => Seq (Char c) (Lit r)
  end.

Fixpoint OneOf (words : list string) : regex :=
  match words with
  | [] => Never
  | w :: rest => Alt (Lit w) (OneOf rest)
  end.

Fixpoint nullable (r : regex) : bool :=
  match r with
  | Never => false
  | Eps => true
  | Class _ => false
  | Seq r1 r2 => nullable r1 && nullable r2
  | Alt r1 r2 => nullable r1 || nullable r2
  | Star _ => true
  end.

(** What [r] can still match after the code unit [c]. *)
Fixpoint deriv (c : ascii) (r : regex) : regex :=
  match r with
  | Never => Never
  | Eps => Never
  | Class p => if p c then Eps else Never
  | Seq r1 r2 =>
      if nullable r1
      then Alt (Seq (deriv c r1) r2) (deriv c r2)
      else Seq (deriv c r1) r2
  | Alt r1 r2 => Alt (deriv c r1) (deriv c r2)
  | Star r1 => Seq (deriv c r1) (Star r1)
  end.

(** [/^r$/.test(s)] *)
Fixpoint test (r : regex) (s : string) : bool :=
  match s with
  | EmptyString => nullable r
  | String c rest => test (deriv c r) rest
  end.

(** [\d] *)
Definition digit : regex := Class is_digit.

End Regex.

(* ===================================================================== *)
(** * utils/validationUtils.js *)
(* ===================================================================== *)

Module Validation.
Import JsString Js JsValue Regex.

(** [const cpuRegex = /^(\d+(\.\d+)?|\d+)m?$/] of [validatePodInput] and
    [validateDeploymentInput]. *)
Definition cpuRegex : regex :=
  Seq (Alt (Seq (Plus digit) (Opt (Seq (Char ".") (Plus digit)))) (Plus digit))
      (Opt (Char "m")).

(** [const memoryRegex = /^\d+(\.\d+)?(E|P|T|G|M|K|Ei|Pi|Ti|Gi|Mi|Ki)?$/] *)
Definition memoryRegex : regex :=
  Seq (Plus digit)
      (Seq (Opt (Seq (Char ".") (Plus digit)))
           (Opt (OneOf ["E"; "P"; "T"; "G"; "M"; "K";
                        "Ei"; "Pi"; "Ti"; "Gi"; "Mi"; "Ki"]))).

(** [a-z0-9] and [-a-z0-9] *)
Definition is_lower_alnum (c : ascii) : bool := is_lower c || is_digit c.
Definition is_label_char (c : ascii) : bool :=
  Ascii.eqb c "-" || is_lower c || is_digit c.

(** [/^[a-z0-9]([-a-z0-9]*[a-z0-9])?$/] of [validateNamespaceInput]. *)
Definition namespacePattern : regex :=
  Seq (Class is_lower_alnum)
      (Opt (Seq (Star (Class is_label_char)) (Class is_lower_alnum))).

(** [!name || typeof name !== 'string' || !pattern.test(name)] *)
Definition bad_name (name : option json) : bool :=
  match name with
  | Some (JString n) => is_empty n || negb (test namespacePattern n)
  | _ => true
  end.

(** [validateNamespaceInput({ name, quotas })]: the error message, or
    [None] for the source's [null]. *)
Definition validateNamespaceInput (name quotas : option json) : option string :=
  if bad_name name
  then Some ("Invalid namespace name. It must consist of lower case alphanumeric characters or "
             +:+ dq +:+ "-" +:+ dq
             +:+ ", and must start and end with an alphanumeric character.")
  else if truthy_field quotas && negb (is_object quotas)
  then Some "Quotas must be an object of key-value pairs."
  else None.

End Validation.

(* ===================================================================== *)
(** * utils/manifestGenerators.js *)
(* ===================================================================== *)

Module Manifests.
Import JsString Js JsValue Regex.

(** The number arithmetic of the engine: the text of
    [Math.round(parseFloat(v) * 1000)] for a decimal numeral [v]. *)
Class Numbers := { millicores : string -> string }.

Definition memoryUnits : list string :=
  ["Ki"; "Mi"; "Gi"; "Ti"; "Pi"; "E"; "P"; "T"; "G"; "M"; "K"].

(** [/^\d+(\.\d+)?$/], [/^\d+$/] and
    [new RegExp(`^\\d+(${memoryUnits.join('|')})$`)]. *)
Definition decimalPattern : regex :=
  Seq (Plus digit) (Opt (Seq (Char ".") (Plus digit))).
Definition digitsPattern : regex := Plus digit.
Definition unitRegex : regex := Seq (Plus digit) (OneOf memoryUnits).

(** [normalizeResourceValue(value, type)]; [None] is [undefined], both as
    argument and as result. *)
Definition normalizeResourceValue `{Numbers} (value : option string) (type : string)
    : option string :=
  match value with
  | None => None
  | Some value =>
      if is_empty value || is_empty (trim value) then None
      else
        let trimmedValue := trim value in
        if String.eqb type "cpu" then
          if ends_with "m" trimmedValue then Some trimmedValue
          else if test decimalPattern trimmedValue then
            if includes "." trimmedValue
            then Some (millicores trimmedValue +:+ "m")
            else Some trimmedValue
          else None
        else if String.eqb type "memory" then
          if test digitsPattern trimmedValue then Some (trimmedValue +:+ "Mi")
          else if test unitRegex trimmedValue then Some trimmedValue
          else None
        else None
  end.

(** [s.replace(/[^...]/g, '-')] for the class [keep]. *)
Fixpoint replace_other (keep : ascii -> bool) (s : string) : string :=
  match s with
  | EmptyString => EmptyString
  | String c r => String (if keep c then c else "-"%char) (replace_other keep r)
  end.

Definition is_dash (c : ascii) : bool := Ascii.eqb c "-".

Fixpoint strip_leading (s : string) : string :=
  match s with
  | EmptyString => EmptyString
  | String c r => if is_dash c then strip_leading r else s
  end.

Fixpoint strip_trailing (s : string) : string :=
  match s with
  | EmptyString => EmptyString
  | String c r =>
      let r' := strip_trailing r in
      if is_dash c && is_empty r' then EmptyString else String c r'
  end.

(** [s.replace(/^-+|-+$/g, '')]: the run of dashes at the start goes, then
    the run at the end. *)
Definition strip_dashes (s : string) : string := strip_trailing (strip_leading s).

(** [[a-z0-9-]] and [[a-z0-9-.]] (also written [[a-z0-9.-]]). *)
Definition label_char (c : ascii) : bool :=
  is_lower c || is_digit c || Ascii.eqb c "-".
Definition name_char (c : ascii) : bool :=
  is_lower c || is_digit c || Ascii.eqb c "-" || Ascii.eqb c ".".

(** [name.toLowerCase().replace(/[^...]/g, '-').replace(/^-+|-+$/g, '')] *)
Definition sanitize (keep : ascii -> bool) (name : string) : string :=
  strip_dashes (replace_other keep (toLowerCase name)).

(** [generatePVCYaml(pvc, namespace)] *)
Definition generatePVCYaml (name storageSize accessMode : string)
    (storageClassName : option string) (namespace : string) : string :=
  let sanitizedPvcName := sanitize name_char name in
  "apiVersion: v1" +:+ nl
  +:+ "kind: PersistentVolumeClaim" +:+ nl
  +:+ "metadata:" +:+ nl
  +:+ "  name: " +:+ sanitizedPvcName +:+ nl
  +:+ "  namespace: " +:+ namespace +:+ nl
  +:+ "spec:" +:+ nl
  +:+ "  accessModes:" +:+ nl
  +:+ "    - " +:+ accessMode +:+ nl
  +:+ "  resources:" +:+ nl
  +:+ "    requests:" +:+ nl
  +:+ "      storage: " +:+ storageSize
  +:+ match storageClassName with
      | Some c => if JsString.truthy c
                  then nl +:+ "  storageClassName: " +:+ c
                  else EmptyString
      | None => EmptyString
      end.

(** [generateNamespaceYaml(name)] *)
Definition generateNamespaceYaml (name : string) : string :=
  let sanitizedName := sanitize label_char name in
  "apiVersion: v1" +:+ nl
  +:+ "kind: Namespace" +:+ nl
  +:+ "metadata:" +:+ nl
  +:+ "  name: " +:+ sanitizedName +:+ nl.

(** One turn of the loop of [generateResourceQuotaYaml]. *)
Definition quota_line (entry : string * json) : string :=
  if truthy (snd entry)
  then "    " +:+ fst entry +:+ ": " +:+ to_string (snd entry) +:+ nl
  else EmptyString.

Definition hardQuotasYaml (quotas : option json) : string :=
  List.fold_left (fun acc entry => acc +:+ quota_line entry) (for_in quotas)
    EmptyString.

(** [generateResourceQuotaYaml(namespace, quotas)]; [None] is [null]. *)
Definition generateResourceQuotaYaml (namespace : string) (quotas : option json)
    : option string :=
  let sanitizedNamespace := sanitize label_char namespace in
  let hard := hardQuotasYaml quotas in
  if is_empty hard then None
  else Some ("apiVersion: v1" +:+ nl
             +:+ "kind: ResourceQuota" +:+ nl
             +:+ "metadata:" +:+ nl
             +:+ "  name: " +:+ sanitizedNamespace +:+ "-quota" +:+ nl
             +:+ "  namespace: " +:+ sanitizedNamespace +:+ nl
             +:+ "spec:" +:+ nl
             +:+ "  hard:" +:+ nl
             +:+ drop_last hard).

End Manifests.

(* ===================================================================== *)
(** * utils/cache.js *)
(* ===================================================================== *)

Module Cache.
Import Js JsValue.

(** The values a caller passes as [forceRefresh]: a boolean, the query
    string's text, or nothing. *)
Inductive jsflag :=
| FlagUndefined
| FlagBool (b : bool)
| FlagString (s : string).

Definition flag_truthy (f : jsflag) : bool :=
  match f with
  | FlagUndefined => false
  | FlagBool b => b
  | FlagString s => JsString.truthy s
  end.

(** What [setCacheData] stores: [{ data: data, timestamp: Date.now() }].
    The data is what the caller hands in: a JSON value, or [undefined]
    ([None]). *)
Record entry := { data : option json; timestamp : Z }.

(** [const cache = {}]: a plain object.  Its own properties are the
    entries, in creation order.  Its prototype is [Object.prototype]
    ([None]) until an assignment to [cache['__proto__']] reaches the setter
    [Object.prototype] has under that name, which makes the assigned entry
    the prototype of [cache]. *)
Record store := { own : list (string * entry); prototype : option entry }.

Definition empty : store := {| own := []; prototype := None |}.

(** The own properties of [Object.prototype], the accessor [__proto__]
    apart: each holds a function, is writable and is not enumerable. *)
Definition object_prototype_methods : list string :=
  ["constructor"; "__defineGetter__"; "__defineSetter__"; "hasOwnProperty";
   "__lookupGetter__"; "__lookupSetter__"; "isPrototypeOf";
   "propertyIsEnumerable"; "toString"; "valueOf"; "toLocaleString"].

(** What [cache[key]] can evaluate to: [undefined] or a JSON value, a time
    stamp, an entry, [Object.prototype] itself, or one of its methods. *)
Inductive value :=
| Plain (v : option json)
| Stamp (t : Z)
| Entry (e : entry)
| ObjectPrototype
| Builtin (name : string).

Fixpoint get_own (key : string) (properties : list (string * entry)) : option entry :=
  match properties with
  | [] => None
  | (k, e) :: rest => if String.eqb k key then Some e else get_own key rest
  end.

(** [cache.hasOwnProperty(key)], when the method is the builtin. *)
Definition has_own (key : string) (cache : store) : bool :=
  match get_own key (own cache) with Some _ => true | None => false end.

(** [Object.prototype[key]] for a key other than [__proto__]. *)
Definition from_object_prototype (key : string) : value :=
  if existsb (String.eqb key) object_prototype_methods
  then Builtin key
  else Plain None.

(** [cache[key]]: the own property, or else what the prototype chain
    gives.  [__proto__] is the getter of [Object.prototype], which returns
    the prototype of [cache]; an entry that is the prototype lends its
    members [data] and [timestamp]; behind it stands [Object.prototype]. *)
Definition lookup (cache : store) (key : string) : value :=
  match get_own key (own cache) with
  | Some e => Entry e
  | None =>
      if String.eqb key "__proto__"
      then match prototype cache with
           | Some e => Entry e
           | None => ObjectPrototype
           end
      else
        match prototype cache with
        | Some e =>
            if String.eqb key "data" then Plain (data e)
            else if String.eqb key "timestamp" then Stamp (timestamp e)
            else from_object_prototype key
        | None => from_object_prototype key
        end
  end.

(** [if (v)]: [undefined], the falsy JSON values and the number 0 are
    falsy; objects and functions are truthy. *)
Definition truthy_value (v : value) : bool :=
  match v with
  | Plain v => truthy_field v
  | Stamp t => negb (t =? 0)
  | Entry _ | ObjectPrototype | Builtin _ => true
  end.

(** [v.data] on a truthy value: the member of an entry or of a JSON
    object; [undefined] on everything else (strings, numbers, arrays,
    functions and [Object.prototype] have no such member). *)
Definition data_of (v : value) : option json :=
  match v with
  | Entry e => data e
  | Plain (Some d) => get_prop d "data"
  | _ => None
  end.

(** [now - v.timestamp > ttl] on a truthy value.  Where [v] has no
    [timestamp] member the difference is [NaN] and the comparison false;
    where the member is a JSON value the engine's arithmetic decides. *)
Definition expired `{Runtime} (now : Z) (v : value) (ttl : Z) : bool :=
  match v with
  | Entry e => now - timestamp e >? ttl
  | Plain (Some d) =>
      match get_prop d "timestamp" with
      | Some t => older_than now t ttl
      | None => false
      end
  | _ => false
  end.

(** [getCachedData(key, ttl, forceRefresh = false)], with [Date.now()]
    passed in as [now].  The result is [null] ([Some JNull]) or
    [entry.data], which is [undefined] ([None]) where the value found has
    no such member. *)
Definition getCachedData `{Runtime} (cache : store) (now : Z)
    (key : string) (ttl : Z) (forceRefresh : jsflag) : option json :=
  let entry := lookup cache key in
  if negb (truthy_value entry) || flag_truthy forceRefresh || expired now entry ttl
  then Some JNull
  else data_of entry.

(** An assignment to an own property: an existing one keeps its place, a
    new one goes last. *)
Fixpoint set_own (key : string) (e : entry) (properties : list (string * entry))
    : list (string * entry) :=
  match properties with
  | [] => [(key, e)]
  | (k, e') :: rest =>
      if String.eqb k key then (k, e) :: rest else (k, e') :: set_own key e rest
  end.

(** [setCacheData(key, data)], with [Date.now()] passed in as [now]:
    [cache[key] = { data, timestamp }].  With no own property of that name
    the assignment consults the prototype chain, where [__proto__] is a
    setter: it replaces the prototype and creates no property.  Every
    other name becomes (or stays) an own property. *)
Definition setCacheData (cache : store) (now : Z) (key : string) (d : option json)
    : store :=
  let e := {| data := d; timestamp := now |} in
  if negb (has_own key cache) && String.eqb key "__proto__"
  then {| own := own cache; prototype := Some e |}
  else {| own := set_own key e (own cache); prototype := prototype cache |}.

Definition remove_own (key : string) (properties : list (string * entry))
    : list (string * entry) :=
  List.filter (fun p => negb (String.eqb (fst p) key)) properties.

(** [clearCacheItem(key)]: [delete cache[key]] removes an own property and
    nothing else. *)
Definition clearCacheItem (cache : store) (key : string) : store :=
  {| own := remove_own key (own cache); prototype := prototype cache |}.

(** The keys [for (const key in cache)] visits: the own keys, then the
    enumerable keys of the prototype chain that no own key hides, which
    are [data] and [timestamp] of an entry that is the prototype. *)
Definition visited (cache : store) : list string :=
  let own_keys := List.map fst (own cache) in
  (enumeration_order own_keys
   ++ match prototype cache with
      | Some _ =>
          List.filter (fun k => negb (existsb (String.eqb k) own_keys))
            ["data"; "timestamp"]
      | None => []
      end)%list.

(** The loop of [clearAllCache] over the keys left to visit.  Each turn
    calls what [cache.hasOwnProperty] is at that moment: the builtin, or
    an entry stored under that name, and calling an entry throws. *)
Fixpoint clear_each (keys : list string) (cache : store) : store * option type_error :=
  match keys with
  | [] => (cache, None)
  | key :: rest =>
      match lookup cache "hasOwnProperty" with
      | Builtin _ =>
          clear_each rest (if has_own key cache then clearCacheItem cache key else cache)
      | _ => (cache, Some (NotAFunction "cache.hasOwnProperty"))
      end
  end.

(** [clearAllCache()]: the cache afterwards, and the [TypeError] if the
    loop threw. *)
Definition clearAllCache (cache : store) : store * option type_error :=
  clear_each (visited cache) cache.

End Cache.

(* ===================================================================== *)
(** * routes/kubernetesRoutes.js: a cached read and a validated write *)
(* ===================================================================== *)

Module Routes.
Import JsString Js JsValue KubectlUtils Validation Manifests.

(** [res.status(n).json(...)]: a value, [{ message }], or [{ error }] with
    or without [details]. *)
Inductive reply :=
| Value (status : Z) (value : json)
| Said (status : Z) (message : string)
| Problem (status : Z) (error : string) (details : option string).

Definition status_of (r : reply) : Z :=
  match r with
  | Value n _ | Said n _ | Problem n _ _ => n
  end.

(** [handleKubectlError(err, resourceName, action, response)] of
    utils/kubectlUtils.js, [err] given by its message: the message it
    returns, and what it sends when it is handed a response. *)
Definition handleKubectlError (err resourceName action : string) (response : bool)
    : string * option reply :=
  let errorMessage := or_else err "Unknown error" in
  let safeMessage :=
    "Failed to " +:+ action +:+ " "
    +:+ (if JsString.truthy resourceName then "'" +:+ resourceName +:+ "'" else EmptyString)
    +:+ ": " +:+ errorMessage in
  (safeMessage,
   if response then Some (Problem 500 safeMessage (Some errorMessage)) else None).

(** A child process as the environment plays it: its chunks and its end. *)
Definition child : Type := list (stream * string) * exit_event.

(** [await execPromise(command, { input })] on a played child. *)
Definition awaited (command : string) (c : child) : outcome string :=
  execPromise command (fst c) (snd c).

(** What a handler did: its answer, the cache afterwards and the children
    it spawned, oldest first. *)
Record handled := {
  answer : option reply;
  cache_after : Cache.store;
  ran : list spawn_record
}.

(** [CACHE_TTLS.EKS_CLUSTERS] *)
Definition EKS_CLUSTERS_TTL : Z := 60 * 1000.

(** A query parameter given once is a string; [None] when it is absent. *)
Definition present (v : option string) : bool :=
  match v with Some s => JsString.truthy s | None => false end.

Definition text_of (v : option string) : string :=
  match v with Some s => s | None => "undefined" end.

Definition flag_of (v : option string) : Cache.jsflag :=
  match v with Some s => Cache.FlagString s | None => Cache.FlagUndefined end.

Definition details_key (clusterName region : string) : string :=
  "eks-cluster-details-" +:+ clusterName +:+ "-" +:+ region.

Definition details_command (clusterName region : string) : string :=
  "aws eks describe-cluster --name " +:+ clusterName +:+ " --region " +:+ region.

(** The handler of [/eks-cluster-details] from the command on, after the
    cache gave nothing. *)
Definition fetch_details `{Runtime} (clusterName region : string)
    (cache : Cache.store) (c : child) (later : Z) : handled :=
  let cacheKey := details_key clusterName region in
  let command := details_command clusterName region in
  let failed (message : string) :=
    {| answer := snd (handleKubectlError message clusterName "get cluster details" true);
       cache_after := cache;
       ran := [spawn_of_command command None] |} in
  match awaited command c with
  | Thrown message => failed message
  | Returned stdout =>
      match parseAndHandleJson stdout
              ("aws eks describe-cluster " +:+ clusterName +:+ " output") with
      | Thrown message => failed message
      | Returned details =>
          {| answer := Some (Value 200 details);
             cache_after := Cache.setCacheData cache later cacheKey (Some details);
             ran := [spawn_of_command command None] |}
      end
  end.

(** [router.get("/eks-cluster-details", ...)]: the query's [clusterName],
    [region] and [forceRefresh], the cache, [Date.now()] when the cache is
    read ([now]) and when it is written ([later]), and the child the
    command runs as. *)
Definition eks_cluster_details `{Runtime}
    (clusterName region forceRefresh : option string)
    (cache : Cache.store) (now : Z) (c : child) (later : Z)
    : handled :=
  if negb (present clusterName) || negb (present region)
  then {| answer := Some (Problem 400 "Cluster name and region are required to get details." None);
          cache_after := cache; ran := [] |}
  else
    let clusterName := text_of clusterName in
    let region := text_of region in
    let cachedData :=
      Cache.getCachedData cache now (details_key clusterName region)
        EKS_CLUSTERS_TTL (flag_of forceRefresh) in
    match cachedData with
    | Some d =>
        if truthy d
        then {| answer := Some (Value 200 d); cache_after := cache; ran := [] |}
        else fetch_details clusterName region cache c later
    | None => fetch_details clusterName region cache c later
    end.

Definition apply_command : string := "kubectl apply -f -".

(** [router.post('/kube-create-namespace', ...)]: the body's [name] and
    [quotas] and the children the two [kubectl apply] run as; the answer
    and the children spawned, each with the manifest on its stdin. *)
Definition kube_create_namespace (name quotas : option json) (first second : child)
    : option reply * list spawn_record :=
  match validateNamespaceInput name quotas, name with
  | Some validationError, _ => (Some (Problem 400 validationError None), [])
  | None, Some (JString n) =>
      let failed (message : string) :=
        snd (handleKubectlError message n "create namespace or resource quota" true) in
      let namespaceManifest := generateNamespaceYaml n in
      let applied := [spawn_of_command apply_command (Some namespaceManifest)] in
      match awaited apply_command first with
      | Thrown message => (failed message, applied)
      | Returned _ =>
          let without_quota :=
            (Some (Said 201 ("Namespace '" +:+ n
                             +:+ "' created successfully without a ResourceQuota.")),
             applied) in
          match generateResourceQuotaYaml n quotas with
          | Some resourceQuotaManifest =>
              if JsString.truthy resourceQuotaManifest
              then
                let applied :=
                  (applied
                   ++ [spawn_of_command apply_command (Some resourceQuotaManifest)])%list in
                match awaited apply_command second with
                | Thrown message => (failed message, applied)
                | Returned _ =>
                    (Some (Said 201 ("Namespace '" +:+ n
                                     +:+ "' and its ResourceQuota created successfully.")),
                     applied)
                end
              else without_quota
          | None => without_quota
          end
      end
  | None, _ => (None, [])
  end.

End Routes.

(* ===================================================================== *)
(** * Example inputs *)
(* ===================================================================== *)

Module Examples.
Import JsString Js KubectlUtils EksConfig WsHandlers.

Definition quoted (s : string) : string := dq +:+ s +:+ dq.

(** [warning: cache miss\n{"a":1}\n] and the JSON text inside it. *)
Definition cache_miss_json : string := "{" +:+ quoted "a" +:+ ":1}".

Definition cache_miss_output : string :=
  "warning: cache miss" +:+ nl +:+ cache_miss_json +:+ nl.

(** One entry of [EvaluationResults], as text and as value. *)
Definition evaluation_text (action decision : string) : string :=
  "{" +:+ quoted "EvalActionName" +:+ ":" +:+ quoted action +:+ ","
  +:+ quoted "EvalDecision" +:+ ":" +:+ quoted decision +:+ "}".

Definition evaluation (action decision : string) : json :=
  JObject [("EvalActionName", JString action); ("EvalDecision", JString decision)].

Definition simulation_text (entries : list (string * string)) : string :=
  "{" +:+ quoted "EvaluationResults" +:+ ":["
  +:+ join "," (List.map (fun e => evaluation_text (fst e) (snd e)) entries) +:+ "]}".

Definition simulation (entries : list (string * string)) : json :=
  JObject [("EvaluationResults",
            JArray (List.map (fun e => evaluation (fst e) (snd e)) entries))].

(** Scenario A: [iam:CreateRole] is explicitly denied. *)
Definition create_role_denied : list (string * string) :=
  [("iam:CreateRole", "explicitDeny"); ("iam:AttachRolePolicy", "allowed");
   ("iam:PutRolePolicy", "allowed"); ("iam:CreateServiceLinkedRole", "allowed")].

Definition all_allowed : list (string * string) :=
  List.map (fun a => (a, "allowed")) requiredPermissions.

(** A runtime for the examples: [JSON.parse] on the three documents above
    (a [SyntaxError] on any other text), V8's wording for [TypeError]s,
    and the age of a whole-number time stamp. *)
Definition example_documents : list (string * json) :=
  [(cache_miss_json, JObject [("a", JNumber "1")]);
   (simulation_text create_role_denied, simulation create_role_denied);
   (simulation_text all_allowed, simulation all_allowed)].

Fixpoint lookup_document (text : string) (docs : list (string * json)) : outcome json :=
  match docs with
  | [] => Thrown "Unexpected token in JSON at position 0"
  | (t, v) :: rest => if String.eqb t text then Returned v else lookup_document text rest
  end.

Definition example_runtime : Runtime :=
  {| JSON_parse := fun text => lookup_document text example_documents;
     type_error_message := fun e =>
       match e with
       | ReadOfNull prop => "Cannot read properties of null (reading '" +:+ prop +:+ "')"
       | ReadOfUndefined prop =>
           "Cannot read properties of undefined (reading '" +:+ prop +:+ "')"
       | NotAFunction name => name +:+ " is not a function"
       end;
     older_than := fun now t ttl =>
       match t with
       | JNumber text =>
           JsValue.all_digits text && negb (is_empty text)
           && (now - Z.of_N (JsValue.decimal_value 0 text) >? ttl)
       | _ => false
       end |}.

(** A create request whose cluster name has capitals and a space. *)
Definition my_cluster : payload :=
  {| clusterName := "My Cluster"; region := "us-east-1";
     kubernetesVersion := "1.29"; nodeGroupName := "workers";
     instanceType := "t3.medium"; desiredCapacity := 2; minNodes := 1;
     maxNodes := 3; volumeSize := 20; volumeType := "gp3";
     enableSsh := false; sshKeyName := EmptyString;
     enableEbsCsiAccess := true; enableEfsCsiAccess := false;
     albIngressAccess := false |}.

Definition caller_arn : string := "arn:aws:iam::123456789012:user/operator".

End Examples.

(* ===================================================================== *)
(** * Facts about the string primitives *)
(* ===================================================================== *)

Module JsStringFacts.
Import JsString.
Local Arguments String.append !_ _ / : simpl nomatch.

Lemma append_nil_r (s : string) : s +:+ EmptyString = s.
Proof. induction s as [|c s IH]; simpl; [reflexivity | now rewrite IH]. Qed.

Lemma append_assoc (a b c : string) : (a +:+ b) +:+ c = a +:+ (b +:+ c).
Proof. induction a as [|x a IH]; simpl; [reflexivity | now rewrite IH]. Qed.

Lemma is_empty_true (s : string) : is_empty s = true <-> s = EmptyString.
Proof. destruct s; simpl; split; congruence. Qed.

Lemma is_empty_app (a b : string) :
  is_empty (a +:+ b) = is_empty a && is_empty b.
Proof. destruct a; reflexivity. Qed.

(** A text that ends in something [trimEnd] keeps is kept whole. *)
Lemma trimEnd_app_kept (a b : string) :
  trimEnd b = b -> b <> EmptyString -> trimEnd (a +:+ b) = a +:+ b.
Proof.
  intros Hb Hne. induction a as [|c a IH]; simpl; [exact Hb|].
  rewrite IH.
  destruct (is_empty (a +:+ b)) eqn:E.
  - rewrite is_empty_app in E. apply andb_prop in E as [_ E].
    apply is_empty_true in E. contradiction.
  - now rewrite andb_false_r.
Qed.

Fixpoint no_whitespace (s : string) : bool :=
  match s with
  | EmptyString => true
  | String c r => negb (is_whitespace c) && no_whitespace r
  end.

Lemma no_whitespace_app (a b : string) :
  no_whitespace (a +:+ b) = no_whitespace a && no_whitespace b.
Proof.
  induction a as [|c a IH]; simpl; [reflexivity|].
  now rewrite IH, andb_assoc.
Qed.

Lemma trimEnd_no_whitespace (s : string) :
  no_whitespace s = true -> trimEnd s = s.
Proof.
  induction s as [|c s IH]; simpl; [reflexivity|].
  intros H. apply andb_prop in H as [Hc Hs].
  rewrite (IH Hs). apply negb_true_iff in Hc. now rewrite Hc.
Qed.

Lemma uint_no_whitespace (d : Decimal.uint) :
  no_whitespace (NilEmpty.string_of_uint d) = true.
Proof. induction d; simpl; auto. Qed.

Lemma of_Z_no_whitespace (n : Z) : no_whitespace (of_Z n) = true.
Proof.
  unfold of_Z, NilZero.string_of_int, NilZero.string_of_uint.
  destruct (Z.to_int n) as [d|d]; destruct d; simpl;
    auto using uint_no_whitespace.
Qed.

Lemma of_Z_not_empty (n : Z) : of_Z n <> EmptyString.
Proof.
  unfold of_Z, NilZero.string_of_int, NilZero.string_of_uint.
  destruct (Z.to_int n) as [d|d]; destruct d; simpl; discriminate.
Qed.

Lemma truthy_false (s : string) : truthy s = false <-> s = EmptyString.
Proof. destruct s; unfold truthy; simpl; split; congruence. Qed.

End JsStringFacts.

(* ===================================================================== *)
(** * Facts about the socket *)
(* ===================================================================== *)

Module WsFacts.
Import Ws.

Lemma send_open (f : frame) (sock : socket) :
  is_open sock = true ->
  is_open (send f sock) = true /\ sent (send f sock) = (sent sock ++ [f])%list.
Proof.
  intros H. unfold send. rewrite H. split; [exact H | reflexivity].
Qed.

Lemma send_not_open (f : frame) (sock : socket) :
  is_open sock = false -> send f sock = sock.
Proof. intros H. unfold send. now rewrite H. Qed.

Lemma send_if_open_send (f : frame) (sock : socket) :
  send_if_open f sock = send f sock.
Proof. unfold send_if_open, send. now destruct (is_open sock). Qed.

Lemma close_not_open (sock : socket) : is_open (close sock) = false.
Proof. unfold close. destruct (is_open sock) eqn:E; [reflexivity | exact E]. Qed.

Lemma close_sent (sock : socket) : sent (close sock) = sent sock.
Proof. unfold close. now destruct (is_open sock). Qed.

End WsFacts.

(* ===================================================================== *)
(** * The response cache *)
(* ===================================================================== *)

Module CacheSpec.
Import Js JsValue Cache.

(** ** The own properties *)

Lemma get_own_set_same (key : string) (e : entry) (l : list (string * entry)) :
  get_own key (set_own key e l) = Some e.
Proof.
  induction l as [|[k e'] l IH]; cbn [set_own get_own].
  - now rewrite String.eqb_refl.
  - destruct (String.eqb k key) eqn:E; cbn [get_own]; rewrite E; auto.
Qed.

Lemma get_own_set_other (key other : string) (e : entry) (l : list (string * entry)) :
  other <> key -> get_own other (set_own key e l) = get_own other l.
Proof.
  intros Hne. induction l as [|[k e'] l IH]; cbn [set_own get_own].
  - destruct (String.eqb_spec key other); [congruence | reflexivity].
  - destruct (String.eqb_spec k key) as [->|Hk]; cbn [get_own].
    + destruct (String.eqb_spec key other); [congruence | reflexivity].
    + now rewrite IH.
Qed.

Lemma get_own_remove_same (key : string) (l : list (string * entry)) :
  get_own key (remove_own key l) = None.
Proof.
  induction l as [|[k e] l IH]; [reflexivity|]. unfold remove_own in *.
  cbn [List.filter fst]. destruct (String.eqb k key) eqn:E; cbn [negb]; [exact IH|].
  cbn [get_own]. now rewrite E.
Qed.

Lemma get_own_remove_other (key other : string) (l : list (string * entry)) :
  other <> key -> get_own other (remove_own key l) = get_own other l.
Proof.
  intros Hne. induction l as [|[k e] l IH]; [reflexivity|]. unfold remove_own in *.
  cbn [List.filter fst get_own].
  destruct (String.eqb_spec k key) as [->|Hk]; cbn [negb get_own].
  - rewrite IH. destruct (String.eqb_spec key other); [congruence | reflexivity].
  - now rewrite IH.
Qed.

(** ** Reading *)

Lemma lookup_own (cache : store) (key : string) (e : entry) :
  get_own key (own cache) = Some e -> lookup cache key = Entry e.
Proof. intros Hown. unfold lookup. now rewrite Hown. Qed.

(** A key that is read as an entry: what is served depends on the flag and
    on the entry's age alone. *)
Lemma get_entry `{Runtime} (cache : store) (now : Z) (key : string) (ttl : Z)
    (forceRefresh : jsflag) (e : entry) :
  lookup cache key = Entry e ->
  getCachedData cache now key ttl forceRefresh
  = if flag_truthy forceRefresh || (now - timestamp e >? ttl)
    then Some JNull else data e.
Proof. intros Hl. unfold getCachedData. now rewrite Hl. Qed.

Lemma get_forced `{Runtime} (cache : store) (now : Z) (key : string) (ttl : Z)
    (forceRefresh : jsflag) :
  flag_truthy forceRefresh = true ->
  getCachedData cache now key ttl forceRefresh = Some JNull.
Proof.
  intros Hf. unfold getCachedData. rewrite Hf.
  now destruct (truthy_value (lookup cache key)).
Qed.

(** Under every name but [__proto__] the assignment makes an own property,
    which is what the next read finds. *)
Lemma lookup_set_same (cache : store) (now : Z) (key : string) (d : option json) :
  key <> "__proto__" ->
  lookup (setCacheData cache now key d) key = Entry {| data := d; timestamp := now |}.
Proof.
  intros Hkey. apply lookup_own. unfold setCacheData.
  destruct (String.eqb_spec key "__proto__"); [congruence|].
  rewrite andb_false_r. cbn [own]. apply get_own_set_same.
Qed.

(** What a cache with no entry under [key] and the original prototype
    gives: [null], or [undefined] where the key names a member of
    [Object.prototype]; never data. *)
Lemma nothing_inherited `{Runtime} (cache : store) (now : Z) (key : string) (ttl : Z)
    (forceRefresh : jsflag) :
  get_own key (own cache) = None ->
  prototype cache = None \/ ~ List.In key ["__proto__"; "data"; "timestamp"] ->
  truthy_field (getCachedData cache now key ttl forceRefresh) = false.
Proof.
  intros Hown Hplain. unfold getCachedData, lookup. rewrite Hown.
  assert (Hobj : truthy_field
                   (if negb (truthy_value (from_object_prototype key))
                       || flag_truthy forceRefresh
                       || expired now (from_object_prototype key) ttl
                    then Some JNull else data_of (from_object_prototype key)) = false).
  { unfold from_object_prototype.
    destruct (existsb (String.eqb key) object_prototype_methods); cbn;
      now destruct (flag_truthy forceRefresh). }
  destruct (String.eqb_spec key "__proto__") as [->|Hproto].
  - destruct Hplain as [-> | Hnot]; [|destruct Hnot; cbn; auto].
    cbn. now destruct (flag_truthy forceRefresh).
  - destruct (prototype cache) as [e|]; [|exact Hobj].
    destruct Hplain as [Hnone | Hnot]; [discriminate|].
    destruct (String.eqb_spec key "data") as [->|Hdata]; [destruct Hnot; cbn; auto|].
    destruct (String.eqb_spec key "timestamp") as [->|Hstamp]; [destruct Hnot; cbn; auto|].
    exact Hobj.
Qed.


End CacheSpec.

(* ===================================================================== *)
(** * The command executor *)
(* ===================================================================== *)

Module KubectlUtilsSpec.
Import JsString Js KubectlUtils JsStringFacts.
Local Arguments String.append !_ _ / : simpl nomatch.

(** ** execPromise *)

(** Everything the child wrote on one stream, in order. *)
Fixpoint collected (from : stream) (chunks : list (stream * string)) : string :=
  match chunks with
  | [] => EmptyString
  | (StdoutStream, data) :: rest =>
      match from with
      | StdoutStream => data +:+ collected from rest
      | StderrStream => collected from rest
      end
  | (StderrStream, data) :: rest =>
      match from with
      | StdoutStream => collected from rest
      | StderrStream => data +:+ collected from rest
      end
  end.

Lemma accumulate_from (chunks : list (stream * string)) (b : buffers) :
  let b' := fold_left (fun b c => accumulate b (fst c) (snd c)) chunks b in
  stdoutBuffer b' = stdoutBuffer b +:+ collected StdoutStream chunks
  /\ stderrBuffer b' = stderrBuffer b +:+ collected StderrStream chunks.
Proof.
  revert b. induction chunks as [|[from data] rest IH]; intros b; simpl.
  - now rewrite !append_nil_r.
  - destruct (IH (accumulate b from data)) as [Ho He].
    rewrite Ho, He. destruct from; simpl; now rewrite ?append_assoc.
Qed.

Lemma accumulate_all_collected (chunks : list (stream * string)) :
  stdoutBuffer (accumulate_all chunks) = collected StdoutStream chunks
  /\ stderrBuffer (accumulate_all chunks) = collected StderrStream chunks.
Proof. exact (accumulate_from chunks no_output). Qed.

Lemma code_text_kept (code : option Z) :
  trimEnd (code_text code) = code_text code /\ code_text code <> EmptyString.
Proof.
  destruct code as [n|]; simpl.
  - split; [apply trimEnd_no_whitespace, of_Z_no_whitespace | apply of_Z_not_empty].
  - split; [reflexivity | discriminate].
Qed.

Lemma trim_generic_message (code : option Z) :
  trim ("Command exited with code " +:+ code_text code)
  = "Command exited with code " +:+ code_text code.
Proof.
  unfold trim.
  change (trimStart ("Command exited with code " +:+ code_text code))
    with ("Command exited with code " +:+ code_text code).
  destruct (code_text_kept code) as [Hk Hne].
  now apply trimEnd_app_kept.
Qed.

(** C7. [execPromise] resolves with the trimmed stdout when the child
    exits with code 0; otherwise it rejects with the trimmed stderr, with
    the trimmed stdout when stderr is empty, and with
    ["Command exited with code N"] when both are empty. *)
Theorem execPromise_settles (command : string) (chunks : list (stream * string))
    (code : option Z) :
  let out := collected StdoutStream chunks in
  let err := collected StderrStream chunks in
  execPromise command chunks (Closed code) =
    if is_zero code then Returned (trim out)
    else if truthy err then Thrown (trim err)
    else if truthy out then Thrown (trim out)
    else Thrown ("Command exited with code " +:+ code_text code).
Proof.
  intros out err. unfold execPromise, execPromise_exit, or_else.
  destruct (accumulate_all_collected chunks) as [-> ->].
  fold out err.
  destruct (is_zero code); [reflexivity|].
  destruct (truthy err); [reflexivity|].
  destruct (truthy out); [reflexivity|].
  now rewrite trim_generic_message.
Qed.

(** ** executeCommandWithRetry *)

(** An attempt that does not succeed: its child does not close with 0. *)
Definition fails (a : attempt) : Prop :=
  match ending a with
  | Closed code => is_zero code = false
  | SpawnFailed _ => True
  end.

(** The client stays for the whole attempt. *)
Definition peer_stays (a : attempt) : Prop :=
  Forall (fun e => e <> PeerGone) (during a).

(** The log frames [executeCommand] streams during an attempt. *)
Definition streamed (a : attempt) : list Ws.frame :=
  flat_map (fun e => match e with
                     | Chunk from data => [stream_frame from data]
                     | PeerGone => []
                     end) (during a).

Lemma fails_not_success (b : buffers) (a : attempt) :
  fails a -> success (executeCommand_exit b (ending a)) = false.
Proof.
  unfold fails, executeCommand_exit. destruct (ending a) as [code|m]; [|reflexivity].
  now intros ->.
Qed.

Lemma stream_open (events : list env_event) (b : buffers) (sock : Ws.socket) :
  Ws.is_open sock = true ->
  Forall (fun e => e <> PeerGone) events ->
  let st := fold_left on_env_event events (b, sock) in
  Ws.is_open (snd st) = true
  /\ Ws.sent (snd st) = (Ws.sent sock ++
       flat_map (fun e => match e with
                          | Chunk from data => [stream_frame from data]
                          | PeerGone => []
                          end) events)%list.
Proof.
  revert b sock. induction events as [|e events IH]; intros b sock Hopen Hall; simpl.
  - now rewrite app_nil_r.
  - inversion Hall as [|? ? He Hrest]; subst.
    destruct e as [from data|]; [|congruence].
    assert (Hstep : on_env_event (b, sock) (Chunk from data)
                    = (accumulate b from data,
                       {| Ws.readyState := Ws.readyState sock;
                          Ws.sent := Ws.sent sock ++ [stream_frame from data] |})).
    { unfold on_env_event, executeCommand_data, Ws.send_if_open, Ws.send.
      cbn [fst snd]. now rewrite Hopen. }
    rewrite Hstep.
    destruct (IH (accumulate b from data)
                {| Ws.readyState := Ws.readyState sock;
                   Ws.sent := Ws.sent sock ++ [stream_frame from data] |})
      as [Ho Hs]; [exact Hopen | exact Hrest |].
    split; [exact Ho|]. rewrite Hs. cbn [Ws.sent]. now rewrite <- app_assoc.
Qed.

(** The attempt numbers [i, i+1, ..., i+n-1]. *)
Definition attempts_from (i : Z) (n : nat) : list Z :=
  List.map (fun k => i + Z.of_nat k) (seq 0 n).

Lemma attempts_from_S (i : Z) (n : nat) :
  attempts_from i (S n) = i :: attempts_from (i + 1) n.
Proof.
  unfold attempts_from. simpl. f_equal; [lia|].
  rewrite <- seq_shift, List.map_map. apply List.map_ext. intros k. lia.
Qed.

Lemma retry_from_all_fail (command : string) (retries delay : Z)
    (input : option string) (env : Z -> attempt) :
  forall (todo : nat) (i : Z) (w : world),
    Ws.is_open (ws w) = true ->
    (forall j, i <= j < i + Z.of_nat todo -> fails (env j) /\ peer_stays (env j)) ->
    let r := retry_from todo i command retries delay input env w in
    fst r = Failed ("Command failed after " +:+ of_Z retries +:+ " attempts: " +:+ command)
    /\ spawned (snd r) = (spawned w ++ repeat (spawn_of_command command input) todo)%list
    /\ slept (snd r) = (slept w ++ repeat delay todo)%list
    /\ Ws.sent (ws (snd r)) = (Ws.sent (ws w) ++
         flat_map (fun j => streamed (env j) ++ [retry_notice j retries command])
                  (attempts_from i todo))%list.
Proof.
  induction todo as [|todo IH]; intros i w Hopen Henv.
  - simpl. now rewrite !app_nil_r.
  - rewrite attempts_from_S.
    destruct (Henv i ltac:(lia)) as [Hf Hp].
    destruct (stream_open (during (env i)) no_output (ws w) Hopen Hp) as [Ho Hs].
    cbn [retry_from executeCommand].
    rewrite (fails_not_success _ _ Hf).
    cbn [ws spawned slept].
    set (sock1 := snd (fold_left on_env_event (during (env i)) (no_output, ws w))) in *.
    destruct (WsFacts.send_open (retry_notice i retries command) sock1 Ho)
      as [Ho2 Hs2].
    rewrite <- WsFacts.send_if_open_send in Ho2, Hs2.
    match goal with
    | |- context [retry_from todo (i + 1) command retries delay input env ?w2] =>
        destruct (IH (i + 1) w2) as (Hr & Hsp & Hsl & Hse);
        [exact Ho2 | intros j Hj; apply Henv; lia |]
    end.
    cbn [ws spawned slept] in Hsp, Hsl, Hse.
    rewrite Hr, Hsp, Hsl, Hse, Hs2, Hs. fold (streamed (env i)).
    repeat split; cbn [repeat flat_map]; rewrite <- ?app_assoc; reflexivity.
Qed.

(** The parts of C3 that hold: the command is run at most [retries] times,
    and a failure is returned only after [retries] runs. *)
Lemma retry_from_bound (command : string) (retries delay : Z)
    (input : option string) (env : Z -> attempt) :
  forall (todo : nat) (i : Z) (w : world),
    let r := retry_from todo i command retries delay input env w in
    (List.length (spawned (snd r)) <= List.length (spawned w) + todo)%nat
    /\ (success (fst r) = false ->
        List.length (spawned (snd r)) = (List.length (spawned w) + todo)%nat).
Proof.
  induction todo as [|todo IH]; intros i w; cbn zeta.
  - cbn. split; [lia | intros _; lia].
  - cbn [retry_from executeCommand].
    destruct (success (executeCommand_exit _ (ending (env i)))) eqn:E.
    + cbn [fst snd spawned]. rewrite List.length_app. cbn [List.length].
      split; [lia | congruence].
    + match goal with
      | |- context [retry_from todo (i + 1) command retries delay input env ?w2] =>
          set (next := w2);
          assert (Hnext : List.length (spawned next) = S (List.length (spawned w)))
            by (cbn; rewrite List.length_app; cbn; lia);
          destruct (IH (i + 1) next) as [Hle Heq]
      end.
      rewrite Hnext in Hle, Heq.
      split; [lia | intros Hf; rewrite (Heq Hf); lia].
Qed.

Lemma retry_runs_at_most_retries (command : string) (retries delay : Z)
    (input : option string) (env : Z -> attempt) (sock : Ws.socket) :
  let r := executeCommandWithRetry command retries delay input env (start_world sock) in
  (List.length (spawned (snd r)) <= Z.to_nat retries)%nat
  /\ (success (fst r) = false -> List.length (spawned (snd r)) = Z.to_nat retries).
Proof.
  exact (retry_from_bound command retries delay input env (Z.to_nat retries) 0
           (start_world sock)).
Qed.

(** C3 (the code's behaviour). When every attempt fails and the client
    stays, [executeCommandWithRetry] runs the command [retries] times and
    only then returns the failure; but it sends a retry notice and sleeps
    [delay] after every failed attempt, the last one included: [retries]
    notices and [retries] sleeps, where the notice after the last attempt
    announces a retry that never runs. *)
Theorem retry_notice_and_sleep_after_every_attempt (command : string)
    (retries delay : Z) (input : option string) (env : Z -> attempt)
    (sock : Ws.socket) :
  Ws.is_open sock = true ->
  (forall j, 0 <= j < retries -> fails (env j) /\ peer_stays (env j)) ->
  let r := executeCommandWithRetry command retries delay input env (start_world sock) in
  fst r = Failed ("Command failed after " +:+ of_Z retries +:+ " attempts: " +:+ command)
  /\ spawned (snd r) = repeat (spawn_of_command command input) (Z.to_nat retries)
  /\ slept (snd r) = repeat delay (Z.to_nat retries)
  /\ Ws.sent (ws (snd r)) = (Ws.sent sock ++
       flat_map (fun j => streamed (env j) ++ [retry_notice j retries command])
                (attempts_from 0 (Z.to_nat retries)))%list.
Proof.
  intros Hopen Henv. unfold executeCommandWithRetry.
  apply (retry_from_all_fail command retries delay input env
           (Z.to_nat retries) 0 (start_world sock) Hopen).
  intros j Hj. apply Henv. lia.
Qed.

Definition always_refused (i : Z) : attempt :=
  {| during := [Chunk StderrStream "connection refused"];
     ending := Closed (Some 1) |}.

Lemma retry_notice_and_sleep_after_every_attempt_witness :
  Ws.is_open Ws.fresh = true
  /\ (forall j, 0 <= j < 1 -> fails (always_refused j) /\ peer_stays (always_refused j))
  /\ (let r := executeCommandWithRetry "kubectl get nodes" 1 15000 None
                  always_refused (start_world Ws.fresh) in
      fst r = Failed "Command failed after 1 attempts: kubectl get nodes"
      /\ List.length (spawned (snd r)) = 1%nat
      /\ slept (snd r) = [15000]
      /\ Ws.sent (ws (snd r))
         = [Ws.Log (red "connection refused");
            Ws.Log (yellow "Retrying command (attempt 1/1): kubectl get nodes" +:+ nl)]).
Proof.
  assert (Henv : forall j, 0 <= j < 1 ->
                           fails (always_refused j) /\ peer_stays (always_refused j)).
  { intros j _. split; [reflexivity|]. repeat constructor. discriminate. }
  split; [reflexivity|]. split; [exact Henv|].
  destruct (retry_notice_and_sleep_after_every_attempt "kubectl get nodes" 1 15000
              None always_refused Ws.fresh eq_refl Henv) as (Hr & Hsp & Hsl & Hse).
  cbn zeta. split; [exact Hr|]. split; [now rewrite Hsp|].
  split; [exact Hsl | exact Hse].
Defined.

End KubectlUtilsSpec.

(* ===================================================================== *)
(** * The tolerant JSON extraction *)
(* ===================================================================== *)

Module JsonExtraction.
Import JsString Js KubectlUtils JsStringFacts Examples.
Local Arguments String.append !_ _ / : simpl nomatch.

Fixpoint has_char (c : ascii) (s : string) : bool :=
  match s with
  | EmptyString => false
  | String a r => Ascii.eqb a c || has_char c r
  end.

(** The code unit [a], followed by [rest], opens a bracketed substring: it
    is a brace or a bracket and its closing partner occurs in [rest]. *)
Definition opens (a : ascii) (rest : string) : bool :=
  (Ascii.eqb a "{" && has_char "}" rest) || (Ascii.eqb a "[" && has_char "]" rest).

Definition bracket_pair (o c : ascii) : Prop :=
  (o = "{"%char /\ c = "}"%char) \/ (o = "["%char /\ c = "]"%char).

(** The claim's words: [m] is the substring of [s] from the first brace or
    bracket that has a closing partner after it, through the last such
    partner; [pre] and [post] are the noise around it. *)
Definition is_extraction (s m : string) : Prop :=
  exists pre o c mid post,
    s = pre +:+ m +:+ post
    /\ m = String o (mid +:+ String c EmptyString)
    /\ bracket_pair o c
    /\ has_char c post = false
    /\ (forall p1 a p2, pre = p1 +:+ String a p2 ->
                        opens a (p2 +:+ m +:+ post) = false).

Lemma greedy_until_None (c : ascii) (s : string) :
  greedy_until c s = None <-> has_char c s = false.
Proof.
  induction s as [|a r IH]; simpl; [tauto|].
  destruct (greedy_until c r) as [m|].
  - split; [discriminate|]. intros H. apply orb_false_elim in H as [_ H].
    apply IH in H. discriminate.
  - destruct (Ascii.eqb a c); simpl; [split; discriminate|].
    split; intros _; [now apply IH | reflexivity].
Qed.

Lemma greedy_until_Some (c : ascii) (s m : string) :
  greedy_until c s = Some m <->
  exists mid post, s = (mid +:+ String c EmptyString) +:+ post
                   /\ m = mid +:+ String c EmptyString
                   /\ has_char c post = false.
Proof.
  split.
  - revert m. induction s as [|a r IH]; simpl; [discriminate|]. intros m.
    destruct (greedy_until c r) as [m'|] eqn:E.
    + intros [= <-]. destruct (IH m' eq_refl) as (mid & post & -> & -> & Hp).
      exists (String a mid), post. simpl. auto.
    + destruct (Ascii.eqb_spec a c) as [->|]; [|discriminate].
      intros [= <-]. exists EmptyString, r. simpl.
      repeat split. now apply greedy_until_None.
  - intros (mid & post & -> & -> & Hp).
    induction mid as [|a mid IH]; simpl.
    + apply greedy_until_None in Hp. rewrite Hp. now rewrite Ascii.eqb_refl.
    + now rewrite IH.
Qed.

Lemma bracketed_Some (o c : ascii) (s m : string) :
  bracketed o c s = Some m <->
  exists mid post, s = String o ((mid +:+ String c EmptyString) +:+ post)
                   /\ m = String o (mid +:+ String c EmptyString)
                   /\ has_char c post = false.
Proof.
  unfold bracketed. destruct s as [|a r].
  - split; [discriminate | intros (? & ? & ? & _); discriminate].
  - destruct (Ascii.eqb_spec a o) as [->|Hne].
    + destruct (greedy_until c r) as [m'|] eqn:E.
      * apply greedy_until_Some in E as (mid & post & -> & -> & Hp).
        split.
        -- intros [= <-]. now exists mid, post.
        -- intros (mid' & post' & [= Heq] & -> & Hp').
           assert (Hg : greedy_until c ((mid +:+ String c "") +:+ post)
                        = Some (mid' +:+ String c "")).
           { rewrite Heq. apply greedy_until_Some. now exists mid', post'. }
           assert (Hg' : greedy_until c ((mid +:+ String c "") +:+ post)
                         = Some (mid +:+ String c "")).
           { apply greedy_until_Some. now exists mid, post. }
           congruence.
      * split; [discriminate|]. intros (mid & post & [= ->] & _ & Hp).
        assert (Hg : greedy_until c ((mid +:+ String c "") +:+ post)
                     = Some (mid +:+ String c "")).
        { apply greedy_until_Some. now exists mid, post. }
        congruence.
    + split; [discriminate|]. intros (? & ? & [= ? _] & _). congruence.
Qed.

Lemma bracketed_is_None (o c a : ascii) (r : string) :
  bracketed o c (String a r) = None <-> Ascii.eqb a o && has_char c r = false.
Proof.
  unfold bracketed. destruct (Ascii.eqb a o); simpl.
  - destruct (greedy_until c r) eqn:E.
    + split; [discriminate|]. intros H. apply greedy_until_None in H. congruence.
    + split; [|reflexivity]. intros _. now apply greedy_until_None.
  - tauto.
Qed.

Lemma no_alternative (a : ascii) (r : string) :
  (bracketed "{" "}" (String a r) = None /\ bracketed "[" "]" (String a r) = None)
  <-> opens a r = false.
Proof.
  rewrite !bracketed_is_None. unfold opens.
  destruct (Ascii.eqb a "{" && has_char "}" r),
           (Ascii.eqb a "[" && has_char "]" r); simpl; intuition congruence.
Qed.

Lemma json_match_unfold (s : string) :
  json_match s =
  match bracketed "{" "}" s with
  | Some m => Some m
  | None =>
      match bracketed "[" "]" s with
      | Some m => Some m
      | None => match s with
                | EmptyString => None
                | String _ r => json_match r
                end
      end
  end.
Proof. destruct s; reflexivity. Qed.

Lemma json_match_skip (a : ascii) (r : string) :
  opens a r = false -> json_match (String a r) = json_match r.
Proof.
  intros H. apply no_alternative in H as [H1 H2].
  rewrite json_match_unfold, H1, H2. reflexivity.
Qed.

Lemma json_match_here (a : ascii) (r : string) :
  opens a r = true ->
  exists o c mid post,
    bracket_pair o c /\ a = o
    /\ r = (mid +:+ String c EmptyString) +:+ post
    /\ has_char c post = false
    /\ json_match (String a r) = Some (String o (mid +:+ String c EmptyString)).
Proof.
  intros H. rewrite json_match_unfold.
  destruct (bracketed "{" "}" (String a r)) as [m|] eqn:E1.
  - apply bracketed_Some in E1 as (mid & post & [= -> ->] & -> & Hp).
    exists "{"%char, "}"%char, mid, post. unfold bracket_pair. auto 10.
  - destruct (bracketed "[" "]" (String a r)) as [m|] eqn:E2.
    + apply bracketed_Some in E2 as (mid & post & [= -> ->] & -> & Hp).
      exists "["%char, "]"%char, mid, post. unfold bracket_pair. auto 10.
    + assert (opens a r = false) by (apply no_alternative; auto). congruence.
Qed.

(** The pattern of the source finds exactly the claim's substring. *)
Lemma json_match_is_extraction (s m : string) :
  json_match s = Some m <-> is_extraction s m.
Proof.
  split.
  - revert m. induction s as [|a r IH]; intros m; [discriminate|].
    destruct (opens a r) eqn:Ho.
    + destruct (json_match_here a r Ho) as (o & c & mid & post & Hpair & -> & -> & Hp & ->).
      intros [= <-]. exists EmptyString, o, c, mid, post. simpl.
      repeat split; auto.
      intros [|? ?] ? ? Hpre; discriminate.
    + rewrite (json_match_skip a r Ho). intros Hm.
      destruct (IH m Hm) as (pre & o & c & mid & post & -> & Hmeq & Hpair & Hp & Hpre).
      exists (String a pre), o, c, mid, post. simpl.
      repeat split; auto.
      intros [|b p1] a0 p2; simpl; intros [= -> Heq].
      * subst pre. exact Ho.
      * apply (Hpre p1 a0 p2). exact Heq.
  - intros (pre & o & c & mid & post & -> & -> & Hpair & Hp & Hpre).
    induction pre as [|a pre IH]; cbn [String.append].
    + assert (Hb : bracketed o c (String o ((mid +:+ String c "") +:+ post))
                   = Some (String o (mid +:+ String c ""))).
      { apply bracketed_Some. now exists mid, post. }
      change (json_match (String o ((mid +:+ String c "") +:+ post))
              = Some (String o (mid +:+ String c ""))).
      rewrite json_match_unfold.
      destruct Hpair as [[-> ->]|[-> ->]].
      * now rewrite Hb.
      * rewrite Hb.
        assert (Hn : bracketed "{" "}" (String "[" ((mid +:+ "]") +:+ post)) = None)
          by now apply bracketed_is_None.
        now rewrite Hn.
    + rewrite json_match_skip.
      * apply IH. intros p1 a0 p2 Heq. apply (Hpre (String a p1) a0 p2).
        simpl. now rewrite Heq.
      * apply (Hpre EmptyString a pre). reflexivity.
Qed.

Lemma not_open_whitespace (a : ascii) (r : string) :
  is_whitespace a = true -> opens a r = false.
Proof.
  intros H. unfold opens.
  destruct (Ascii.eqb_spec a "{") as [->|]; [discriminate|].
  destruct (Ascii.eqb_spec a "[") as [->|]; [discriminate|].
  reflexivity.
Qed.

Lemma json_match_trimStart (s : string) : json_match (trimStart s) = json_match s.
Proof.
  induction s as [|a r IH]; [reflexivity|].
  cbn [trimStart]. destruct (is_whitespace a) eqn:E; [|reflexivity].
  now rewrite IH, (json_match_skip a r (not_open_whitespace a r E)).
Qed.

Lemma has_char_trimEnd (c : ascii) (s : string) :
  is_whitespace c = false -> has_char c (trimEnd s) = has_char c s.
Proof.
  intros Hc. induction s as [|a r IH]; [reflexivity|].
  cbn [trimEnd has_char].
  destruct (is_whitespace a && is_empty (trimEnd r)) eqn:E.
  - apply andb_prop in E as [Ea Er]. apply is_empty_true in Er.
    rewrite Er in IH. simpl in IH. rewrite <- IH.
    destruct (Ascii.eqb_spec a c) as [->|]; [congruence | reflexivity].
  - cbn [has_char]. now rewrite IH.
Qed.

Lemma opens_trimEnd (a : ascii) (r : string) :
  opens a (trimEnd r) = opens a r.
Proof. unfold opens. now rewrite !has_char_trimEnd. Qed.

Lemma greedy_until_trimEnd (c : ascii) (s : string) :
  is_whitespace c = false ->
  greedy_until c (trimEnd s) = greedy_until c s.
Proof.
  intros Hc. induction s as [|a r IH]; [reflexivity|].
  cbn [trimEnd greedy_until].
  destruct (is_whitespace a && is_empty (trimEnd r)) eqn:E.
  - apply andb_prop in E as [Ea Er]. apply is_empty_true in Er.
    rewrite Er in IH. simpl in IH. rewrite <- IH.
    destruct (Ascii.eqb_spec a c) as [->|]; [congruence | reflexivity].
  - cbn [greedy_until]. now rewrite IH.
Qed.

Lemma json_match_trimEnd (s : string) : json_match (trimEnd s) = json_match s.
Proof.
  induction s as [|a r IH]; [reflexivity|].
  cbn [trimEnd].
  destruct (is_whitespace a && is_empty (trimEnd r)) eqn:E.
  - apply andb_prop in E as [Ea Er]. apply is_empty_true in Er.
    rewrite (json_match_skip a r (not_open_whitespace a r Ea)).
    rewrite <- IH, Er. reflexivity.
  - rewrite !json_match_unfold with (s := String a _).
    unfold bracketed. rewrite !greedy_until_trimEnd by reflexivity.
    now rewrite IH.
Qed.

Lemma json_match_trim (s : string) : json_match (trim s) = json_match s.
Proof. unfold trim. now rewrite json_match_trimEnd, json_match_trimStart. Qed.

(** C8. [parseAndHandleJson] parses the substring that runs from the first
    brace or bracket with a closing partner to the last such partner,
    whatever surrounds it, and returns what [JSON.parse] makes of it; when
    [JSON.parse] throws, or when there is no such substring, it throws an
    error whose message carries the calling context.  On
    [warning: cache miss\n{"a":1}\n] it parses [{"a":1}]. *)
Theorem parseAndHandleJson_extracts `{Runtime} (jsonString context : string) :
  (forall m, is_extraction jsonString m ->
     parseAndHandleJson jsonString context =
     match JSON_parse m with
     | Returned parsed => Returned parsed
     | Thrown message =>
         Thrown ("Failed to parse " +:+ context
                 +:+ " as JSON. Raw output might be malformed or contain non-JSON data. Details: "
                 +:+ message)
     end)
  /\ ((forall m, ~ is_extraction jsonString m) ->
      parseAndHandleJson jsonString context =
      Thrown ("No valid JSON structure found for " +:+ context
              +:+ ". Raw output might be empty or malformed."))
  /\ is_extraction cache_miss_output cache_miss_json
  /\ parseAndHandleJson cache_miss_output context =
     match JSON_parse cache_miss_json with
     | Returned parsed => Returned parsed
     | Thrown message =>
         Thrown ("Failed to parse " +:+ context
                 +:+ " as JSON. Raw output might be malformed or contain non-JSON data. Details: "
                 +:+ message)
     end.
Proof.
  assert (Hgen : forall s m, is_extraction s m ->
     parseAndHandleJson s context =
     match JSON_parse m with
     | Returned parsed => Returned parsed
     | Thrown message =>
         Thrown ("Failed to parse " +:+ context
                 +:+ " as JSON. Raw output might be malformed or contain non-JSON data. Details: "
                 +:+ message)
     end).
  { intros s m Hm. apply json_match_is_extraction in Hm.
    unfold parseAndHandleJson. now rewrite json_match_trim, Hm. }
  assert (Hex : is_extraction cache_miss_output cache_miss_json).
  { apply json_match_is_extraction. vm_compute. reflexivity. }
  split; [|split; [|split]].
  - apply Hgen.
  - intros Hnone. unfold parseAndHandleJson. rewrite json_match_trim.
    destruct (json_match jsonString) as [m|] eqn:E; [|reflexivity].
    apply json_match_is_extraction in E. now apply Hnone in E.
  - exact Hex.
  - now apply Hgen.
Qed.

Lemma parseAndHandleJson_extracts_witness :
  @parseAndHandleJson example_runtime cache_miss_output "kubectl get pods output"
  = Returned (JObject [("a", JNumber "1")]).
Proof.
  destruct (@parseAndHandleJson_extracts example_runtime cache_miss_output
              "kubectl get pods output") as (_ & _ & _ & Hexample).
  exact Hexample.
Defined.

End JsonExtraction.

(* ===================================================================== *)
(** * The port-forward handle *)
(* ===================================================================== *)

Module PortForwardSpec.
Import JsString KubectlUtils PortForward.

Definition forward_spawn : spawn_record :=
  {| cmd := "kubectl"; args := forward_args; stdin := None |}.












End PortForwardSpec.

(* ===================================================================== *)
(** * The eks-cli-stream connection *)
(* ===================================================================== *)

Module WsHandlersSpec.
Import JsString Js KubectlUtils EksConfig WsHandlers Examples.
Import JsStringFacts KubectlUtilsSpec.

(** ** Elementary facts *)

Lemma lookup_remove_same (id : nat) (l : list (nat * cont)) :
  lookup_cont id (remove_cont id l) = None.
Proof.
  induction l as [|[i k] l IH]; [reflexivity|].
  unfold remove_cont in *. cbn [List.filter fst].
  destruct (Nat.eqb i id) eqn:E; cbn [negb]; [exact IH|].
  cbn [lookup_cont]. now rewrite E.
Qed.

Lemma run_app `{Runtime} (s : session) (t1 t2 : list event) :
  run s (t1 ++ t2) = run (run s t1) t2.
Proof. apply fold_left_app. Qed.

Lemma run_cons `{Runtime} (s : session) (e : event) (t : list event) :
  run s (e :: t) = run (step s e) t.
Proof. reflexivity. Qed.

(** ** Closing the socket while eksctl runs *)

(** C1 as stated fails: with the [eksctl delete cluster] child running (and
    likewise the [eksctl create cluster] child, reached through the
    pre-flight and the existence check), the socket's ['close'] sends the
    child SIGKILL. *)
Lemma ws_close_kills_running_eksctl :
  let run := @run example_runtime in
  let deleting := run init [Message (Delete "demo" "us-east-1")] in
  let creating :=
    run init [Message (Create my_cluster);
              Proc 0 (Data StdoutStream caller_arn);
              Proc 0 (Exit (Closed (Some 0)));
              Proc 1 (Data StdoutStream (simulation_text all_allowed));
              Proc 1 (Exit (Closed (Some 0)));
              Proc 2 (Data StderrStream "Error: ResourceNotFoundException: No cluster found");
              Proc 2 (Exit (Closed (Some 1)))] in
  (eksProcess deleting = Some 0%nat /\ eksProcessExited deleting = false
   /\ List.map (fun x => cmd (snd x) :: args (snd x)) (spawned deleting)
      = [["eksctl"; "delete"; "cluster"; "--name=demo"; "--region=us-east-1"]]
   /\ killed deleting = []
   /\ killed (run deleting [WsClose]) = [0%nat])
  /\ (eksProcess creating = Some 3%nat /\ eksProcessExited creating = false
      /\ List.map (fun x => cmd (snd x) :: args (snd x))
           (List.filter (fun x => Nat.eqb (fst x) 3) (spawned creating))
         = [["eksctl"; "create"; "cluster"; "-f"; "-"]]
      /\ killed creating = []
      /\ killed (run creating [WsClose]) = [3%nat]).
Proof. vm_compute. auto 20. Qed.

(** The socket closes while a child is tracked and the flag
    [eksProcessExited] is unset: the handler detaches the child's
    listeners, sends it SIGKILL and drops the reference. *)
Lemma close_kills_tracked `{Runtime} (s : session) (p : nat) :
  eksProcess s = Some p ->
  eksProcessExited s = false ->
  let s' := step s WsClose in
  killed s' = (killed s ++ [p])%list
  /\ eksProcess s' = None
  /\ lookup_cont p (pending s') = None
  /\ frames s' = frames s
  /\ is_open s' = false
  /\ spawned s' = spawned s
  /\ (forall e, step s' (Proc p e) = s').
Proof.
  intros Hp Hx. destruct s as [sock ep ex pend nid sp kl cl].
  cbn in Hp, Hx. subst ep ex.
  cbn -[remove_cont lookup_cont].
  repeat split; try apply lookup_remove_same.
  intros e. unfold on_proc. cbn -[remove_cont lookup_cont].
  now rewrite lookup_remove_same.
Qed.

(** While the session tracks no child (pre-flight, existence check, or
    after a child has been cleaned up) the socket's ['close'] kills
    nothing and leaves what is waiting in place. *)
Lemma ws_close_without_child `{Runtime} (s : session) :
  eksProcess s = None ->
  killed (step s WsClose) = killed s /\ pending (step s WsClose) = pending s.
Proof.
  intros Hp. unfold step, on_ws_close, cleanupEksProcessResources.
  cbn [eksProcess with_ws]. now rewrite Hp.
Qed.

(** ** Output of the awaited children *)

(** The ['data'] events of child [pid], one per chunk. *)
Definition output_events (pid : nat) (chunks : list (stream * string)) : list event :=
  List.map (fun c => Proc pid (Data (fst c) (snd c))) chunks.

Definition accumulate_onto (b : buffers) (chunks : list (stream * string)) : buffers :=
  fold_left (fun b c => accumulate b (fst c) (snd c)) chunks b.

Lemma with_pending_twice (l1 l2 : list (nat * cont)) (s : session) :
  with_pending l1 (with_pending l2 s) = with_pending l1 s.
Proof. reflexivity. Qed.

Lemma with_pending_same (s : session) : with_pending (pending s) s = s.
Proof. now destruct s. Qed.

Lemma run_caller_identity_output `{Runtime} (pid : nat) (c : context)
    (command : string) (chunks : list (stream * string)) :
  forall (b : buffers) (s : session),
    pending s = [(pid, AwaitCallerIdentity c command b)] ->
    run s (output_events pid chunks)
    = with_pending [(pid, AwaitCallerIdentity c command (accumulate_onto b chunks))] s.
Proof.
  induction chunks as [|[from data] chunks IH]; intros b s Hp.
  - cbn. rewrite <- Hp. now rewrite with_pending_same.
  - cbn [output_events List.map run fold_left fst snd].
    change (fold_left step (List.map _ chunks) ?x) with (run x (output_events pid chunks)).
    assert (Hs : step s (Proc pid (Data from data))
                 = with_pending [(pid, AwaitCallerIdentity c command (accumulate b from data))] s).
    { unfold step, on_proc. rewrite Hp. cbn [lookup_cont]. rewrite Nat.eqb_refl.
      unfold replace_cont. rewrite Hp. cbn [List.map fst]. now rewrite Nat.eqb_refl. }
    rewrite Hs, (IH (accumulate b from data)) by reflexivity.
    now rewrite with_pending_twice.
Qed.

Lemma run_iam_simulation_output `{Runtime} (pid : nat) (c : context)
    (command : string) (chunks : list (stream * string)) :
  forall (b : buffers) (s : session),
    pending s = [(pid, AwaitIamSimulation c command b)] ->
    run s (output_events pid chunks)
    = with_pending [(pid, AwaitIamSimulation c command (accumulate_onto b chunks))] s.
Proof.
  induction chunks as [|[from data] chunks IH]; intros b s Hp.
  - cbn. rewrite <- Hp. now rewrite with_pending_same.
  - cbn [output_events List.map run fold_left fst snd].
    change (fold_left step (List.map _ chunks) ?x) with (run x (output_events pid chunks)).
    assert (Hs : step s (Proc pid (Data from data))
                 = with_pending [(pid, AwaitIamSimulation c command (accumulate b from data))] s).
    { unfold step, on_proc. rewrite Hp. cbn [lookup_cont]. rewrite Nat.eqb_refl.
      unfold replace_cont. rewrite Hp. cbn [List.map fst]. now rewrite Nat.eqb_refl. }
    rewrite Hs, (IH (accumulate b from data)) by reflexivity.
    now rewrite with_pending_twice.
Qed.

(** ** A finished session *)

Definition is_message (e : event) : bool :=
  match e with Message _ => true | _ => false end.

(** Nothing waits, the socket is not open and no child is tracked. *)
Definition finished (s : session) : Prop :=
  pending s = [] /\ is_open s = false /\ eksProcess s = None.

Lemma finished_step `{Runtime} (s : session) (e : event) :
  finished s -> is_message e = false ->
  finished (step s e)
  /\ frames (step s e) = frames s /\ spawned (step s e) = spawned s
  /\ killed (step s e) = killed s /\ called (step s e) = called s.
Proof.
  intros (Hp & Ho & He) Hm. destruct s as [sock ep ex pend nid sp kl cl].
  unfold is_open in Ho. cbn in Hp, Ho, He. subst pend ep.
  unfold finished, frames, is_open.
  destruct e as [m| |m|pid pe|id he|id]; try discriminate;
    unfold step, on_ws_close, on_ws_error, on_proc, on_helper, on_timeout,
      cleanupEksProcessResources, is_open;
    cbn; rewrite ?Ho; cbn; auto 10.
Qed.

Lemma finished_run `{Runtime} (trace : list event) (s : session) :
  finished s -> forallb (fun e => negb (is_message e)) trace = true ->
  finished (run s trace)
  /\ frames (run s trace) = frames s /\ spawned (run s trace) = spawned s
  /\ killed (run s trace) = killed s /\ called (run s trace) = called s.
Proof.
  revert s. induction trace as [|e trace IH]; intros s Hf Hall; [cbn; auto|].
  cbn [forallb] in Hall. apply andb_prop in Hall as [He Hall].
  apply negb_true_iff in He.
  destruct (finished_step s e Hf He) as (Hf' & E1 & E2 & E3 & E4).
  rewrite run_cons. destruct (IH (step s e) Hf' Hall) as (Hf'' & F1 & F2 & F3 & F4).
  rewrite F1, F2, F3, F4. auto.
Qed.

(** ** The pre-flight permission check *)

Definition context_of (p : payload) : context :=
  {| name := normalise (clusterName p); where_ := region p; request := p |}.

Definition banner : Ws.frame :=
  Ws.Log (nl +:+ "--- Running pre-flight permission check for IAM role creation ---" +:+ nl).

(** The connection while [aws sts get-caller-identity] runs. *)
Definition awaiting_identity (p : payload) (b : buffers) : session :=
  {| ws := {| Ws.readyState := Ws.OPEN; Ws.sent := [banner] |};
     eksProcess := None; eksProcessExited := false;
     pending := [(0%nat, AwaitCallerIdentity (context_of p) sts_command b)];
     next_id := 1;
     spawned := [(0%nat, spawn_of_command sts_command None)];
     killed := []; called := [] |}.

(** The connection while [aws iam simulate-principal-policy] runs. *)
Definition awaiting_simulation (p : payload) (arn : string) (b : buffers) : session :=
  {| ws := {| Ws.readyState := Ws.OPEN; Ws.sent := [banner] |};
     eksProcess := None; eksProcessExited := false;
     pending := [(1%nat, AwaitIamSimulation (context_of p) (checkIamPermsCmd arn) b)];
     next_id := 2;
     spawned := [(0%nat, spawn_of_command sts_command None);
                 (1%nat, spawn_of_command (checkIamPermsCmd arn) None)];
     killed := []; called := [] |}.

(** A child that writes [chunks] and exits with code 0. *)
Definition succeeds (pid : nat) (chunks : list (stream * string)) : list event :=
  output_events pid chunks ++ [Proc pid (Exit (Closed (Some 0)))].

Lemma run_to_simulation `{Runtime} (p : payload) (arn_chunks : list (stream * string)) :
  run init (Message (Create p) :: succeeds 0 arn_chunks)
  = awaiting_simulation p (trim (collected StdoutStream arn_chunks)) no_output.
Proof.
  rewrite run_cons. unfold succeeds. rewrite run_app.
  change (step init (Message (Create p))) with (awaiting_identity p no_output).
  rewrite (run_caller_identity_output 0 (context_of p) sts_command arn_chunks no_output)
    by reflexivity.
  cbn [run fold_left]. unfold step, on_proc.
  cbn [with_pending pending awaiting_identity lookup_cont Nat.eqb].
  unfold execPromise_exit. cbn [is_zero Z.eqb].
  destruct (accumulate_all_collected arn_chunks) as [Ho _].
  unfold accumulate_all in Ho. unfold accumulate_onto. rewrite Ho.
  reflexivity.
Qed.

Lemma run_simulation_output `{Runtime} (p : payload) (arn : string)
    (iam_chunks : list (stream * string)) :
  run (awaiting_simulation p arn no_output) (output_events 1 iam_chunks)
  = awaiting_simulation p arn (accumulate_all iam_chunks).
Proof.
  now rewrite (run_iam_simulation_output 1 (context_of p) (checkIamPermsCmd arn)
                 iam_chunks no_output) by reflexivity.
Qed.

(** The decisions of a parsed simulation: the entries of its
    [EvaluationResults] that are not ["allowed"]. *)
Lemma filter_denied_no_null (items : list json) :
  Forall (fun i => i <> JNull) items ->
  filter_denied items = inr (List.filter not_allowed items).
Proof.
  induction 1 as [|i items Hi _ IH]; [reflexivity|].
  cbn [filter_denied List.filter]. rewrite IH.
  destruct i; try reflexivity. congruence.
Qed.

Lemma denied_results_of_array (parsed : json) (items : list json) :
  get_prop parsed "EvaluationResults" = Some (JArray items) ->
  Forall (fun i => i <> JNull) items ->
  denied_results parsed = inr (List.filter not_allowed items).
Proof.
  intros Hg Hn. unfold denied_results, evaluation_results.
  destruct parsed; try discriminate. rewrite Hg. now apply filter_denied_no_null.
Qed.




(** ** The existence check *)

Definition permitted : Ws.frame :=
  Ws.Log ("IAM permission check successful. Proceeding with cluster creation." +:+ nl).

Definition looking (p : payload) : Ws.frame :=
  Ws.Log (nl +:+ "Checking for existing cluster '" +:+ normalise (clusterName p)
          +:+ "' in region '" +:+ region p +:+ "'..." +:+ nl).

Definition streamed_frames (chunks : list (stream * string)) : list Ws.frame :=
  List.map (fun c => stream_frame (fst c) (snd c)) chunks.

Definition first_three (p : payload) (arn : string) : list (nat * spawn_record) :=
  [(0%nat, spawn_of_command sts_command None);
   (1%nat, spawn_of_command (checkIamPermsCmd arn) None);
   (2%nat, spawn_of_command (check_command (context_of p)) None)].

(** The connection while [eksctl get cluster] runs and the client stays. *)
Definition checking (p : payload) (arn : string) (b : buffers)
    (shown : list Ws.frame) : session :=
  {| ws := {| Ws.readyState := Ws.OPEN;
              Ws.sent := [banner; permitted; looking p] ++ shown |};
     eksProcess := None; eksProcessExited := false;
     pending := [(2%nat, AwaitExistenceCheck (context_of p) b)];
     next_id := 3;
     spawned := first_three p arn;
     killed := []; called := [] |}.

Lemma filter_none (items : list json) :
  Forall (fun i => not_allowed i = false) items -> List.filter not_allowed items = [].
Proof.
  induction 1 as [|i items Hi _ IH]; [reflexivity|].
  cbn [List.filter]. now rewrite Hi.
Qed.

Lemma run_to_check `{Runtime} (p : payload)
    (arn_chunks iam_chunks : list (stream * string))
    (parsed : json) (items : list json) :
  JSON_parse (trim (collected StdoutStream iam_chunks)) = Returned parsed ->
  get_prop parsed "EvaluationResults" = Some (JArray items) ->
  Forall (fun i => i <> JNull) items ->
  Forall (fun i => not_allowed i = false) items ->
  run init (Message (Create p) :: succeeds 0 arn_chunks ++ succeeds 1 iam_chunks)
  = checking p (trim (collected StdoutStream arn_chunks)) no_output [].
Proof.
  intros Hparse Hget Hnull Hall.
  rewrite app_comm_cons, run_app, run_to_simulation.
  unfold succeeds. rewrite run_app, run_simulation_output.
  cbn [run fold_left]. unfold step, on_proc.
  cbn [pending awaiting_simulation lookup_cont Nat.eqb].
  unfold execPromise_exit. cbn [is_zero Z.eqb].
  destruct (accumulate_all_collected iam_chunks) as [-> _].
  unfold after_iam_simulation. rewrite Hparse.
  rewrite (denied_results_of_array parsed items Hget Hnull), (filter_none items Hall).
  reflexivity.
Qed.

Lemma run_check_output `{Runtime} (p : payload) (arn : string)
    (chunks : list (stream * string)) :
  forall (b : buffers) (shown : list Ws.frame),
    run (checking p arn b shown) (output_events 2 chunks)
    = checking p arn (accumulate_onto b chunks) (shown ++ streamed_frames chunks).
Proof.
  induction chunks as [|[from data] chunks IH]; intros b shown.
  - cbn. now rewrite app_nil_r.
  - cbn [output_events List.map run fold_left fst snd].
    change (fold_left step (List.map _ chunks) ?x) with (run x (output_events 2 chunks)).
    assert (Hs : step (checking p arn b shown) (Proc 2 (Data from data))
                 = checking p arn (accumulate b from data)
                     (shown ++ [stream_frame from data])).
    { unfold step, on_proc, checking. cbn. reflexivity. }
    rewrite Hs, IH. cbn [accumulate_onto fold_left fst snd streamed_frames List.map].
    now rewrite <- app_assoc.
Qed.

Definition missing_marker : string := "ResourceNotFoundException".

Definition exists_message (p : payload) : string :=
  "Cluster '" +:+ normalise (clusterName p) +:+ "' already exists in region '"
  +:+ region p +:+ "'.".

Definition absent_frames (p : payload) : list Ws.frame :=
  [Ws.Log ("Cluster '" +:+ normalise (clusterName p)
           +:+ "' does not exist. Proceeding with creation." +:+ nl);
   Ws.Log (nl +:+ "--- Generated eksctl Configuration ---" +:+ nl
           +:+ generateEksClusterConfig p +:+ nl
           +:+ "------------------------------------" +:+ nl)].

(** What [executeCommand] resolves with, by the way the child ends. *)
Lemma check_result_cases (b : buffers) (x : exit_event) :
  match x with
  | Closed code =>
      if is_zero code
      then executeCommand_exit b x = Succeeded (stdoutBuffer b)
      else exists error, executeCommand_exit b x = Failed error
                         /\ error <> EmptyString
  | SpawnFailed message => executeCommand_exit b x = Failed message
  end.
Proof.
  destruct x as [code|message]; cbn; [|reflexivity].
  destruct (is_zero code); [reflexivity|].
  eexists. split; [reflexivity|]. unfold or_else.
  destruct (truthy (stderrBuffer b)) eqn:E.
  - intros Heq. rewrite Heq in E. discriminate.
  - discriminate.
Qed.

(** C5. A create request that passed the pre-flight, once [eksctl get
    cluster] has ended: if the lookup succeeded, the session aborts with an
    error frame naming the cluster and region that already exist; if it
    failed with an error that contains [ResourceNotFoundException], the
    session reports the cluster absent, generates the configuration and
    spawns [eksctl create cluster -f -] fed with it; if it failed with any
    other error, the session aborts with an error frame carrying that
    error.  An abort closes the socket and spawns nothing more. *)
Theorem existence_check_decides `{Runtime} (p : payload)
    (arn_chunks iam_chunks check_chunks : list (stream * string))
    (parsed : json) (items : list json) (x : exit_event) :
  JSON_parse (trim (collected StdoutStream iam_chunks)) = Returned parsed ->
  get_prop parsed "EvaluationResults" = Some (JArray items) ->
  Forall (fun i => i <> JNull) items ->
  Forall (fun i => not_allowed i = false) items ->
  let arn := trim (collected StdoutStream arn_chunks) in
  let s := run init (Message (Create p) :: succeeds 0 arn_chunks
                       ++ succeeds 1 iam_chunks
                       ++ output_events 2 check_chunks ++ [Proc 2 (Exit x)]) in
  let shown := ([banner; permitted; looking p] ++ streamed_frames check_chunks)%list in
  let result := executeCommand_exit (accumulate_all check_chunks) x in
  (forall output, result = Succeeded output ->
     frames s = (shown ++ [Ws.Error (exists_message p)])%list
     /\ is_open s = false /\ spawned s = first_three p arn
     /\ eksProcess s = None /\ pending s = [])
  /\ (forall error, result = Failed error ->
        includes missing_marker error = true ->
        frames s = (shown ++ absent_frames p)%list
        /\ is_open s = true
        /\ spawned s = (first_three p arn
                        ++ [(3%nat, {| cmd := "eksctl";
                                       args := ["create"; "cluster"; "-f"; "-"];
                                       stdin := Some (generateEksClusterConfig p) |})])%list
        /\ eksProcess s = Some 3%nat
        /\ pending s = [(3%nat, EksCreateListeners (context_of p))])
  /\ (forall error, result = Failed error ->
        includes missing_marker error = false ->
        error <> EmptyString ->
        frames s = (shown ++ [Ws.Error ("Failed to check for existing cluster: " +:+ error)])%list
        /\ is_open s = false /\ spawned s = first_three p arn
        /\ eksProcess s = None /\ pending s = []).
Proof.
  intros Hparse Hget Hnull Hall arn s shown result.
  assert (Hs : s = step (checking p arn (accumulate_all check_chunks)
                           (streamed_frames check_chunks))
                        (Proc 2 (Exit x))).
  { subst s. rewrite app_assoc, app_comm_cons, run_app.
    rewrite (run_to_check p arn_chunks iam_chunks parsed items Hparse Hget Hnull Hall).
    fold arn. rewrite run_app, run_check_output. reflexivity. }
  assert (Hstep : s = after_existence_check (context_of p) result
                        (forget 2 (checking p arn (accumulate_all check_chunks)
                                     (streamed_frames check_chunks)))).
  { rewrite Hs. reflexivity. }
  clear Hs. split; [|split].
  - intros output Hr. rewrite Hstep, Hr. cbn. repeat split.
  - intros error Hr Hinc. rewrite Hstep, Hr.
    unfold after_existence_check. fold missing_marker. rewrite Hinc, andb_false_r.
    cbn. unfold shown, absent_frames. rewrite <- !app_assoc. repeat split.
  - intros error Hr Hinc Hne. rewrite Hstep, Hr.
    unfold after_existence_check. fold missing_marker. rewrite Hinc.
    assert (Ht : truthy error = true) by (destruct error; [congruence | reflexivity]).
    rewrite Ht. cbn. repeat split.
Qed.

Definition lookup_fails : list (stream * string) :=
  [(StderrStream, "Error: ResourceNotFoundException: No cluster found for name: my-cluster.")].

(** Scenario B on the example request: the four commands, in order. *)
Definition scenario_b : list event :=
  Message (Create my_cluster)
    :: succeeds 0 [(StdoutStream, caller_arn +:+ nl)]
    ++ succeeds 1 [(StdoutStream, simulation_text all_allowed)]
    ++ output_events 2 lookup_fails ++ [Proc 2 (Exit (Closed (Some 1)))].

Lemma existence_check_decides_witness :
  let s := @run example_runtime init scenario_b in
  eksProcess s = Some 3%nat
  /\ is_open s = true
  /\ List.map (fun x => cmd (snd x) :: args (snd x)) (spawned s)
     = [["aws"; "sts"; "get-caller-identity"; "--query"; "Arn"; "--output"; "text"];
        ["aws"; "iam"; "simulate-principal-policy"; "--policy-source-arn";
         caller_arn; "--action-names"; "iam:CreateRole"; "iam:AttachRolePolicy";
         "iam:PutRolePolicy"; "iam:CreateServiceLinkedRole"];
        ["eksctl"; "get"; "cluster"; "--name=my-cluster"; "--region=us-east-1";
         "--output"; "json"];
        ["eksctl"; "create"; "cluster"; "-f"; "-"]].
Proof.
  pose proof (@existence_check_decides example_runtime my_cluster
                [(StdoutStream, caller_arn +:+ nl)]
                [(StdoutStream, simulation_text all_allowed)]
                lookup_fails
                (simulation all_allowed)
                (List.map (fun e => evaluation (fst e) (snd e)) all_allowed)
                (Closed (Some 1))
                eq_refl eq_refl) as Hdecides.
  destruct Hdecides as (_ & Hproceed & _).
  - repeat constructor; discriminate.
  - repeat constructor.
  - destruct (Hproceed _ eq_refl eq_refl) as (_ & Ho & Hsp & He & _).
    split; [exact He|]. split; [exact Ho|].
    unfold scenario_b. rewrite Hsp. reflexivity.
Defined.

(** ** The cluster name *)

Lemma config_names_cluster_raw (p : payload) :
  exists before after,
    generateEksClusterConfig p
    = before +:+ ("  name: " +:+ clusterName p +:+ nl) +:+ after.
Proof.
  eexists (nl +:+ "apiVersion: eksctl.io/v1alpha5" +:+ nl
           +:+ "kind: ClusterConfig" +:+ nl +:+ nl +:+ "metadata:" +:+ nl), _.
  unfold generateEksClusterConfig, metadata_block.
  rewrite !append_assoc. reflexivity.
Qed.

(** C10 (the code's behaviour). A create request named ["My Cluster"]: the
    existence check and the frames use the normalised name [my-cluster],
    but the configuration fed to [eksctl create cluster] is
    generated from the payload as received and names the cluster
    ["My Cluster"]: the normalised name does not occur in it.  A delete
    request uses the name as given. *)
Theorem create_config_keeps_raw_name :
  let s := @run example_runtime init scenario_b in
  normalise "My Cluster" = "my-cluster"
  /\ List.nth_error (frames s) 2
     = Some (Ws.Log (nl +:+ "Checking for existing cluster 'my-cluster' in region 'us-east-1'..." +:+ nl))
  /\ List.map (fun x => args (snd x)) (List.filter (fun x => Nat.eqb (fst x) 2) (spawned s))
     = [["get"; "cluster"; "--name=my-cluster"; "--region=us-east-1"; "--output"; "json"]]
  /\ List.map (fun x => stdin (snd x)) (List.filter (fun x => Nat.eqb (fst x) 3) (spawned s))
     = [Some (generateEksClusterConfig my_cluster)]
  /\ includes ("  name: My Cluster" +:+ nl) (generateEksClusterConfig my_cluster) = true
  /\ includes "my-cluster" (generateEksClusterConfig my_cluster) = false
  /\ List.map (fun x => args (snd x))
       (spawned (@run example_runtime init [Message (Delete "My Cluster" "us-east-1")]))
     = [["delete"; "cluster"; "--name=My Cluster"; "--region=us-east-1"]].
Proof. vm_compute. repeat split. Qed.

(** ** The teardown session *)

(** The connection while [eksctl delete cluster] runs and the client stays. *)
Definition deleting (clusterName region : string) (shown : list Ws.frame) : session :=
  {| ws := {| Ws.readyState := Ws.OPEN; Ws.sent := shown |};
     eksProcess := Some 0%nat; eksProcessExited := false;
     pending := [(0%nat, EksDeleteListeners clusterName)];
     next_id := 1;
     spawned := [(0%nat, delete_spawn clusterName region)];
     killed := []; called := [] |}.

Lemma run_delete_output `{Runtime} (clusterName region : string)
    (chunks : list (stream * string)) :
  forall shown : list Ws.frame,
    run (deleting clusterName region shown) (output_events 0 chunks)
    = deleting clusterName region (shown ++ streamed_frames chunks).
Proof.
  induction chunks as [|[from data] chunks IH]; intros shown.
  - cbn. now rewrite app_nil_r.
  - cbn [output_events List.map run fold_left fst snd].
    change (fold_left step (List.map _ chunks) ?x) with (run x (output_events 0 chunks)).
    assert (Hs : step (deleting clusterName region shown) (Proc 0 (Data from data))
                 = deleting clusterName region (shown ++ [stream_frame from data]))
      by reflexivity.
    rewrite Hs, IH. cbn [streamed_frames List.map fst snd].
    now rewrite <- app_assoc.
Qed.

(** X26. A delete request whose child runs to its end while the client stays:
    the child's output as log frames, then exactly one terminal frame,
    [complete] on exit code 0 and [error] otherwise. *)
Lemma delete_session_frames `{Runtime} (clusterName region : string)
    (chunks : list (stream * string)) (code : option Z) :
  frames (run init (Message (Delete clusterName region)
                      :: output_events 0 chunks ++ [Proc 0 (Exit (Closed code))]))
  = (streamed_frames chunks ++
     [if is_zero code
      then Ws.Complete ("Cluster '" +:+ clusterName +:+ "' deleted successfully.")
      else Ws.Error ("Cluster deletion failed with code " +:+ code_text code +:+ ".")])%list.
Proof.
  rewrite run_cons, run_app.
  change (step init (Message (Delete clusterName region)))
    with (deleting clusterName region []).
  rewrite run_delete_output. cbn [app run fold_left].
  unfold step, on_proc. cbn [pending deleting lookup_cont Nat.eqb].
  unfold on_delete_close. destruct (is_zero code); reflexivity.
Qed.

(** ** The order of the frames *)

Definition all_logs (fs : list Ws.frame) : Prop :=
  Forall (fun f => Ws.is_terminal f = false) fs.

(** Log frames, then one terminal frame, which is last. *)
Definition ended (fs : list Ws.frame) : Prop :=
  exists logs t, fs = (logs ++ [t])%list /\ all_logs logs /\ Ws.is_terminal t = true.

Definition only_close_timers (l : list (nat * cont)) : Prop :=
  Forall (fun x => snd x = CloseTimer) l.

(** The invariant of a connection that got one command: at most one
    continuation waits; and either no terminal frame was sent yet, or one
    was, it is last, and nothing can follow it: the socket is no longer open,
    or only the timer that will close it is waiting. *)
Definition orderly (s : session) : Prop :=
  (List.length (pending s) <= 1)%nat
  /\ (all_logs (frames s)
      \/ (ended (frames s)
          /\ (is_open s = false \/ only_close_timers (pending s)))).

(** The event is not a further command, and if it is a socket error, the
    socket has already left the open state when it is raised. *)
Definition undisturbed (s : session) (e : event) : bool :=
  match e with
  | Message _ => false
  | WsError _ => negb (is_open s)
  | _ => true
  end.

(** A trace of undisturbed events, each judged in the state it arrives in. *)
Fixpoint calm `{Runtime} (s : session) (trace : list event) : bool :=
  match trace with
  | [] => true
  | e :: rest => undisturbed s e && calm (step s e) rest
  end.

(** What [cleanupEksProcessResources] leaves of the waiting list. *)
Definition residue (tracked : option nat) (l : list (nat * cont)) : list (nat * cont) :=
  match tracked with Some p => remove_cont p l | None => l end.

Section Observations.
Context (s : session).

Lemma frames_send f :
  frames (send f s) = if is_open s then (frames s ++ [f])%list else frames s.
Proof. unfold frames, send, is_open, Ws.send. cbn. now destruct (Ws.is_open (ws s)). Qed.
Lemma frames_send_if_open f :
  frames (send_if_open f s) = if is_open s then (frames s ++ [f])%list else frames s.
Proof.
  unfold frames, send_if_open, is_open, Ws.send_if_open, Ws.send. cbn.
  now destruct (Ws.is_open (ws s)).
Qed.
Lemma frames_close : frames (close_socket s) = frames s.
Proof. unfold frames, close_socket, Ws.close. cbn. now destruct (Ws.is_open (ws s)). Qed.
Lemma frames_closed : frames (with_ws Ws.closed s) = frames s.
Proof. reflexivity. Qed.
Lemma frames_with_eksProcess p : frames (with_eksProcess p s) = frames s.
Proof. reflexivity. Qed.
Lemma frames_with_exited b : frames (with_exited b s) = frames s.
Proof. reflexivity. Qed.
Lemma frames_wait k : frames (wait k s) = frames s.
Proof. reflexivity. Qed.
Lemma frames_spawn r k : frames (spawn r k s) = frames s.
Proof. reflexivity. Qed.
Lemma frames_call h a c : frames (call h a c s) = frames s.
Proof. reflexivity. Qed.
Lemma frames_forget id : frames (forget id s) = frames s.
Proof. reflexivity. Qed.
Lemma frames_replace id k : frames (replace_cont id k s) = frames s.
Proof. reflexivity. Qed.
Lemma frames_cleanup : frames (cleanupEksProcessResources s) = frames s.
Proof.
  unfold cleanupEksProcessResources. destruct (eksProcess s); [|reflexivity].
  now destruct (eksProcessExited (forget n s)).
Qed.

Lemma open_send f : is_open (send f s) = is_open s.
Proof. unfold send, is_open, Ws.send. cbn. now destruct (Ws.is_open (ws s)) eqn:E. Qed.
Lemma open_send_if_open f : is_open (send_if_open f s) = is_open s.
Proof.
  unfold send_if_open, is_open, Ws.send_if_open, Ws.send. cbn.
  now destruct (Ws.is_open (ws s)) eqn:E.
Qed.
Lemma open_close : is_open (close_socket s) = false.
Proof. unfold close_socket, is_open. cbn. apply WsFacts.close_not_open. Qed.
Lemma open_closed : is_open (with_ws Ws.closed s) = false.
Proof. reflexivity. Qed.
Lemma open_with_eksProcess p : is_open (with_eksProcess p s) = is_open s.
Proof. reflexivity. Qed.
Lemma open_with_exited b : is_open (with_exited b s) = is_open s.
Proof. reflexivity. Qed.
Lemma open_wait k : is_open (wait k s) = is_open s.
Proof. reflexivity. Qed.
Lemma open_spawn r k : is_open (spawn r k s) = is_open s.
Proof. reflexivity. Qed.
Lemma open_call h a c : is_open (call h a c s) = is_open s.
Proof. reflexivity. Qed.
Lemma open_forget id : is_open (forget id s) = is_open s.
Proof. reflexivity. Qed.
Lemma open_replace id k : is_open (replace_cont id k s) = is_open s.
Proof. reflexivity. Qed.
Lemma open_cleanup : is_open (cleanupEksProcessResources s) = is_open s.
Proof.
  unfold cleanupEksProcessResources. destruct (eksProcess s); [|reflexivity].
  now destruct (eksProcessExited (forget n s)).
Qed.

Lemma pending_send f : pending (send f s) = pending s.
Proof. reflexivity. Qed.
Lemma pending_send_if_open f : pending (send_if_open f s) = pending s.
Proof. reflexivity. Qed.
Lemma pending_close : pending (close_socket s) = pending s.
Proof. reflexivity. Qed.
Lemma pending_closed : pending (with_ws Ws.closed s) = pending s.
Proof. reflexivity. Qed.
Lemma pending_with_eksProcess p : pending (with_eksProcess p s) = pending s.
Proof. reflexivity. Qed.
Lemma pending_with_exited b : pending (with_exited b s) = pending s.
Proof. reflexivity. Qed.
Lemma pending_wait k : pending (wait k s) = (pending s ++ [(next_id s, k)])%list.
Proof. reflexivity. Qed.
Lemma pending_spawn r k : pending (spawn r k s) = (pending s ++ [(next_id s, k)])%list.
Proof. reflexivity. Qed.
Lemma pending_call h a c :
  pending (call h a c s) = (pending s ++ [(next_id s, AwaitHelper h c)])%list.
Proof. reflexivity. Qed.
Lemma pending_forget id : pending (forget id s) = remove_cont id (pending s).
Proof. reflexivity. Qed.
Lemma pending_cleanup :
  pending (cleanupEksProcessResources s) = residue (eksProcess s) (pending s).
Proof.
  unfold cleanupEksProcessResources, residue. destruct (eksProcess s); [|reflexivity].
  now destruct (eksProcessExited (forget n s)).
Qed.
Lemma length_pending_replace id k :
  List.length (pending (replace_cont id k s)) = List.length (pending s).
Proof. unfold replace_cont. cbn. apply List.length_map. Qed.

End Observations.





Lemma existence_check_data (pid : nat) (c : context) (b : buffers) (from : stream)
    (data : string) (s : session) :
  (let (b', sock) := executeCommand_data b from data (ws s) in
   with_ws (fun _ => sock) (replace_cont pid (AwaitExistenceCheck c b') s))
  = send_if_open (stream_frame from data)
      (replace_cont pid (AwaitExistenceCheck c (accumulate b from data)) s).
Proof. reflexivity. Qed.

Lemma stream_frame_log (from : stream) (data : string) :
  Ws.is_terminal (stream_frame from data) = false.
Proof. now destruct from. Qed.

Lemma short_remove (id : nat) (l : list (nat * cont)) :
  (List.length l <= 1)%nat -> (List.length (remove_cont id l) <= 1)%nat.
Proof.
  intros Hl. unfold remove_cont.
  pose proof (List.filter_length_le (fun x => negb (Nat.eqb (fst x) id)) l). lia.
Qed.

Lemma short_residue (o : option nat) (l : list (nat * cont)) :
  (List.length l <= 1)%nat -> (List.length (residue o l) <= 1)%nat.
Proof. destruct o; [apply short_remove | trivial]. Qed.

Lemma timers_remove (id : nat) (l : list (nat * cont)) :
  only_close_timers l -> only_close_timers (remove_cont id l).
Proof.
  unfold only_close_timers, remove_cont. rewrite !List.Forall_forall.
  intros Hl x Hx. apply List.filter_In in Hx as [Hx _]. auto.
Qed.

Lemma timers_residue (o : option nat) (l : list (nat * cont)) :
  only_close_timers l -> only_close_timers (residue o l).
Proof. destruct o; [apply timers_remove | trivial]. Qed.

Lemma lookup_single (id : nat) (k : cont) (l : list (nat * cont)) :
  (List.length l <= 1)%nat -> lookup_cont id l = Some k ->
  l = [(id, k)] /\ remove_cont id l = [].
Proof.
  destruct l as [|[i k'] [|? ?]]; cbn; try discriminate; try lia.
  intros _. destruct (Nat.eqb_spec i id) as [->|]; [|discriminate].
  intros [= ->]. auto.
Qed.

Lemma lookup_timer (id : nat) (k : cont) (l : list (nat * cont)) :
  only_close_timers l -> lookup_cont id l = Some k -> k = CloseTimer.
Proof.
  induction 1 as [|[i k'] l Hk _ IH]; cbn; [discriminate|].
  destruct (Nat.eqb i id); [|exact IH]. cbn in Hk. now intros [= <-].
Qed.


(** [s1] is a state inside a handler that started in [s] with nothing else
    waiting: nothing registered yet, and only log frames sent so far. *)
Definition midway (s s1 : session) : Prop :=
  pending s1 = []
  /\ is_open s1 = is_open s
  /\ (is_open s = false -> frames s1 = frames s)
  /\ (all_logs (frames s) -> all_logs (frames s1)).

(** [s'] is the state a handler that started in [s] ends in. *)
Definition outcome_of (s s' : session) : Prop :=
  (List.length (pending s') <= 1)%nat
  /\ (is_open s = false -> frames s' = frames s /\ is_open s' = false)
  /\ (all_logs (frames s) ->
      all_logs (frames s')
      \/ (ended (frames s')
          /\ (is_open s' = false \/ only_close_timers (pending s')))).

Lemma all_logs_snoc (fs : list Ws.frame) (f : Ws.frame) :
  all_logs fs -> Ws.is_terminal f = false -> all_logs (fs ++ [f]).
Proof. intros Hfs Hf. apply Forall_app. split; [exact Hfs | now constructor]. Qed.

Lemma ended_snoc (fs : list Ws.frame) (f : Ws.frame) :
  all_logs fs -> Ws.is_terminal f = true -> ended (fs ++ [f]).
Proof. intros Hfs Hf. now exists fs, f. Qed.

Lemma midway_start (s : session) : pending s = [] -> midway s s.
Proof. unfold midway. auto. Qed.

Lemma midway_send (s s1 : session) (f : Ws.frame) :
  Ws.is_terminal f = false -> midway s s1 -> midway s (send f s1).
Proof.
  intros Hf (Hp & Ho & Hc & Hl). unfold midway.
  rewrite pending_send, open_send, frames_send, Ho.
  repeat split; auto.
  - intros Hcl. rewrite Hcl. auto.
  - intros Hs. destruct (is_open s); auto using all_logs_snoc.
Qed.

Lemma midway_with_exited (s s1 : session) (b : bool) :
  midway s s1 -> midway s (with_exited b s1).
Proof. exact (fun H => H). Qed.

Lemma outcome_stop (s s1 : session) : midway s s1 -> outcome_of s s1.
Proof.
  intros (Hp & Ho & Hc & Hl). unfold outcome_of. rewrite Hp, Ho.
  repeat split; auto.
Qed.

Lemma outcome_wait (s s1 : session) (k : cont) :
  midway s s1 -> outcome_of s (wait k s1).
Proof.
  intros (Hp & Ho & Hc & Hl). unfold outcome_of.
  rewrite pending_wait, frames_wait, open_wait, Hp, Ho.
  repeat split; auto.
Qed.

Lemma outcome_spawn (s s1 : session) (r : spawn_record) (k : cont) :
  midway s s1 -> outcome_of s (spawn r k s1).
Proof. exact (outcome_wait s s1 k). Qed.

Lemma outcome_call (s s1 : session) (h : helper) (a : list hval) (c : context) :
  midway s s1 -> outcome_of s (call h a c s1).
Proof. exact (outcome_wait s s1 (AwaitHelper h c)). Qed.

Lemma outcome_tracked (s s' : session) (p : option nat) :
  outcome_of s s' -> outcome_of s (with_eksProcess p s').
Proof. exact (fun H => H). Qed.

Lemma outcome_cleanup (s s1 : session) :
  midway s s1 -> outcome_of s (cleanupEksProcessResources s1).
Proof.
  intros (Hp & Ho & Hc & Hl). unfold outcome_of.
  rewrite pending_cleanup, frames_cleanup, open_cleanup, Hp, Ho.
  repeat split; auto. apply short_residue. cbn. lia.
Qed.

Lemma outcome_abort (s s1 : session) (message : string) :
  midway s s1 -> outcome_of s (abort message s1).
Proof.
  intros (Hp & Ho & Hc & Hl). unfold outcome_of, abort.
  rewrite pending_cleanup, frames_cleanup, open_cleanup, open_close, frames_close,
    frames_send, pending_close, pending_send, Hp, Ho.
  split; [|split].
  - apply short_residue. cbn. lia.
  - intros Hcl. rewrite Hcl. auto.
  - intros Hs. destruct (is_open s); auto using ended_snoc.
Qed.

Lemma outcome_finish (s s1 : session) (f : Ws.frame) :
  Ws.is_terminal f = true -> midway s s1 -> outcome_of s (finish (send f s1)).
Proof.
  intros Hf (Hp & Ho & Hc & Hl). unfold outcome_of, finish.
  rewrite pending_cleanup, frames_cleanup, open_cleanup, pending_wait, frames_wait,
    open_wait, frames_send, open_send, pending_send, Hp, Ho.
  split; [|split].
  - apply short_residue. cbn. lia.
  - intros Hcl. rewrite Hcl. auto.
  - intros Hs. destruct (is_open s); [right | left; auto].
    split; [auto using ended_snoc|]. right. apply timers_residue.
    repeat constructor.
Qed.

Lemma outcome_stabilise (s s1 : session) (c : context) :
  midway s s1 -> outcome_of s (stabilise c s1).
Proof. intros Hm. unfold stabilise. now apply outcome_wait, midway_send. Qed.

Create HintDb handlers.
#[local] Hint Resolve midway_send midway_with_exited outcome_stop outcome_wait
  outcome_spawn outcome_call outcome_tracked outcome_cleanup outcome_abort
  outcome_finish outcome_stabilise : handlers.

Ltac split_flow :=
  repeat match goal with
    | |- context [match ?x with _ => _ end] =>
        lazymatch x with
        | context [match _ with _ => _ end] => fail
        | _ => destruct x eqn:?
        end
    end.

(** A handler run from [midway], branch by branch. *)
Ltac handler := split_flow; auto 8 with handlers.

Lemma outcome_after_caller_identity (s s1 : session) (c : context) (arn : string) :
  midway s s1 -> outcome_of s (after_caller_identity c arn s1).
Proof. intros Hm. unfold after_caller_identity. handler. Qed.

Lemma outcome_preflight_error (s s1 : session) (message : string) :
  midway s s1 -> outcome_of s (preflight_error message s1).
Proof. intros Hm. unfold preflight_error. handler. Qed.

Lemma outcome_after_iam_simulation `{Runtime} (s s1 : session) (c : context)
    (out : string) :
  midway s s1 -> outcome_of s (after_iam_simulation c out s1).
Proof.
  intros Hm. unfold after_iam_simulation.
  split_flow; auto 8 using outcome_preflight_error with handlers.
Qed.

Lemma outcome_after_existence_check (s s1 : session) (c : context)
    (r : command_result) :
  midway s s1 -> outcome_of s (after_existence_check c r s1).
Proof. intros Hm. unfold after_existence_check. handler. Qed.

Lemma outcome_after_stabilise (s s1 : session) (c : context) :
  midway s s1 -> outcome_of s (after_stabilise c s1).
Proof. intros Hm. unfold after_stabilise. handler. Qed.

Lemma outcome_after_helper (s s1 : session) (h : helper) (c : context)
    (r : outcome hval) :
  midway s s1 -> outcome_of s (after_helper h c r s1).
Proof. intros Hm. unfold after_helper. handler. Qed.

Lemma outcome_on_create_close (s s1 : session) (c : context) (code : option Z) :
  midway s s1 -> outcome_of s (on_create_close c code s1).
Proof. intros Hm. unfold on_create_close. handler. Qed.

Lemma outcome_on_delete_close (s s1 : session) (n : string) (code : option Z) :
  midway s s1 -> outcome_of s (on_delete_close n code s1).
Proof. intros Hm. unfold on_delete_close. handler. Qed.

(** ** One step of the event loop keeps the order *)

(** No terminal frame yet, or one sent on a socket that is no longer open. *)
Definition plain (s : session) : Prop :=
  all_logs (frames s) \/ (ended (frames s) /\ is_open s = false).

(** The step keeps the invariant and, once a terminal frame has been sent,
    sends nothing. *)
Definition kept (s s' : session) : Prop :=
  orderly s' /\ (ended (frames s) -> frames s' = frames s).

Lemma not_both (fs : list Ws.frame) : all_logs fs -> ended fs -> False.
Proof.
  intros Hl (logs & t & -> & _ & Ht). apply Forall_app in Hl as [_ Hl].
  inversion Hl; subst. congruence.
Qed.

Lemma kept_same (s : session) : orderly s -> kept s s.
Proof. unfold kept. auto. Qed.

Lemma kept_outcome (s s0 s' : session) :
  plain s -> frames s0 = frames s -> is_open s0 = is_open s ->
  outcome_of s0 s' -> kept s s'.
Proof.
  intros Hplain Hf Ho (Hlen & Hclosed & Hopen). rewrite Hf, Ho in *.
  unfold kept, orderly. destruct Hplain as [Hlogs | [Hend Hcl]].
  - split; [auto|]. intros Hend. destruct (not_both _ Hlogs Hend).
  - destruct (Hclosed Hcl) as [Hsame Hcl']. rewrite Hsame. auto 6.
Qed.

Lemma kept_shape (s s' : session) :
  plain s -> (List.length (pending s') <= 1)%nat ->
  frames s' = frames s -> is_open s' = is_open s -> kept s s'.
Proof.
  intros Hplain Hlen Hf Ho. unfold kept, orderly. rewrite Hf, Ho.
  destruct Hplain as [Hlogs | [Hend Hcl]]; auto 6.
Qed.

Lemma kept_log (s s' : session) (f : Ws.frame) :
  plain s -> (List.length (pending s') <= 1)%nat ->
  frames s' = frames s -> is_open s' = is_open s ->
  Ws.is_terminal f = false -> kept s (send_if_open f s').
Proof.
  intros Hplain Hlen Hf Ho Hlog. unfold kept, orderly.
  rewrite pending_send_if_open, frames_send_if_open, open_send_if_open, Hf, Ho.
  destruct Hplain as [Hlogs | [Hend Hcl]].
  - split; [split; [exact Hlen|]|].
    + left. destruct (is_open s); auto using all_logs_snoc.
    + intros Hend. destruct (not_both _ Hlogs Hend).
  - rewrite Hcl. auto 6.
Qed.

Lemma send_if_open_is_send (f : Ws.frame) (s : session) :
  send_if_open f s = send f s.
Proof.
  unfold send_if_open, send, with_ws. now rewrite WsFacts.send_if_open_send.
Qed.

Lemma kept_eks_error (s : session) (prefix message : string) :
  plain s -> (List.length (pending s) <= 1)%nat ->
  kept s (on_eks_error prefix message s).
Proof.
  intros Hplain Hlen. unfold kept, orderly, on_eks_error.
  rewrite open_with_exited.
  destruct (is_open s) eqn:Ho;
    rewrite ?pending_cleanup, ?frames_cleanup, ?open_cleanup, ?open_close,
      ?frames_close, ?pending_close, ?frames_send, ?pending_send,
      ?open_with_exited, ?frames_with_exited, ?pending_with_exited, ?Ho.
  - destruct Hplain as [Hlogs | [Hend Hcl]]; [|congruence].
    split; [split; [now apply short_residue|]|].
    + right. auto using ended_snoc.
    + intros Hend. destruct (not_both _ Hlogs Hend).
  - split; [split; [now apply short_residue|]|reflexivity].
    destruct Hplain as [Hlogs | [Hend Hcl]]; auto.
Qed.

Lemma kept_timer (s : session) (id : nat) :
  orderly s ->
  kept s (let s0 := forget id s in if is_open s0 then close_socket s0 else s0).
Proof.
  intros [Hlen Hcases]. unfold kept, orderly. cbn zeta.
  rewrite open_forget.
  destruct (is_open s) eqn:Ho;
    rewrite ?frames_close, ?pending_close, ?open_close, ?frames_forget,
      ?pending_forget, ?open_forget, ?Ho.
  - split; [split; [now apply short_remove|]|reflexivity].
    destruct Hcases as [Hlogs | [Hend _]]; auto.
  - split; [split; [now apply short_remove|]|reflexivity].
    destruct Hcases as [Hlogs | [Hend _]]; auto.
Qed.

Lemma kept_ws_close (s : session) : orderly s -> kept s (on_ws_close s).
Proof.
  intros [Hlen Hcases]. unfold kept, orderly, on_ws_close.
  rewrite pending_cleanup, frames_cleanup, open_cleanup, pending_closed,
    frames_closed, open_closed.
  split; [split; [now apply short_residue|]|reflexivity].
  destruct Hcases as [Hlogs | [Hend _]]; auto.
Qed.

#[local] Hint Resolve outcome_after_caller_identity outcome_preflight_error
  outcome_after_existence_check outcome_after_stabilise outcome_after_helper
  outcome_on_create_close outcome_on_delete_close : handlers.

Lemma kept_ws_error (s : session) (message : string) :
  orderly s -> is_open s = false -> kept s (on_ws_error message s).
Proof.
  intros [Hlen Hcases] Hcl. unfold kept, orderly, on_ws_error.
  rewrite open_cleanup, Hcl, pending_cleanup, frames_cleanup, open_cleanup, Hcl.
  split; [split; [now apply short_residue|]|reflexivity].
  destruct Hcases as [Hlogs | [Hend _]]; auto.
Qed.

Lemma step_kept `{Runtime} (s : session) (e : event) :
  orderly s -> undisturbed s e = true -> kept s (step s e).
Proof.
  intros Hs Hq. pose proof Hs as [Hlen Hcases].
  destruct e as [m| |m|pid pe|id he|id]; try discriminate; unfold step.
  - now apply kept_ws_close.
  - apply kept_ws_error; [exact Hs|]. cbn in Hq. now apply negb_true_iff in Hq.
  - unfold on_proc.
    destruct (lookup_cont pid (pending s)) as [k|] eqn:L; [|now apply kept_same].
    destruct (lookup_single pid k (pending s) Hlen L) as [Hp Hr].
    assert (Hm : midway (forget pid s) (forget pid s))
      by (apply midway_start; now rewrite pending_forget).
    assert (Hplain : plain s \/ k = CloseTimer).
    { destruct Hcases as [Hlogs | [Hend [Hcl | Htm]]]; unfold plain; auto.
      right. exact (lookup_timer pid k (pending s) Htm L). }
    destruct Hplain as [Hplain | ->]; [|now apply kept_same].
    destruct k; try (now apply kept_same);
      destruct pe as [from data|[code|message]];
      rewrite ?existence_check_data.
    all: try (apply kept_shape; [exact Hplain | now rewrite length_pending_replace | reflexivity | reflexivity]).
    all: try (apply kept_log; [exact Hplain | rewrite ?length_pending_replace; exact Hlen | reflexivity | reflexivity | apply stream_frame_log]).
    all: try (apply kept_eks_error; assumption).
    all: try (apply (kept_outcome s (forget pid s)); [exact Hplain | reflexivity | reflexivity |]).
    all: try (destruct (execPromise_exit command b (Closed code)));
      try (destruct (execPromise_exit command b (SpawnFailed message)));
      auto using outcome_after_iam_simulation with handlers.
  - unfold on_helper.
    destruct (lookup_cont id (pending s)) as [k|] eqn:L; [|now apply kept_same].
    destruct (lookup_single id k (pending s) Hlen L) as [Hp Hr].
    assert (Hm : midway (forget id s) (forget id s))
      by (apply midway_start; now rewrite pending_forget).
    assert (Hplain : plain s \/ k = CloseTimer).
    { destruct Hcases as [Hlogs | [Hend [Hcl | Htm]]]; unfold plain; auto.
      right. exact (lookup_timer id k (pending s) Htm L). }
    destruct Hplain as [Hplain | ->]; [|now apply kept_same].
    destruct k; try (now apply kept_same). destruct he as [data|r].
    + rewrite <- send_if_open_is_send.
      apply kept_log; auto.
    + apply (kept_outcome s (forget id s)); auto with handlers.
  - unfold on_timeout.
    destruct (lookup_cont id (pending s)) as [k|] eqn:L; [|now apply kept_same].
    destruct (lookup_single id k (pending s) Hlen L) as [Hp Hr].
    assert (Hm : midway (forget id s) (forget id s))
      by (apply midway_start; now rewrite pending_forget).
    destruct k; try (now apply kept_same).
    + assert (Hplain : plain s).
      { destruct Hcases as [Hlogs | [Hend [Hcl | Htm]]]; unfold plain; auto.
        pose proof (lookup_timer id _ (pending s) Htm L). discriminate. }
      apply (kept_outcome s (forget id s)); auto with handlers.
    + now apply kept_timer.
Qed.

(** ** One command per connection *)

Lemma first_command_orderly `{Runtime} (m : inbound) :
  orderly (step init (Message m)).
Proof.
  assert (Hm : midway init init) by (now apply midway_start).
  assert (Hout : outcome_of init (step init (Message m))).
  { destruct m as [p|n r| |message]; unfold step, on_message.
    - unfold on_create. auto with handlers.
    - unfold on_delete. auto with handlers.
    - auto with handlers.
    - change (is_open init) with true. cbv iota.
      change (close_socket (send (Ws.Error ("Invalid message format: " +:+ message)) init))
        with (cleanupEksProcessResources
                (close_socket (send (Ws.Error ("Invalid message format: " +:+ message)) init))).
      apply (outcome_abort init init _ Hm). }
  destruct Hout as (Hlen & _ & Hcases). split; [exact Hlen|].
  apply Hcases. constructor.
Qed.

Lemma calm_app `{Runtime} (t1 t2 : list event) (s : session) :
  calm s (t1 ++ t2) = calm s t1 && calm (run s t1) t2.
Proof.
  revert s. induction t1 as [|e t1 IH]; intros s; [reflexivity|].
  cbn [app calm]. rewrite IH, run_cons. now rewrite andb_assoc.
Qed.

Lemma run_kept `{Runtime} (trace : list event) (s : session) :
  orderly s -> calm s trace = true ->
  orderly (run s trace)
  /\ (ended (frames s) -> frames (run s trace) = frames s).
Proof.
  revert s. induction trace as [|e trace IH]; intros s Hs Hall; [now split|].
  cbn [calm] in Hall. apply andb_prop in Hall as [He Hall].
  destruct (step_kept s e Hs He) as [Hs' Hsame].
  destruct (IH (step s e) Hs' Hall) as [Hfinal Hsame'].
  rewrite run_cons. split; [exact Hfinal|].
  intros Hend. rewrite <- (Hsame Hend) in Hend |- *. now apply Hsame'.
Qed.

Lemma all_logs_are_logs (fs : list Ws.frame) :
  all_logs fs -> exists texts, fs = List.map Ws.Log texts.
Proof.
  induction 1 as [|f fs Hf _ [texts ->]]; [now exists []|].
  destruct f as [data| |]; try discriminate. now exists (data :: texts).
Qed.

(** ** A command that runs to its end *)

(** The steps a command can still await, the one that waits included: the
    two pre-flight commands, the existence check, eksctl, the five
    helpers and the delay of a [create]; eksctl of a [delete]. *)
Definition rank (k : cont) : nat :=
  match k with
  | AwaitCallerIdentity _ _ _ => 10
  | AwaitIamSimulation _ _ _ => 9
  | AwaitExistenceCheck _ _ => 8
  | EksCreateListeners _ => 7
  | AwaitHelper applyDefaultStorageClass _ => 6
  | AwaitHelper installCertManager _ => 5
  | AwaitHelper createOrVerifyAlbIamPolicy _ => 4
  | AwaitHelper createAlbIamServiceAccount _ => 3
  | AwaitHelper installAlbControllerManifest _ => 2
  | AwaitStabilise _ => 1
  | EksDeleteListeners _ => 1
  | CloseTimer => 0
  end.

(** A step of the command is awaited: one continuation waits, it is not
    the timer that closes the socket, and at most [bound] steps are left. *)
Definition busy (bound : nat) (l : list (nat * cont)) : Prop :=
  exists id k, l = [(id, k)] /\ k <> CloseTimer /\ (rank k <= bound)%nat.

(** As long as no terminal frame has been sent, the socket is open and a
    step of the command is awaited. *)
Definition engaged (bound : nat) (s : session) : Prop :=
  all_logs (frames s) -> is_open s = true /\ busy bound (pending s).

(** Inside a handler: nothing registered yet, and the socket open. *)
Definition ready (s : session) : Prop := pending s = [] /\ is_open s = true.

(** The client stays and the first post-creation step returns: the event
    is not the socket's ['close'] while the socket is open, and not an
    exception out of [applyDefaultStorageClass], which the handler awaits
    outside its [try]. *)
Definition attended (s : session) (e : event) : bool :=
  match e with
  | WsClose => negb (is_open s)
  | Helper id (HelperEnd (Thrown _)) =>
      match lookup_cont id (pending s) with
      | Some (AwaitHelper applyDefaultStorageClass _) => false
      | _ => true
      end
  | _ => true
  end.

(** A trace of attended events, each judged in the state it arrives in. *)
Fixpoint stays `{Runtime} (s : session) (trace : list event) : bool :=
  match trace with
  | [] => true
  | e :: rest => attended s e && stays (step s e) rest
  end.

(** The event ends a step that is awaited: the child exits or fails to
    spawn, the helper returns or throws, the delay is over. *)
Definition ends_step (s : session) (e : event) : bool :=
  match e with
  | Proc id (Exit _) =>
      match lookup_cont id (pending s) with
      | Some (AwaitCallerIdentity _ _ _ | AwaitIamSimulation _ _ _
             | AwaitExistenceCheck _ _ | EksCreateListeners _
             | EksDeleteListeners _) => true
      | _ => false
      end
  | Helper id (HelperEnd _) =>
      match lookup_cont id (pending s) with
      | Some (AwaitHelper _ _) => true
      | _ => false
      end
  | Timeout id =>
      match lookup_cont id (pending s) with
      | Some (AwaitStabilise _) => true
      | _ => false
      end
  | _ => false
  end.

(** The number of awaited steps that end in the course of [trace]. *)
Fixpoint steps_ended `{Runtime} (s : session) (trace : list event) : nat :=
  match trace with
  | [] => O
  | e :: rest => ((if ends_step s e then 1 else 0) + steps_ended (step s e) rest)%nat
  end.

Lemma terminal_not_log (fs : list Ws.frame) (t : Ws.frame) :
  Ws.is_terminal t = true -> all_logs (fs ++ [t]) -> False.
Proof.
  intros Ht Hl. apply Forall_app in Hl as [_ Hl]. inversion Hl; subst. congruence.
Qed.

Lemma engaged_shape (bound : nat) (s : session) (id : nat) (k : cont) :
  is_open s = true -> pending s = [(id, k)] -> k <> CloseTimer ->
  (rank k <= bound)%nat -> engaged bound s.
Proof. intros Ho Hp Hk Hb _. split; [exact Ho|]. now exists id, k. Qed.

Lemma engaged_ended (bound : nat) (s : session) (fs : list Ws.frame) (t : Ws.frame) :
  frames s = (fs ++ [t])%list -> Ws.is_terminal t = true -> engaged bound s.
Proof. intros Hf Ht Hl. rewrite Hf in Hl. destruct (terminal_not_log fs t Ht Hl). Qed.

Lemma engaged_more (bound bound' : nat) (s : session) :
  (bound <= bound')%nat -> engaged bound s -> engaged bound' s.
Proof.
  intros Hle He Hl. destruct (He Hl) as [Ho (id & k & Hp & Hk & Hb)].
  split; [exact Ho|]. exists id, k. repeat split; auto. lia.
Qed.

Lemma ready_send (f : Ws.frame) (s : session) : ready s -> ready (send f s).
Proof. intros [Hp Ho]. unfold ready. now rewrite pending_send, open_send. Qed.

Lemma ready_with_exited (b : bool) (s : session) : ready s -> ready (with_exited b s).
Proof. exact (fun H => H). Qed.

Lemma engaged_wait (bound : nat) (k : cont) (s : session) :
  k <> CloseTimer -> (rank k <= bound)%nat -> ready s -> engaged bound (wait k s).
Proof.
  intros Hk Hb [Hp Ho]. apply (engaged_shape _ _ (next_id s) k); auto.
  now rewrite pending_wait, Hp.
Qed.

Lemma engaged_spawn (bound : nat) (r : spawn_record) (k : cont) (s : session) :
  k <> CloseTimer -> (rank k <= bound)%nat -> ready s -> engaged bound (spawn r k s).
Proof. exact (engaged_wait bound k s). Qed.

Lemma engaged_call (bound : nat) (h : helper) (a : list hval) (c : context)
    (s : session) :
  (rank (AwaitHelper h c) <= bound)%nat -> ready s -> engaged bound (call h a c s).
Proof. apply (engaged_wait bound (AwaitHelper h c) s). discriminate. Qed.

Lemma engaged_tracked (bound : nat) (p : option nat) (s : session) :
  engaged bound s -> engaged bound (with_eksProcess p s).
Proof. exact (fun H => H). Qed.

Lemma engaged_abort (bound : nat) (message : string) (s : session) :
  ready s -> engaged bound (abort message s).
Proof.
  intros [Hp Ho]. apply (engaged_ended _ _ (frames s) (Ws.Error message)); [|reflexivity].
  unfold abort. now rewrite frames_cleanup, frames_close, frames_send, Ho.
Qed.

Lemma engaged_finish (bound : nat) (f : Ws.frame) (s : session) :
  Ws.is_terminal f = true -> ready s -> engaged bound (finish (send f s)).
Proof.
  intros Hf [Hp Ho]. apply (engaged_ended _ _ (frames s) f); [|exact Hf].
  unfold finish. now rewrite frames_cleanup, frames_wait, frames_send, Ho.
Qed.

Lemma engaged_stabilise (bound : nat) (c : context) (s : session) :
  (1 <= bound)%nat -> ready s -> engaged bound (stabilise c s).
Proof.
  intros Hb Hr. unfold stabilise. apply engaged_wait; [discriminate | exact Hb|].
  now apply ready_send.
Qed.

Create HintDb progress.
#[local] Hint Resolve ready_send ready_with_exited engaged_wait engaged_spawn
  engaged_call engaged_tracked engaged_abort engaged_finish engaged_stabilise
  : progress.
#[local] Hint Extern 1 (_ <> CloseTimer) => discriminate : progress.
#[local] Hint Extern 1 (_ <= _)%nat => cbn [rank]; lia : progress.

(** A handler run from [ready], branch by branch. *)
Ltac advance := split_flow; auto 8 with progress.

Lemma engaged_after_caller_identity (c : context) (arn : string) (s : session) :
  ready s -> engaged 9 (after_caller_identity c arn s).
Proof. intros Hr. unfold after_caller_identity. advance. Qed.

Lemma engaged_preflight_error (bound : nat) (message : string) (s : session) :
  ready s -> engaged bound (preflight_error message s).
Proof. intros Hr. unfold preflight_error. advance. Qed.

Lemma engaged_after_iam_simulation `{Runtime} (c : context) (out : string)
    (s : session) :
  ready s -> engaged 8 (after_iam_simulation c out s).
Proof.
  intros Hr. unfold after_iam_simulation.
  split_flow; auto 8 using engaged_preflight_error with progress.
Qed.

Lemma engaged_after_existence_check (c : context) (r : command_result) (s : session) :
  ready s -> engaged 7 (after_existence_check c r s).
Proof. intros Hr. unfold after_existence_check. advance. Qed.

Lemma engaged_after_stabilise (c : context) (s : session) :
  ready s -> engaged 0 (after_stabilise c s).
Proof. intros Hr. unfold after_stabilise. advance. Qed.

Lemma engaged_after_helper (h : helper) (c : context) (r : outcome hval)
    (s : session) :
  match h, r with
  | applyDefaultStorageClass, Thrown _ => False
  | _, _ => True
  end ->
  ready s -> engaged (rank (AwaitHelper h c) - 1) (after_helper h c r s).
Proof.
  intros Hreturns Hr. unfold after_helper.
  destruct r as [v|message]; destruct h; try (destruct Hreturns);
    cbn [rank Nat.sub]; advance.
Qed.

Lemma engaged_on_create_close (c : context) (code : option Z) (s : session) :
  ready s -> engaged 6 (on_create_close c code s).
Proof.
  intros [Hp Ho]. unfold on_create_close. rewrite open_with_exited, Ho.
  assert (Hr : ready (with_exited true s)) by (split; assumption).
  advance.
Qed.

Lemma engaged_on_delete_close (n : string) (code : option Z) (s : session) :
  ready s -> engaged 0 (on_delete_close n code s).
Proof.
  intros [Hp Ho]. unfold on_delete_close. rewrite open_with_exited, Ho.
  assert (Hr : ready (with_exited true s)) by (split; assumption).
  advance.
Qed.

Lemma engaged_on_eks_error (prefix message : string) (s : session) :
  is_open s = true -> engaged 0 (on_eks_error prefix message s).
Proof.
  intros Ho.
  apply (engaged_ended _ _ (frames s) (Ws.Error (prefix +:+ message))); [|reflexivity].
  unfold on_eks_error.
  now rewrite frames_cleanup, open_with_exited, Ho, frames_close, frames_send,
    open_with_exited, Ho, frames_with_exited.
Qed.

Lemma replace_single (id : nat) (k k' : cont) (s : session) :
  pending s = [(id, k)] -> pending (replace_cont id k' s) = [(id, k')].
Proof. intros Hp. unfold replace_cont. cbn. rewrite Hp. cbn. now rewrite Nat.eqb_refl. Qed.

(** One step keeps a command under way until its terminal frame, and the
    end of an awaited step leaves one step less. *)
Lemma step_engaged `{Runtime} (bound : nat) (s : session) (e : event) :
  orderly s -> engaged bound s ->
  undisturbed s e = true -> attended s e = true ->
  engaged (bound - (if ends_step s e then 1 else 0)) (step s e).
Proof.
  intros Hs He Hquiet Hatt.
  destruct (step_kept s e Hs Hquiet) as [_ Hsame].
  destruct Hs as [Hlen [Hlogs | [Hend _]]].
  2: { intros Hl. rewrite (Hsame Hend) in Hl. destruct (not_both _ Hl Hend). }
  destruct (He Hlogs) as [Ho (id0 & k0 & Hp0 & Hk0 & Hb0)].
  assert (Hkeep : engaged (bound - 0) s) by (now rewrite Nat.sub_0_r).
  destruct e as [m| |message|pid pe|id he|id]; unfold step.
  - discriminate.
  - cbn in Hatt. now rewrite Ho in Hatt.
  - cbn in Hquiet. now rewrite Ho in Hquiet.
  - unfold on_proc, ends_step.
    destruct (lookup_cont pid (pending s)) as [k|] eqn:L;
      [|destruct pe; exact Hkeep].
    destruct (lookup_single pid k (pending s) Hlen L) as [Hp Hrm].
    rewrite Hp in Hp0. injection Hp0 as <- <-.
    assert (Hr : ready (forget pid s))
      by (split; [now rewrite pending_forget | exact Ho]).
    destruct k; try (destruct pe; exact Hkeep);
      destruct pe as [from data|[code|message]];
      rewrite ?existence_check_data; cbn [rank] in *.
    all: try (eapply (engaged_shape _ _ pid);
              [rewrite ?open_send_if_open; exact Ho
              | rewrite ?pending_send_if_open; eapply replace_single; exact Hp
              | discriminate
              | cbn [rank]; lia]).
    all: try (eapply (engaged_shape _ _ pid);
              [rewrite open_send_if_open; exact Ho
              | rewrite pending_send_if_open; exact Hp
              | discriminate
              | cbn [rank]; lia]).
    all: try (apply (engaged_more 0); [lia | now apply engaged_on_eks_error]).
    all: try (destruct (execPromise_exit command b (Closed code)));
      try (destruct (execPromise_exit command b (SpawnFailed message))).
    all: try (apply (engaged_more 9); [lia | now apply engaged_after_caller_identity]).
    all: try (apply (engaged_more 8); [lia | now apply engaged_after_iam_simulation]).
    all: try (apply (engaged_more 7); [lia | now apply engaged_after_existence_check]).
    all: try (apply (engaged_more 6); [lia | now apply engaged_on_create_close]).
    all: try (apply (engaged_more 0); [lia | now apply engaged_on_delete_close]).
    all: now apply engaged_preflight_error.
  - unfold on_helper, ends_step.
    destruct (lookup_cont id (pending s)) as [k|] eqn:L;
      [|destruct he; exact Hkeep].
    destruct (lookup_single id k (pending s) Hlen L) as [Hp Hrm].
    rewrite Hp in Hp0. injection Hp0 as <- <-.
    assert (Hr : ready (forget id s))
      by (split; [now rewrite pending_forget | exact Ho]).
    destruct k; try (destruct he; exact Hkeep). destruct he as [data|r].
    + apply (engaged_shape _ _ id (AwaitHelper h c));
        [rewrite open_send; exact Ho | rewrite pending_send; exact Hp
        | discriminate | lia].
    + apply (engaged_more (rank (AwaitHelper h c) - 1)); [lia|].
      apply engaged_after_helper; [|exact Hr].
      cbn [attended] in Hatt. destruct r as [v|message]; destruct h; auto.
      rewrite L in Hatt. discriminate.
  - unfold on_timeout, ends_step.
    destruct (lookup_cont id (pending s)) as [k|] eqn:L; [|exact Hkeep].
    destruct (lookup_single id k (pending s) Hlen L) as [Hp Hrm].
    rewrite Hp in Hp0. injection Hp0 as <- <-.
    assert (Hr : ready (forget id s))
      by (split; [now rewrite pending_forget | exact Ho]).
    destruct k; try exact Hkeep.
    + apply (engaged_more 0); [lia | now apply engaged_after_stabilise].
    + congruence.
Qed.

Lemma first_command_engaged `{Runtime} (m : inbound) :
  m <> OtherCommand -> engaged 10 (step init (Message m)).
Proof.
  intros Hm. assert (Hr : ready init) by (split; reflexivity).
  destruct m as [p|n r| |message]; unfold step, on_message.
  - unfold on_create. auto 8 with progress.
  - unfold on_delete. auto 8 with progress.
  - congruence.
  - change (is_open init) with true. cbv iota.
    apply (engaged_ended _ _ [] (Ws.Error ("Invalid message format: " +:+ message)));
      reflexivity.
Qed.

Lemma run_engaged `{Runtime} (trace : list event) (bound : nat) (s : session) :
  orderly s -> engaged bound s -> calm s trace = true -> stays s trace = true ->
  engaged (bound - steps_ended s trace) (run s trace).
Proof.
  revert bound s.
  induction trace as [|e trace IH]; intros bound s Hs He Hcalm Hstays.
  - cbn. now rewrite Nat.sub_0_r.
  - cbn [calm stays steps_ended] in *.
    apply andb_prop in Hcalm as [Hq Hcalm]. apply andb_prop in Hstays as [Ha Hstays].
    rewrite run_cons, Nat.sub_add_distr. apply IH; auto.
    + now destruct (step_kept s e Hs Hq).
    + now apply step_engaged.
Qed.

(** C2, amended. On a connection that receives one command message, and on
    which a socket ['error'] event is raised only once the socket has left
    the open state, the frames sent are zero or more log frames followed by
    at most one terminal frame ([complete] or [error]); a terminal frame is
    the last frame: whatever happens later on the connection sends nothing
    after it.  When moreover the command is a [create] or a [delete] (or
    cannot be read), the client stays until the server closes the socket
    and [applyDefaultStorageClass] returns, then exactly one terminal
    frame has been sent unless a step of the command is still awaited on
    the open socket; and no more than ten awaited steps end before the
    terminal frame. *)
Theorem single_command_frames `{Runtime} (m : inbound) (trace later : list event) :
  calm (step init (Message m)) (trace ++ later) = true ->
  let s := run init (Message m :: trace) in
  (exists texts,
      frames s = List.map Ws.Log texts
      \/ (exists t, Ws.is_terminal t = true
                    /\ frames s = (List.map Ws.Log texts ++ [t])%list
                    /\ frames (run init (Message m :: trace ++ later)) = frames s))
  /\ (m <> OtherCommand ->
      stays (step init (Message m)) trace = true ->
      (exists texts t, Ws.is_terminal t = true
                       /\ frames s = (List.map Ws.Log texts ++ [t])%list)
      \/ (is_open s = true
          /\ (exists texts, frames s = List.map Ws.Log texts)
          /\ exists id k,
               pending s = [(id, k)] /\ k <> CloseTimer
               /\ (steps_ended (step init (Message m)) trace + rank k <= 10)%nat)).
Proof.
  intros Hcalm s. rewrite calm_app in Hcalm.
  apply andb_prop in Hcalm as [Htrace Hlater].
  destruct (run_kept trace (step init (Message m)) (first_command_orderly m) Htrace)
    as [Hs _].
  destruct (run_kept later _ Hs Hlater) as [_ Hsame].
  change (run (step init (Message m)) trace) with s in *.
  split.
  - destruct Hs as [_ [Hlogs | [Hend _]]].
    + destruct (all_logs_are_logs (frames s) Hlogs) as [texts ->]. exists texts. now left.
    + pose proof Hend as (logs & t & Hfs & Hlogs & Ht).
      destruct (all_logs_are_logs logs Hlogs) as [texts ->].
      exists texts. right. exists t. repeat split; auto.
      rewrite app_comm_cons, run_app. now apply Hsame.
  - intros Hm Hstays.
    pose proof (run_engaged trace 10 (step init (Message m)) (first_command_orderly m)
                  (first_command_engaged m Hm) Htrace Hstays) as He.
    change (run (step init (Message m)) trace) with s in He.
    destruct Hs as [_ [Hlogs | [Hend _]]].
    + right. destruct (He Hlogs) as [Ho (id & k & Hp & Hk & Hb)].
      split; [exact Ho|]. split; [now apply all_logs_are_logs|].
      exists id, k. repeat split; auto.
      assert (1 <= rank k)%nat by (destruct k; try destruct h; cbn; try lia; congruence).
      lia.
    + left. destruct Hend as (logs & t & Hfs & Hlogs & Ht).
      destruct (all_logs_are_logs logs Hlogs) as [texts ->]. now exists texts, t.
Qed.

Lemma single_command_frames_witness :
  let trace := [Proc 0 (Data StdoutStream caller_arn);
                Proc 0 (Exit (Closed (Some 0)));
                Proc 1 (Data StdoutStream (simulation_text all_allowed));
                Proc 1 (Exit (Closed (Some 0)));
                Proc 2 (Data StderrStream "Error: ResourceNotFoundException: No cluster found");
                Proc 2 (Exit (Closed (Some 1)));
                Proc 3 (Data StdoutStream "creating cluster");
                Proc 3 (Exit (Closed (Some 0)));
                Helper 4 (HelperLog "default StorageClass applied");
                Helper 4 (HelperEnd (Returned HUndefined));
                Timeout 5] in
  let later := [Proc 3 (Data StdoutStream "late output"); Timeout 6; WsClose] in
  let s := @run example_runtime init (Message (Create my_cluster) :: trace) in
  pending s = [(6%nat, CloseTimer)]
  /\ List.last (frames s) (Ws.Log EmptyString)
     = Ws.Complete "Cluster 'my-cluster' and all selected add-ons created successfully."
  /\ frames (@run example_runtime init (Message (Create my_cluster) :: trace ++ later))
     = frames s
  /\ exists texts t, Ws.is_terminal t = true
                     /\ frames s = (List.map Ws.Log texts ++ [t])%list.
Proof.
  cbn zeta.
  assert (Hcalm : @calm example_runtime
                    (@step example_runtime init (Message (Create my_cluster)))
                    ([Proc 0 (Data StdoutStream caller_arn);
                      Proc 0 (Exit (Closed (Some 0)));
                      Proc 1 (Data StdoutStream (simulation_text all_allowed));
                      Proc 1 (Exit (Closed (Some 0)));
                      Proc 2 (Data StderrStream "Error: ResourceNotFoundException: No cluster found");
                      Proc 2 (Exit (Closed (Some 1)));
                      Proc 3 (Data StdoutStream "creating cluster");
                      Proc 3 (Exit (Closed (Some 0)));
                      Helper 4 (HelperLog "default StorageClass applied");
                      Helper 4 (HelperEnd (Returned HUndefined));
                      Timeout 5]
                     ++ [Proc 3 (Data StdoutStream "late output"); Timeout 6; WsClose])
                  = true) by (vm_compute; reflexivity).
  destruct (@single_command_frames example_runtime (Create my_cluster) _ _ Hcalm)
    as [_ Hexact].
  split; [vm_compute; reflexivity|]. split; [vm_compute; reflexivity|].
  split; [vm_compute; reflexivity|].
  destruct Hexact as [Hdone | (_ & _ & id & k & Hp & Hk & _)].
  - discriminate.
  - vm_compute. reflexivity.
  - exact Hdone.
  - exfalso. vm_compute in Hp. injection Hp as _ <-. now apply Hk.
Defined.

(** C2 as stated fails. Two [delete] commands on one connection: the second
    child's exit sends [complete], and within the second before the socket
    is closed the first child's exit sends [complete] again, or its output a
    log frame after the terminal frame.  And a client that leaves before
    the child exits gets log frames and no terminal frame. *)
Lemma two_commands_two_terminal_frames :
  let run := @run example_runtime in
  let two := [Message (Delete "a" "us-east-1"); Message (Delete "b" "us-east-1")] in
  frames (run init (two ++ [Proc 1 (Exit (Closed (Some 0)));
                            Proc 0 (Exit (Closed (Some 0)))])%list)
  = [Ws.Complete "Cluster 'b' deleted successfully.";
     Ws.Complete "Cluster 'a' deleted successfully."]
  /\ frames (run init (two ++ [Proc 1 (Exit (Closed (Some 0)));
                               Proc 0 (Data StdoutStream "deleting stack")])%list)
     = [Ws.Complete "Cluster 'b' deleted successfully."; Ws.Log "deleting stack"]
  /\ frames (run init [Message (Delete "a" "us-east-1");
                       Proc 0 (Data StdoutStream "deleting stack");
                       WsClose;
                       Proc 0 (Exit (Closed (Some 0)))])
     = [Ws.Log "deleting stack"].
Proof. vm_compute. repeat split. Qed.

(** ** The flag [eksProcessExited] *)

(** The event is the end of an eksctl child of the connection: the exit,
    or the failure to spawn, of a child whose listeners are attached. *)
Definition eksctl_ends (s : session) (e : event) : bool :=
  match e with
  | Proc pid (Exit _) =>
      match lookup_cont pid (pending s) with
      | Some (EksCreateListeners _ | EksDeleteListeners _) => true
      | _ => false
      end
  | _ => false
  end.

(** An eksctl child of the connection ends in the course of [trace], which
    starts in [s]. *)
Fixpoint eksctl_ended `{Runtime} (s : session) (trace : list event) : bool :=
  match trace with
  | [] => false
  | e :: rest => eksctl_ends s e || eksctl_ended (step s e) rest
  end.

Ltac same_flag := split_flow; reflexivity.

Lemma exited_cleanup (s : session) :
  eksProcessExited (cleanupEksProcessResources s) = eksProcessExited s.
Proof. unfold cleanupEksProcessResources. same_flag. Qed.

Lemma exited_abort (message : string) (s : session) :
  eksProcessExited (abort message s) = eksProcessExited s.
Proof. unfold abort. now rewrite exited_cleanup. Qed.

Lemma exited_preflight_error (message : string) (s : session) :
  eksProcessExited (preflight_error message s) = eksProcessExited s.
Proof. apply exited_abort. Qed.

Lemma exited_after_iam_simulation `{Runtime} (c : context) (out : string) (s : session) :
  eksProcessExited (after_iam_simulation c out s) = eksProcessExited s.
Proof.
  unfold after_iam_simulation.
  split_flow; rewrite ?exited_preflight_error, ?exited_abort; reflexivity.
Qed.

Lemma exited_after_existence_check (c : context) (r : command_result) (s : session) :
  eksProcessExited (after_existence_check c r s) = eksProcessExited s.
Proof.
  unfold after_existence_check. split_flow; rewrite ?exited_abort; reflexivity.
Qed.

Lemma exited_finish (s : session) : eksProcessExited (finish s) = eksProcessExited s.
Proof. unfold finish. now rewrite exited_cleanup. Qed.

Lemma exited_after_helper (h : helper) (c : context) (r : outcome hval) (s : session) :
  eksProcessExited (after_helper h c r s) = eksProcessExited s.
Proof. unfold after_helper, stabilise. same_flag. Qed.

Lemma exited_on_create_close (c : context) (code : option Z) (s : session) :
  eksProcessExited (on_create_close c code s) = true.
Proof.
  unfold on_create_close. split_flow; rewrite ?exited_finish, ?exited_cleanup; reflexivity.
Qed.

Lemma exited_on_delete_close (n : string) (code : option Z) (s : session) :
  eksProcessExited (on_delete_close n code s) = true.
Proof.
  unfold on_delete_close. split_flow; rewrite ?exited_finish, ?exited_cleanup; reflexivity.
Qed.

Lemma exited_on_eks_error (prefix message : string) (s : session) :
  eksProcessExited (on_eks_error prefix message s) = true.
Proof. unfold on_eks_error. rewrite exited_cleanup. same_flag. Qed.

(** The flag is set by the end of an eksctl child and by nothing else, and
    nothing resets it. *)
Lemma exited_step `{Runtime} (s : session) (e : event) :
  eksProcessExited (step s e) = eksProcessExited s || eksctl_ends s e.
Proof.
  destruct e as [m| |message|pid pe|id he|id]; unfold step;
    cbn [eksctl_ends]; rewrite ?orb_false_r.
  - destruct m; unfold on_message, on_create, on_delete; same_flag.
  - unfold on_ws_close. now rewrite exited_cleanup.
  - unfold on_ws_error. split_flow; cbn; now rewrite exited_cleanup.
  - unfold on_proc.
    destruct (lookup_cont pid (pending s)) as [k|]; [|now destruct pe; rewrite orb_false_r].
    destruct k; destruct pe as [from data|[code|message]];
      rewrite ?orb_false_r, ?orb_true_r, ?existence_check_data,
        ?exited_on_create_close, ?exited_on_delete_close, ?exited_on_eks_error,
        ?exited_after_existence_check;
      try reflexivity;
      split_flow;
      rewrite ?exited_after_iam_simulation, ?exited_preflight_error;
      reflexivity.
  - unfold on_helper. split_flow; rewrite ?exited_after_helper; reflexivity.
  - unfold on_timeout, after_stabilise.
    split_flow; rewrite ?exited_finish; reflexivity.
Qed.

Lemma exited_run `{Runtime} (trace : list event) (s : session) :
  eksProcessExited (run s trace) = eksProcessExited s || eksctl_ended s trace.
Proof.
  revert s. induction trace as [|e trace IH]; intros s; cbn [eksctl_ended].
  - cbn. now rewrite orb_false_r.
  - rewrite run_cons, IH, exited_step. now rewrite orb_assoc.
Qed.

(** C1, amended. On a connection that tracks an eksctl child, and on which
    no eksctl child has ended before, so that the tracked one is running:
    when the socket closes, the handler detaches the child's listeners,
    sends it SIGKILL and drops the reference.  The child does not run to
    completion, and nothing it emits afterwards reaches the handlers or the
    client. *)
Theorem ws_close_kills_live_child `{Runtime} (trace : list event) (p : nat) :
  let s := run init trace in
  eksProcess s = Some p ->
  eksctl_ended init trace = false ->
  let s' := step s WsClose in
  killed s' = (killed s ++ [p])%list
  /\ eksProcess s' = None
  /\ lookup_cont p (pending s') = None
  /\ frames s' = frames s
  /\ is_open s' = false
  /\ spawned s' = spawned s
  /\ (forall e, step s' (Proc p e) = s').
Proof.
  cbn zeta. intros Hp Hnone. apply close_kills_tracked; [exact Hp|].
  rewrite exited_run, Hnone. reflexivity.
Qed.

Lemma ws_close_kills_live_child_witness :
  let s := @run example_runtime init
             [Message (Delete "demo" "us-east-1");
              Proc 0 (Data StdoutStream "deleting stack")] in
  eksProcess s = Some 0%nat
  /\ killed (@step example_runtime s WsClose) = [0%nat]
  /\ @step example_runtime (@step example_runtime s WsClose)
       (Proc 0 (Exit (Closed (Some 0))))
     = @step example_runtime s WsClose.
Proof.
  pose proof (@ws_close_kills_live_child example_runtime
                [Message (Delete "demo" "us-east-1");
                 Proc 0 (Data StdoutStream "deleting stack")]
                0%nat eq_refl eq_refl) as (Hk & _ & _ & _ & _ & _ & Hq).
  split; [reflexivity|]. split; [exact Hk | apply Hq].
Defined.

End WsHandlersSpec.

(* ===================================================================== *)
(** * The cache over a sequence of operations *)
(* ===================================================================== *)

Module CacheHistory.
Import Js JsValue Cache CacheSpec.

(** The calls a cache sees. *)
Inductive operation :=
| SetData (key : string) (d : option json) (now : Z)
| ClearItem (key : string)
| ClearAll.

(** One call; a [TypeError] out of [clearAllCache] leaves the cache as the
    loop had it by then. *)
Definition perform (cache : store) (o : operation) : store :=
  match o with
  | SetData key d now => setCacheData cache now key d
  | ClearItem key => clearCacheItem cache key
  | ClearAll => fst (clearAllCache cache)
  end.

(** The cache after the calls [history], oldest first, from the start of
    the process. *)
Definition replay (history : list operation) : store :=
  List.fold_left perform history empty.

(** What the most recent call that concerns [key] left of it; the calls
    are given latest first. *)
Fixpoint latest (key : string) (latest_first : list operation) : option entry :=
  match latest_first with
  | [] => None
  | SetData k d now :: older =>
      if String.eqb k key then Some {| data := d; timestamp := now |}
      else latest key older
  | ClearItem k :: older => if String.eqb k key then None else latest key older
  | ClearAll :: _ => None
  end.

(** The call stores nothing under [__proto__], which the cache object does
    not keep as a property of its own, nor under [hasOwnProperty], which
    the loop of [clearAllCache] calls. *)
Definition plain_key (o : operation) : bool :=
  match o with
  | SetData key _ _ =>
      negb (String.eqb key "__proto__") && negb (String.eqb key "hasOwnProperty")
  | ClearItem _ | ClearAll => true
  end.

Lemma replay_snoc (history : list operation) (o : operation) :
  replay (history ++ [o]) = perform (replay history) o.
Proof. unfold replay. now rewrite List.fold_left_app. Qed.

(** ** The order of [for-in] loses no key *)

Lemma insert_index_In (k x : string) (sorted : list string) :
  List.In k (insert_index x sorted) <-> k = x \/ List.In k sorted.
Proof.
  induction sorted as [|y sorted IH]; cbn [insert_index].
  - cbn. intuition.
  - destruct (decimal_value 0 x <=? decimal_value 0 y)%N; cbn [List.In].
    + intuition.
    + rewrite IH. intuition.
Qed.

Lemma sort_indices_In (k : string) (keys : list string) :
  List.In k (sort_indices keys) <-> List.In k keys.
Proof.
  unfold sort_indices. induction keys as [|x keys IH]; cbn [List.fold_right].
  - reflexivity.
  - rewrite insert_index_In, IH. cbn. intuition.
Qed.

Lemma enumeration_order_In (k : string) (keys : list string) :
  List.In k keys -> List.In k (enumeration_order keys).
Proof.
  intros Hk. unfold enumeration_order. apply List.in_or_app.
  destruct (is_index k) eqn:E.
  - left. apply sort_indices_In, List.filter_In. auto.
  - right. apply List.filter_In. now rewrite E.
Qed.

Lemma get_own_key (k : string) (e : entry) (l : list (string * entry)) :
  get_own k l = Some e -> List.In k (List.map fst l).
Proof.
  induction l as [|[k' e'] l IH]; cbn [get_own List.map fst List.In]; [discriminate|].
  destruct (String.eqb_spec k' k); auto.
Qed.

Lemma named_In (k : string) (keys : list string) :
  List.In k keys -> existsb (String.eqb k) keys = true.
Proof.
  intros Hk. apply List.existsb_exists. exists k. split; [exact Hk|].
  apply String.eqb_refl.
Qed.

(** ** [clearAllCache] on a cache no call has tampered with *)

Lemma clear_each_plain (keys : list string) :
  forall cache : store,
    prototype cache = None ->
    get_own "hasOwnProperty" (own cache) = None ->
    let r := clear_each keys cache in
    snd r = None
    /\ prototype (fst r) = None
    /\ forall k, get_own k (own (fst r))
                 = if existsb (String.eqb k) keys then None else get_own k (own cache).
Proof.
  induction keys as [|key keys IH]; intros cache Hproto Hmethod; cbn zeta.
  - cbn. auto.
  - assert (Hl : lookup cache "hasOwnProperty" = Builtin "hasOwnProperty")
      by (unfold lookup; now rewrite Hmethod, Hproto).
    cbn [clear_each]. rewrite Hl.
    set (next := if has_own key cache then clearCacheItem cache key else cache).
    assert (Hnext : forall k, get_own k (own next)
                              = if String.eqb k key then None else get_own k (own cache)).
    { intros k. subst next. unfold has_own.
      destruct (get_own key (own cache)) as [e|] eqn:E; cbn [clearCacheItem own].
      - destruct (String.eqb_spec k key) as [->|Hk].
        + apply get_own_remove_same.
        + now apply get_own_remove_other.
      - destruct (String.eqb_spec k key) as [->|Hk]; [exact E | reflexivity]. }
    assert (Hp : prototype next = None).
    { subst next. now destruct (has_own key cache). }
    assert (Hm : get_own "hasOwnProperty" (own next) = None).
    { rewrite Hnext. now destruct (String.eqb "hasOwnProperty" key). }
    destruct (IH next Hp Hm) as (Herr & Hproto' & Hown). cbn zeta in *.
    repeat split; auto.
    intros k. rewrite Hown, Hnext. cbn [existsb].
    destruct (String.eqb k key); cbn [orb]; [|reflexivity].
    now destruct (existsb (String.eqb k) keys).
Qed.

Lemma clear_all_plain (cache : store) :
  prototype cache = None ->
  get_own "hasOwnProperty" (own cache) = None ->
  snd (clearAllCache cache) = None
  /\ prototype (fst (clearAllCache cache)) = None
  /\ forall k, get_own k (own (fst (clearAllCache cache))) = None.
Proof.
  intros Hproto Hmethod. unfold clearAllCache.
  destruct (clear_each_plain (visited cache) cache Hproto Hmethod) as (Herr & Hp & Hown).
  cbn zeta in *. repeat split; auto.
  intros k. rewrite Hown. unfold visited. rewrite Hproto, app_nil_r.
  destruct (get_own k (own cache)) as [e|] eqn:E.
  - now rewrite (named_In k _ (enumeration_order_In k _ (get_own_key k e _ E))).
  - now destruct (existsb _ _).
Qed.

(** ** The cache after a history of plain keys *)

Lemma replay_plain (history : list operation) :
  forallb plain_key history = true ->
  prototype (replay history) = None
  /\ get_own "hasOwnProperty" (own (replay history)) = None
  /\ forall key, get_own key (own (replay history)) = latest key (List.rev history).
Proof.
  induction history as [|o history IH] using List.rev_ind; intros Hplain.
  - cbn. auto.
  - rewrite List.forallb_app in Hplain. apply andb_prop in Hplain as [Hh Ho].
    cbn [forallb] in Ho. rewrite andb_true_r in Ho.
    destruct (IH Hh) as (Hproto & Hmethod & Hown).
    rewrite replay_snoc, List.rev_app_distr. cbn [List.rev List.app latest].
    destruct o as [k d now|k|]; cbn [perform].
    + cbn [plain_key] in Ho. apply andb_prop in Ho as [Hk1 Hk2].
      apply negb_true_iff in Hk1, Hk2.
      unfold setCacheData. rewrite Hk1, andb_false_r. cbn [own prototype].
      assert (Hset : forall key,
                 get_own key (set_own k {| data := d; timestamp := now |}
                                (own (replay history)))
                 = if String.eqb k key then Some {| data := d; timestamp := now |}
                   else latest key (List.rev history)).
      { intros key. destruct (String.eqb_spec k key) as [->|Hne].
        - apply get_own_set_same.
        - rewrite get_own_set_other by congruence. apply Hown. }
      repeat split; auto. rewrite Hset, Hk2. now rewrite <- Hown.
    + cbn [clearCacheItem own prototype].
      assert (Hdel : forall key,
                 get_own key (remove_own k (own (replay history)))
                 = if String.eqb k key then None else latest key (List.rev history)).
      { intros key. destruct (String.eqb_spec k key) as [->|Hne].
        - apply get_own_remove_same.
        - rewrite get_own_remove_other by congruence. apply Hown. }
      repeat split; auto. rewrite Hdel.
      destruct (String.eqb k "hasOwnProperty"); [reflexivity | now rewrite <- Hown].
    + destruct (clear_all_plain (replay history) Hproto Hmethod) as (_ & Hp & Hnone).
      repeat split; auto.
Qed.

(** X1. After any sequence of [setCacheData], [clearCacheItem] and
    [clearAllCache] calls that stores nothing under the names [__proto__]
    and [hasOwnProperty], [getCachedData] is decided by the latest call
    that concerns the key.  After a set it gives the data of that set, as
    long as its time stamp is not older than [ttl] and no refresh is
    forced, and [null] otherwise.  After a clear (of the key or of
    everything), or when the key was never set, it gives what a new cache
    gives, which is never data: [null], or [undefined] for a key that
    names a member of [Object.prototype]. *)
Theorem cache_serves_latest_write `{Runtime} (history : list operation)
    (key : string) (now ttl : Z) (forceRefresh : jsflag) :
  forallb plain_key history = true ->
  getCachedData (replay history) now key ttl forceRefresh
  = match latest key (List.rev history) with
    | Some e =>
        if flag_truthy forceRefresh || (now - timestamp e >? ttl)
        then Some JNull else data e
    | None => getCachedData empty now key ttl forceRefresh
    end
  /\ truthy_field (getCachedData empty now key ttl forceRefresh) = false.
Proof.
  intros Hplain. destruct (replay_plain history Hplain) as (Hproto & _ & Hown).
  split; [|apply nothing_inherited; auto].
  destruct (latest key (List.rev history)) as [e|] eqn:E.
  - apply get_entry, lookup_own. now rewrite Hown.
  - unfold getCachedData, lookup. now rewrite Hown, E, Hproto.
Qed.

Lemma cache_serves_latest_write_witness :
  let history := [SetData "pods-list-default" (Some (JArray [JString "web-1"])) 1000;
                  SetData "toString" (Some (JString "shadow")) 1200;
                  ClearItem "toString";
                  SetData "nodes-count" (Some (JNumber "3")) 2000;
                  ClearAll;
                  SetData "pods-list-default" (Some (JArray [JString "web-2"])) 3000] in
  @getCachedData Examples.example_runtime (replay history) 8000 "pods-list-default"
    5000 FlagUndefined = Some (JArray [JString "web-2"])
  /\ @getCachedData Examples.example_runtime (replay history) 8001 "pods-list-default"
       5000 FlagUndefined = Some JNull
  /\ @getCachedData Examples.example_runtime (replay history) 8000 "nodes-count"
       5000 FlagUndefined = Some JNull
  /\ @getCachedData Examples.example_runtime (replay history) 8000 "toString"
       5000 FlagUndefined = None.
Proof.
  cbn zeta.
  pose proof (fun key now =>
                proj1 (@cache_serves_latest_write Examples.example_runtime
                         [SetData "pods-list-default" (Some (JArray [JString "web-1"])) 1000;
                          SetData "toString" (Some (JString "shadow")) 1200;
                          ClearItem "toString";
                          SetData "nodes-count" (Some (JNumber "3")) 2000;
                          ClearAll;
                          SetData "pods-list-default" (Some (JArray [JString "web-2"])) 3000]
                         key now 5000 FlagUndefined eq_refl)) as Hserved.
  repeat split; rewrite Hserved; reflexivity.
Defined.

(** X2. [clearCacheItem] makes the cache give no data for the key it is
    given, whatever the time, the ttl and the flag, and changes the answer
    for no other key.  The first part needs the key not to be inherited
    from a replaced prototype: the prototype is the original one, or the
    key is none of [__proto__], [data] and [timestamp]. *)
Theorem clear_item_forgets_only_that_key `{Runtime} (cache : store)
    (key : string) (now ttl : Z) (forceRefresh : jsflag) :
  prototype cache = None \/ ~ List.In key ["__proto__"; "data"; "timestamp"] ->
  truthy_field (getCachedData (clearCacheItem cache key) now key ttl forceRefresh)
  = false
  /\ forall other : string,
       other <> key ->
       getCachedData (clearCacheItem cache key) now other ttl forceRefresh
       = getCachedData cache now other ttl forceRefresh.
Proof.
  intros Hplain. split.
  - apply nothing_inherited; [apply get_own_remove_same | exact Hplain].
  - intros other Hne. unfold getCachedData, lookup, clearCacheItem.
    cbn [own prototype]. now rewrite get_own_remove_other.
Qed.

Lemma clear_item_forgets_only_that_key_witness :
  let cache := setCacheData (setCacheData empty 1000 "pods-list-default"
                               (Some (JArray [JString "web-1"])))
                 1000 "nodes-count" (Some (JNumber "3")) in
  @getCachedData Examples.example_runtime (clearCacheItem cache "nodes-count") 1500
    "nodes-count" 5000 FlagUndefined = Some JNull
  /\ @getCachedData Examples.example_runtime (clearCacheItem cache "nodes-count") 1500
       "pods-list-default" 5000 FlagUndefined = Some (JArray [JString "web-1"]).
Proof.
  cbn zeta.
  destruct (@clear_item_forgets_only_that_key Examples.example_runtime
              (setCacheData (setCacheData empty 1000 "pods-list-default"
                               (Some (JArray [JString "web-1"])))
                 1000 "nodes-count" (Some (JNumber "3")))
              "nodes-count" 1500 5000 FlagUndefined (or_introl eq_refl))
    as [_ Hother].
  split; [reflexivity|]. rewrite Hother by discriminate. reflexivity.
Defined.

End CacheHistory.

(* ===================================================================== *)
(** * The cached read of cluster details *)
(* ===================================================================== *)

Module RoutesFacts.
Import JsString Js JsValue KubectlUtils Cache Routes.
Import JsStringFacts KubectlUtilsSpec CacheSpec.

Lemma present_some (s : string) : present (Some s) = JsString.truthy s.
Proof. reflexivity. Qed.

(** The key of the route carries a prefix: it is not [__proto__]. *)
Lemma details_key_plain (clusterName region : string) :
  details_key clusterName region <> "__proto__".
Proof. unfold details_key. cbn. discriminate. Qed.

(** X3. When the cache has nothing to serve and [aws eks describe-cluster]
    exits with a code other than 0 after writing to stderr, the route
    answers 500: [details] is the trimmed stderr (["Unknown error"] when
    stderr was blank), [error] is
    ["Failed to get cluster details '<name>': <details>"]; the cache is
    left as it was. *)
Theorem details_failure_reported_and_not_cached `{Runtime}
    (clusterName region : string) (forceRefresh : option string)
    (cache : store) (now later : Z)
    (chunks : list (stream * string)) (code : option Z) :
  JsString.truthy clusterName = true ->
  JsString.truthy region = true ->
  truthy_field
    (getCachedData cache now (details_key clusterName region) EKS_CLUSTERS_TTL
       (flag_of forceRefresh)) = false ->
  is_zero code = false ->
  JsString.truthy (collected StderrStream chunks) = true ->
  let h := eks_cluster_details (Some clusterName) (Some region) forceRefresh
             cache now (chunks, Closed code) later in
  let details := or_else (trim (collected StderrStream chunks)) "Unknown error" in
  answer h = Some (Problem 500
                     ("Failed to get cluster details '" +:+ clusterName +:+ "': "
                      +:+ details)
                     (Some details))
  /\ cache_after h = cache
  /\ ran h = [spawn_of_command (details_command clusterName region) None].
Proof.
  intros Hc Hr Hmiss Hcode Herr. cbn zeta.
  unfold eks_cluster_details. rewrite !present_some, Hc, Hr.
  cbn [negb orb text_of].
  assert (Hfetch : forall h : handled,
             match getCachedData cache now (details_key clusterName region)
                     EKS_CLUSTERS_TTL (flag_of forceRefresh) with
             | Some d =>
                 if truthy d
                 then {| answer := Some (Value 200 d); cache_after := cache; ran := [] |}
                 else h
             | None => h
             end = h).
  { intros h. destruct (getCachedData cache now _ _ _) as [d|]; [|reflexivity].
    cbn [truthy_field] in Hmiss. now rewrite Hmiss. }
  rewrite Hfetch.
  unfold fetch_details, awaited, execPromise, execPromise_exit. cbn [fst snd].
  rewrite Hcode. destruct (accumulate_all_collected chunks) as [_ ->].
  unfold or_else at 1. rewrite Herr.
  unfold handleKubectlError. cbn [snd answer cache_after ran]. rewrite Hc.
  split; [|auto]. rewrite !append_assoc. reflexivity.
Qed.

Lemma details_failure_reported_and_not_cached_witness :
  let h := @eks_cluster_details Examples.example_runtime (Some "prod") (Some "eu-west-1")
             None empty 0 ([(StderrStream, "cluster not found" +:+ nl)], Closed (Some 254)) 5 in
  answer h = Some (Problem 500 "Failed to get cluster details 'prod': cluster not found"
                     (Some "cluster not found"))
  /\ cache_after h = empty.
Proof.
  destruct (@details_failure_reported_and_not_cached Examples.example_runtime
              "prod" "eu-west-1" None empty 0 5
              [(StderrStream, "cluster not found" +:+ nl)] (Some 254)
              eq_refl eq_refl eq_refl eq_refl eq_refl) as (Ha & Hk & _).
  split; [exact Ha | exact Hk].
Defined.

(** X4. Details that the route fetched and answered are served again from
    the cache: a second request for the same cluster and region, without
    [forceRefresh] and no later than 60 s after the first one stored its
    answer, gets the same value, runs no command and leaves the cache
    alone. *)
Theorem details_served_from_cache_within_ttl `{Runtime}
    (clusterName region : string) (forceRefresh : option string)
    (cache : store) (now later now2 later2 : Z)
    (c c2 : child) (v : json) :
  JsString.truthy clusterName = true ->
  JsString.truthy region = true ->
  let h := eks_cluster_details (Some clusterName) (Some region) forceRefresh
             cache now c later in
  answer h = Some (Value 200 v) ->
  ran h <> [] ->
  JsValue.truthy v = true ->
  now2 - later <= EKS_CLUSTERS_TTL ->
  let h2 := eks_cluster_details (Some clusterName) (Some region) None
              (cache_after h) now2 c2 later2 in
  answer h2 = Some (Value 200 v) /\ ran h2 = [] /\ cache_after h2 = cache_after h.
Proof.
  intros Hc Hr. cbn zeta. intros Ha Hran Hv Hfresh.
  assert (Hstored : lookup
                      (cache_after
                         (eks_cluster_details (Some clusterName) (Some region)
                            forceRefresh cache now c later))
                      (details_key clusterName region)
                    = Entry {| data := Some v; timestamp := later |}).
  { revert Ha Hran. unfold eks_cluster_details.
    rewrite !present_some, Hc, Hr. cbn [negb orb text_of].
    assert (Hfetch : answer (fetch_details clusterName region cache c later)
                     = Some (Value 200 v) ->
                     lookup (cache_after (fetch_details clusterName region cache c later))
                       (details_key clusterName region)
                     = Entry {| data := Some v; timestamp := later |}).
    { unfold fetch_details, handleKubectlError.
      destruct (awaited _ c) as [stdout|m]; cbn [answer snd]; [|discriminate].
      destruct (parseAndHandleJson stdout _) as [d|m]; cbn [answer cache_after snd];
        [|discriminate].
      intros [= ->]. apply lookup_set_same, details_key_plain. }
    destruct (getCachedData cache now _ _ _) as [d|]; [|auto].
    destruct (JsValue.truthy d); [|auto].
    cbn [ran]. congruence. }
  set (stored := cache_after (eks_cluster_details (Some clusterName) (Some region)
                                forceRefresh cache now c later)) in *.
  clearbody stored. unfold eks_cluster_details.
  rewrite !present_some, Hc, Hr. cbn [negb orb text_of flag_of].
  rewrite (get_entry stored now2 _ _ _ _ Hstored). cbn [flag_truthy orb timestamp data].
  replace (now2 - later >? EKS_CLUSTERS_TTL) with false
    by (symmetry; rewrite Z.gtb_ltb; apply Z.ltb_ge; lia).
  rewrite Hv. auto.
Qed.

Definition details_child : child :=
  ([(StdoutStream, Examples.cache_miss_output)], Closed (Some 0)).

Lemma details_served_from_cache_within_ttl_witness :
  let h := @eks_cluster_details Examples.example_runtime (Some "prod") (Some "eu-west-1")
             None empty 1000 details_child 1500 in
  let h2 := @eks_cluster_details Examples.example_runtime (Some "prod") (Some "eu-west-1")
              None (cache_after h) 61500 details_child 62000 in
  answer h2 = Some (Value 200 (JObject [("a", JNumber "1")])) /\ ran h2 = [].
Proof.
  destruct (@details_served_from_cache_within_ttl Examples.example_runtime
              "prod" "eu-west-1" None empty 1000 1500 61500 62000
              details_child details_child (JObject [("a", JNumber "1")])
              eq_refl eq_refl) as (Ha & Hr & _).
  - vm_compute. reflexivity.
  - vm_compute. discriminate.
  - reflexivity.
  - vm_compute. discriminate.
  - split; [exact Ha | exact Hr].
Defined.

(** X5. Any non-empty [forceRefresh] text in the query string bypasses the
    cache, [forceRefresh=false] and [forceRefresh=0] included: the route
    runs [aws eks describe-cluster] again whatever the cache holds. *)
Theorem any_refresh_text_reruns_the_command `{Runtime}
    (clusterName region text : string)
    (cache : store) (now later : Z) (c : child) :
  JsString.truthy clusterName = true ->
  JsString.truthy region = true ->
  text <> EmptyString ->
  ran (eks_cluster_details (Some clusterName) (Some region) (Some text)
         cache now c later)
  = [spawn_of_command (details_command clusterName region) None].
Proof.
  intros Hc Hr Ht. unfold eks_cluster_details.
  rewrite !present_some, Hc, Hr. cbn [negb orb text_of flag_of].
  assert (Hmiss : getCachedData cache now (details_key clusterName region)
                    EKS_CLUSTERS_TTL (FlagString text) = Some JNull).
  { apply get_forced. cbn [flag_truthy]. destruct text; [congruence | reflexivity]. }
  rewrite Hmiss. cbn [truthy]. unfold fetch_details.
  destruct (awaited _ c); [|reflexivity].
  destruct (parseAndHandleJson _ _); reflexivity.
Qed.

Lemma any_refresh_text_reruns_the_command_witness :
  ran (@eks_cluster_details Examples.example_runtime (Some "prod") (Some "eu-west-1")
         (Some "false") empty 0 details_child 5)
  = [{| cmd := "aws";
        args := ["eks"; "describe-cluster"; "--name"; "prod"; "--region"; "eu-west-1"];
        stdin := None |}].
Proof.
  apply (@any_refresh_text_reruns_the_command Examples.example_runtime
           "prod" "eu-west-1" "false" empty 0 5 details_child eq_refl eq_refl).
  discriminate.
Defined.

End RoutesFacts.

(* ===================================================================== *)
(** * More on the executors of utils/kubectlUtils.js *)
(* ===================================================================== *)

Module ExecutorFacts.
Import JsString Js KubectlUtils JsStringFacts KubectlUtilsSpec.
Local Arguments String.append !_ _ / : simpl nomatch.

(** ** Commands and their words *)

(** A word of a command line: not empty, no white space in it. *)
Definition word (w : string) : Prop := w <> EmptyString /\ no_whitespace w = true.

Lemma split_not_nil (in_run : bool) (s : string) : split_ws_from in_run s <> [].
Proof.
  revert in_run. induction s as [|c s IH]; intros in_run; simpl; [discriminate|].
  destruct (is_whitespace c).
  - destruct in_run; [apply IH | discriminate].
  - destruct (split_ws_from false s); discriminate.
Qed.

Lemma split_word_app (w s : string) :
  no_whitespace w = true ->
  split_ws_from false (w +:+ s)
  = match split_ws_from false s with
    | t :: ts => (w +:+ t) :: ts
    | [] => [w]
    end.
Proof.
  induction w as [|c w IH]; simpl.
  - intros _. destruct (split_ws_from false s) eqn:E; [|reflexivity].
    now apply split_not_nil in E.
  - intros Hn. apply andb_prop in Hn as [Hc Hw]. apply negb_true_iff in Hc.
    rewrite Hc, (IH Hw). destruct (split_ws_from false s); reflexivity.
Qed.

Lemma join_cons (sep w : string) (v : string) (rest : list string) :
  join sep (w :: v :: rest) = w +:+ sep +:+ join sep (v :: rest).
Proof. reflexivity. Qed.

Lemma join_starts_word (w : string) (rest : list string) :
  word w -> exists c r, join " " (w :: rest) = String c r /\ is_whitespace c = false.
Proof.
  intros [Hne Hn]. destruct w as [|c w]; [congruence|].
  simpl in Hn. apply andb_prop in Hn as [Hc _]. apply negb_true_iff in Hc.
  destruct rest as [|v rest]; [now exists c, w|].
  rewrite join_cons. simpl. eauto.
Qed.

Lemma split_join (words : list string) :
  words <> [] -> Forall word words ->
  split_whitespace (join " " words) = words.
Proof.
  unfold split_whitespace. intros Hne Hall.
  induction Hall as [|w words Hw Hall IH]; [congruence|].
  destruct words as [|v rest].
  - cbn [join]. rewrite <- (append_nil_r w) at 1.
    rewrite split_word_app by apply Hw. cbn. now rewrite append_nil_r.
  - rewrite join_cons, split_word_app by apply Hw.
    change (" " +:+ join " " (v :: rest)) with (String " " (join " " (v :: rest))).
    cbn [split_ws_from is_whitespace].
    change (is_whitespace " ") with true. cbn iota.
    inversion Hall as [|? ? Hv Hrest]; subst.
    destruct (join_starts_word v rest Hv) as (c & r & Ej & Hc).
    assert (Hrun : split_ws_from true (join " " (v :: rest))
                   = split_ws_from false (join " " (v :: rest))).
    { rewrite Ej. simpl. now rewrite Hc. }
    rewrite Hrun, IH by discriminate.
    now rewrite append_nil_r.
Qed.

Lemma split_no_whitespace (in_run : bool) (s : string) :
  Forall (fun w => no_whitespace w = true) (split_ws_from in_run s).
Proof.
  revert in_run. induction s as [|c s IH]; intros in_run; simpl.
  - repeat constructor.
  - destruct (is_whitespace c) eqn:Ec.
    + destruct in_run; [apply IH|]. constructor; [reflexivity | apply IH].
    + specialize (IH false). destruct (split_ws_from false s) as [|t ts].
      * repeat constructor. simpl. now rewrite Ec.
      * inversion IH as [|? ? Ht Hts]; subst. constructor; [|exact Hts].
        simpl. now rewrite Ec, Ht.
Qed.

(** X6. The executors hand the words of the command line to [spawn], with
    no shell in between.  Whatever the command line is, neither the
    executable nor any argument that reaches the child has white space in
    it (a value with a space in it arrives as two arguments); and a
    command line made of an executable and arguments joined by single
    spaces is spawned with exactly that executable and those arguments. *)
Theorem command_words_are_argv (command : string) (input : option string) :
  let r := spawn_of_command command input in
  no_whitespace (cmd r) = true
  /\ Forall (fun a => no_whitespace a = true) (args r)
  /\ (forall (executable : string) (arguments : list string),
        command = join " " (executable :: arguments) ->
        Forall word (executable :: arguments) ->
        cmd r = executable /\ args r = arguments).
Proof.
  cbn zeta. unfold spawn_of_command, split_whitespace. cbn [cmd args].
  pose proof (split_no_whitespace false command) as Hall.
  split; [|split].
  - destruct (split_ws_from false command); [reflexivity|].
    now inversion Hall.
  - destruct (split_ws_from false command); [constructor|].
    now inversion Hall.
  - intros executable arguments -> Hwords.
    pose proof (split_join (executable :: arguments)) as Hsplit.
    unfold split_whitespace in Hsplit.
    rewrite Hsplit by (discriminate || exact Hwords). auto.
Qed.

Lemma command_words_are_argv_witness :
  cmd (spawn_of_command "kubectl delete pod my pod" None) = "kubectl"
  /\ args (spawn_of_command "kubectl delete pod my pod" None)
     = ["delete"; "pod"; "my"; "pod"].
Proof.
  destruct (command_words_are_argv "kubectl delete pod my pod" None)
    as (_ & _ & Hwords).
  apply (Hwords "kubectl" ["delete"; "pod"; "my"; "pod"] eq_refl).
  repeat constructor; discriminate.
Defined.

(** ** What [execPromise] resolves with *)

Lemma trimEnd_idempotent (s : string) : trimEnd (trimEnd s) = trimEnd s.
Proof.
  induction s as [|c s IH]; [reflexivity|].
  cbn [trimEnd].
  destruct (is_whitespace c && is_empty (trimEnd s)) eqn:E; [reflexivity|].
  cbn [trimEnd]. now rewrite IH, E.
Qed.

Lemma trimStart_trimEnd (s : string) :
  trimStart s = s -> trimStart (trimEnd s) = trimEnd s.
Proof.
  destruct s as [|c s]; [reflexivity|].
  cbn [trimStart trimEnd].
  destruct (is_whitespace c) eqn:Ec.
  - intros Hs. exfalso.
    assert (Hlen : (String.length (trimStart s) <= String.length s)%nat).
    { clear. induction s as [|a s IH]; simpl; [lia|].
      destruct (is_whitespace a); simpl; lia. }
    rewrite Hs in Hlen. simpl in Hlen. lia.
  - intros _. cbn [andb trimStart]. now rewrite Ec.
Qed.

Lemma trimStart_idempotent (s : string) : trimStart (trimStart s) = trimStart s.
Proof.
  induction s as [|c s IH]; [reflexivity|].
  cbn [trimStart]. destruct (is_whitespace c) eqn:Ec; [exact IH|].
  cbn [trimStart]. now rewrite Ec.
Qed.

Lemma trim_idempotent (s : string) : trim (trim s) = trim s.
Proof.
  unfold trim.
  rewrite (trimStart_trimEnd (trimStart s) (trimStart_idempotent s)).
  apply trimEnd_idempotent.
Qed.

(** X7. Whatever the child writes, the value [execPromise] resolves with
    has no white space at either end: trimming it again changes nothing,
    a single trailing newline of the CLI output included. *)
Theorem execPromise_result_is_trimmed (command : string)
    (chunks : list (stream * string)) (x : exit_event) (v : string) :
  execPromise command chunks x = Returned v ->
  trim v = v /\ trimStart v = v /\ trimEnd v = v.
Proof.
  unfold execPromise, execPromise_exit.
  destruct x as [code|m]; [|discriminate].
  destruct (is_zero code); [|discriminate].
  intros [= <-]. split; [apply trim_idempotent|]. split.
  - unfold trim. apply trimStart_trimEnd, trimStart_idempotent.
  - unfold trim. apply trimEnd_idempotent.
Qed.

Lemma execPromise_result_is_trimmed_witness :
  execPromise "aws sts get-caller-identity"
    [(StdoutStream, "  arn:aws:iam::1:user/op" +:+ nl)] (Closed (Some 0))
  = Returned "arn:aws:iam::1:user/op"
  /\ trim "arn:aws:iam::1:user/op" = "arn:aws:iam::1:user/op".
Proof.
  split; [reflexivity|].
  apply (execPromise_result_is_trimmed "aws sts get-caller-identity"
           [(StdoutStream, "  arn:aws:iam::1:user/op" +:+ nl)] (Closed (Some 0))
           "arn:aws:iam::1:user/op" eq_refl).
Defined.

(** ** [executeCommand] and the client *)

(** The chunks among the events of an attempt, and the events up to the
    moment the client leaves. *)
Definition chunks_of (events : list env_event) : list (stream * string) :=
  flat_map (fun e => match e with
                     | Chunk from data => [(from, data)]
                     | PeerGone => []
                     end) events.

Fixpoint before_gone (events : list env_event) : list env_event :=
  match events with
  | [] => []
  | PeerGone :: _ => []
  | e :: rest => e :: before_gone rest
  end.

Definition frames_of (events : list env_event) : list Ws.frame :=
  List.map (fun c => stream_frame (fst c) (snd c)) (chunks_of events).

(** How an attempt ends for [executeCommand], by what the child did. *)
Definition result_of (a : attempt) : command_result :=
  executeCommand_exit (accumulate_all (chunks_of (during a))) (ending a).

Lemma buffers_of_events (events : list env_event) :
  forall (b : buffers) (sock : Ws.socket),
    fst (fold_left on_env_event events (b, sock))
    = fold_left (fun b c => accumulate b (fst c) (snd c)) (chunks_of events) b.
Proof.
  induction events as [|e events IH]; intros b sock; [reflexivity|].
  cbn [fold_left]. destruct e as [from data|].
  - unfold on_env_event at 2, executeCommand_data. cbn [fst snd].
    rewrite IH. reflexivity.
  - unfold on_env_event at 2. cbn [fst snd]. rewrite IH. reflexivity.
Qed.

Lemma socket_not_open (events : list env_event) :
  forall (b : buffers) (sock : Ws.socket),
    Ws.is_open sock = false ->
    Ws.sent (snd (fold_left on_env_event events (b, sock))) = Ws.sent sock.
Proof.
  induction events as [|e events IH]; intros b sock Hc; [reflexivity|].
  cbn [fold_left]. destruct e as [from data|].
  - unfold on_env_event at 2, executeCommand_data, Ws.send_if_open.
    cbn [fst snd]. rewrite Hc. now apply IH.
  - unfold on_env_event at 2. cbn [fst snd]. now rewrite IH.
Qed.

Lemma socket_open (events : list env_event) :
  forall (b : buffers) (sock : Ws.socket),
    Ws.is_open sock = true ->
    Ws.sent (snd (fold_left on_env_event events (b, sock)))
    = (Ws.sent sock ++ frames_of (before_gone events))%list.
Proof.
  induction events as [|e events IH]; intros b sock Ho.
  - cbn. now rewrite app_nil_r.
  - cbn [fold_left]. destruct e as [from data|].
    + unfold on_env_event at 2, executeCommand_data. cbn [fst snd].
      destruct (WsFacts.send_open (stream_frame from data) sock Ho) as [Ho2 Hs2].
      rewrite <- WsFacts.send_if_open_send in Ho2, Hs2.
      rewrite (IH _ _ Ho2), Hs2. cbn [before_gone frames_of chunks_of flat_map].
      cbn [List.map List.app fst snd]. now rewrite <- app_assoc.
    + unfold on_env_event at 2. cbn [fst snd].
      rewrite socket_not_open by reflexivity.
      cbn. now rewrite app_nil_r.
Qed.

Lemma executeCommand_result (command : string) (input : option string)
    (a : attempt) (w : world) :
  fst (executeCommand command input a w) = result_of a.
Proof.
  unfold executeCommand, result_of, accumulate_all. cbn [fst].
  now rewrite buffers_of_events.
Qed.

(** X8. [executeCommand] goes on when the client has left: its result is
    decided by the child alone (all of its output is collected, whether
    or not it could be sent), while the frames stop at the moment the
    client leaves; a socket that was not open at the start gets
    nothing.  One child is spawned either way. *)
Theorem executeCommand_outlives_the_client (command : string)
    (input : option string) (a : attempt) (w : world) :
  let r := executeCommand command input a w in
  fst r = result_of a
  /\ Ws.sent (ws (snd r))
     = (Ws.sent (ws w)
        ++ (if Ws.is_open (ws w) then frames_of (before_gone (during a)) else []))%list
  /\ spawned (snd r) = (spawned w ++ [spawn_of_command command input])%list.
Proof.
  cbn zeta. split; [apply executeCommand_result|].
  unfold executeCommand. cbn [fst snd ws spawned]. split; [|reflexivity].
  destruct (Ws.is_open (ws w)) eqn:Ho.
  - now apply socket_open.
  - rewrite app_nil_r. now apply socket_not_open.
Qed.

(** ** The retrying executor *)

Definition generic_failure (retries : Z) (command : string) : command_result :=
  Failed ("Command failed after " +:+ of_Z retries +:+ " attempts: " +:+ command).


Lemma retry_from_first_success (command : string) (retries delay : Z)
    (input : option string) (env : Z -> attempt) :
  forall (k todo : nat) (i : Z) (w : world),
    (k < todo)%nat ->
    (forall j, i <= j < i + Z.of_nat k -> success (result_of (env j)) = false) ->
    success (result_of (env (i + Z.of_nat k))) = true ->
    let r := retry_from todo i command retries delay input env w in
    fst r = result_of (env (i + Z.of_nat k))
    /\ spawned (snd r)
       = (spawned w ++ repeat (spawn_of_command command input) (S k))%list
    /\ slept (snd r) = (slept w ++ repeat delay k)%list.
Proof.
  induction k as [|k IH]; intros todo i w Hk Hfail Hok;
    (destruct todo as [|todo]; [lia|]); cbn zeta; cbn [retry_from].
  - pose proof (executeCommand_result command input (env i) w) as Hres.
    destruct (executeCommand command input (env i) w) as [result w1] eqn:E.
    cbn [fst] in Hres. subst result.
    replace (i + Z.of_nat 0) with i in * by lia. rewrite Hok.
    cbn [fst snd].
    assert (Hw1 : w1 = snd (executeCommand command input (env i) w)) by now rewrite E.
    rewrite Hw1. unfold executeCommand. cbn [snd spawned slept repeat].
    now rewrite app_nil_r.
  - pose proof (executeCommand_result command input (env i) w) as Hres.
    destruct (executeCommand command input (env i) w) as [result w1] eqn:E.
    cbn [fst] in Hres. subst result.
    rewrite (Hfail i) by lia.
    assert (Hw1 : w1 = snd (executeCommand command input (env i) w)) by now rewrite E.
    match goal with
    | |- context [retry_from todo (i + 1) command retries delay input env ?w2] =>
        destruct (IH todo (i + 1) w2) as (Hr & Hsp & Hsl);
        [lia | intros j Hj; apply Hfail; lia
         | replace (i + 1 + Z.of_nat k) with (i + Z.of_nat (S k)) by lia; exact Hok |]
    end.
    replace (i + 1 + Z.of_nat k) with (i + Z.of_nat (S k)) in Hr by lia.
    rewrite Hr, Hsp, Hsl. cbn [spawned slept]. rewrite Hw1.
    unfold executeCommand. cbn [snd spawned slept].
    rewrite <- !app_assoc. cbn [List.app repeat]. auto.
Qed.

(** X9. [executeCommandWithRetry] stops at the first attempt that
    succeeds: when attempt [k] (counted from 0, [k < retries]) is the
    first whose child exits with code 0, the result is that attempt's
    result, the command has been run [k + 1] times and [delay] has been
    slept [k] times. *)
Theorem retry_stops_at_first_success (command : string) (retries delay : Z)
    (input : option string) (env : Z -> attempt) (sock : Ws.socket) (k : nat) :
  Z.of_nat k < retries ->
  (forall j, 0 <= j < Z.of_nat k -> success (result_of (env j)) = false) ->
  success (result_of (env (Z.of_nat k))) = true ->
  let r := executeCommandWithRetry command retries delay input env (start_world sock) in
  fst r = result_of (env (Z.of_nat k))
  /\ spawned (snd r) = repeat (spawn_of_command command input) (S k)
  /\ slept (snd r) = repeat delay k.
Proof.
  intros Hk Hfail Hok. unfold executeCommandWithRetry.
  apply (retry_from_first_success command retries delay input env k
           (Z.to_nat retries) 0 (start_world sock)); [lia | exact Hfail | exact Hok].
Qed.

Definition second_time_lucky (i : Z) : attempt :=
  if i =? 1
  then {| during := [Chunk StdoutStream "ready"]; ending := Closed (Some 0) |}
  else {| during := [Chunk StderrStream "connection refused"];
          ending := Closed (Some 1) |}.

Lemma retry_stops_at_first_success_witness :
  let r := executeCommandWithRetry "kubectl get nodes" 5 15000 None
             second_time_lucky (start_world Ws.fresh) in
  fst r = Succeeded "ready"
  /\ List.length (spawned (snd r)) = 2%nat
  /\ slept (snd r) = [15000].
Proof.
  destruct (retry_stops_at_first_success "kubectl get nodes" 5 15000 None
              second_time_lucky Ws.fresh 1) as (Hr & Hsp & Hsl).
  - reflexivity.
  - intros j Hj. replace j with 0 by lia. reflexivity.
  - reflexivity.
  - cbn zeta. rewrite Hr, Hsp, Hsl. repeat split.
Defined.

Lemma retry_from_outcomes (command : string) (retries delay : Z)
    (input : option string) (env : Z -> attempt) :
  forall (todo : nat) (i : Z) (w : world),
    let r := retry_from todo i command retries delay input env w in
    (success (fst r) = true
     /\ (List.length (spawned (snd r)) + List.length (slept w)
         = S (List.length (slept (snd r)) + List.length (spawned w)))%nat)
    \/ (fst r = generic_failure retries command
        /\ spawned (snd r)
           = (spawned w ++ repeat (spawn_of_command command input) todo)%list
        /\ slept (snd r) = (slept w ++ repeat delay todo)%list).
Proof.
  induction todo as [|todo IH]; intros i w; cbn zeta.
  - right. cbn. now rewrite !app_nil_r.
  - cbn [retry_from].
    destruct (executeCommand command input (env i) w) as [result w1] eqn:E.
    assert (Hw1 : w1 = snd (executeCommand command input (env i) w)) by now rewrite E.
    assert (Hsp : spawned w1 = (spawned w ++ [spawn_of_command command input])%list)
      by (rewrite Hw1; reflexivity).
    assert (Hsl : slept w1 = slept w) by (rewrite Hw1; reflexivity).
    destruct (success result) eqn:Es.
    + left. cbn [fst snd]. split; [exact Es|].
      rewrite Hsp, Hsl, List.length_app. cbn [List.length]. lia.
    + match goal with
      | |- context [retry_from todo (i + 1) command retries delay input env ?w2] =>
          pose proof (IH (i + 1) w2) as IHw; cbn zeta in IHw;
          set (r2 := retry_from todo (i + 1) command retries delay input env w2) in *
      end.
      cbn [spawned slept] in IHw. rewrite Hsp, Hsl in IHw.
      destruct IHw as [[Hok Hlen]|(Hr & Hs & Hd)].
      * left. split; [exact Hok|].
        rewrite !List.length_app in Hlen. cbn [List.length] in Hlen. lia.
      * right. rewrite Hr, Hs, Hd.
        rewrite <- !app_assoc. cbn [List.app repeat]. auto.
Qed.

(** X10. [executeCommandWithRetry] either returns the result of a
    successful attempt, having slept once less than it ran the command,
    or, after [retries] runs and [retries] sleeps, the one failure
    ["Command failed after <retries> attempts: <command>"]: what the
    failed attempts wrote to stderr is streamed but never part of the
    result.  With [retries <= 0] nothing is run and the failure is
    immediate. *)
Theorem retry_succeeds_or_fails_generically (command : string)
    (retries delay : Z) (input : option string) (env : Z -> attempt)
    (sock : Ws.socket) :
  let r := executeCommandWithRetry command retries delay input env (start_world sock) in
  (0 < retries
   /\ success (fst r) = true
   /\ S (List.length (slept (snd r))) = List.length (spawned (snd r)))
  \/ (fst r = generic_failure retries command
      /\ spawned (snd r) = repeat (spawn_of_command command input) (Z.to_nat retries)
      /\ slept (snd r) = repeat delay (Z.to_nat retries)).
Proof.
  cbn zeta. unfold executeCommandWithRetry.
  destruct (Z_lt_le_dec 0 retries) as [Hpos|Hnone].
  - destruct (retry_from_outcomes command retries delay input env
                (Z.to_nat retries) 0 (start_world sock)) as [[Hok Hlen]|Hfail].
    + left. split; [exact Hpos|]. split; [exact Hok|].
      cbn [start_world slept spawned List.length] in Hlen. lia.
    + right. exact Hfail.
  - right. replace (Z.to_nat retries) with 0%nat by lia. cbn. auto.
Qed.

End ExecutorFacts.

(* ===================================================================== *)
(** * Invariants of the port-forward routes *)
(* ===================================================================== *)

Module PortForwardInvariants.
Import JsString KubectlUtils PortForward PortForwardSpec.

(** The requests answered so far. *)
Definition answered (s : state) : list nat := List.map fst (responses s).

Lemma forward_run_snoc (s : state) (trace : list event) (e : event) :
  run s (trace ++ [e]) = step (run s trace) e.
Proof. unfold run. now rewrite List.fold_left_app. Qed.

Lemma not_sent_not_answered (r : nat) (s : state) :
  headersSent r s = false -> ~ List.In r (answered s).
Proof.
  unfold headersSent, response_to, answered. intros Hh Hin.
  apply List.in_map_iff in Hin as ([r' resp] & Er & Hin). cbn in Er. subst r'.
  destruct (List.find (fun x => Nat.eqb (fst x) r) (responses s)) eqn:E;
    [discriminate|].
  pose proof (List.find_none _ _ E _ Hin) as Hn. cbn in Hn.
  now rewrite Nat.eqb_refl in Hn.
Qed.

Lemma answered_respond (r : nat) (st : Z) (b : body) (s : state) :
  answered (respond r st b s) = (answered s ++ [r])%list.
Proof. unfold answered, respond. cbn. now rewrite List.map_app. Qed.

Lemma listener_found (pid r : nat) (s : state) (x : nat * nat) :
  List.find (fun x => Nat.eqb (fst x) pid) (listeners s) = Some x ->
  List.In x (listeners s) /\ fst x = pid.
Proof.
  intros Hf. apply List.find_some in Hf as [Hin He].
  apply Nat.eqb_eq in He. auto.
Qed.

Lemma NoDup_snoc (l : list nat) (x : nat) :
  NoDup l -> ~ List.In x l -> NoDup (l ++ [x]).
Proof.
  induction 1 as [|a l Ha Hl IH]; intros Hx; cbn.
  - constructor; [intros H; inversion H | constructor].
  - constructor.
    + rewrite list_elem_of_In. intros Hin.
      apply List.in_app_iff in Hin as [Hin|[->|[]]].
      * apply Ha. now apply list_elem_of_In.
      * apply Hx. now left.
    + apply IH. intros Hin. apply Hx. now right.
Qed.

(** ** One answer per request *)

Definition answers_once (s : state) : Prop :=
  NoDup (answered s)
  /\ (forall r, List.In r (answered s) -> (r < next_request s)%nat)
  /\ (forall pid r, List.In (pid, r) (listeners s) -> (r < next_request s)%nat).

Lemma answers_once_respond (r : nat) (st : Z) (b : body) (s : state) :
  answers_once s -> ~ List.In r (answered s) -> (r < next_request s)%nat ->
  answers_once (respond r st b s).
Proof.
  intros (Hnd & Hlt & Hls) Hnew Hr. unfold answers_once.
  rewrite answered_respond. split; [|split].
  - now apply NoDup_snoc.
  - intros x Hx. apply List.in_app_iff in Hx as [Hx|[<-|[]]]; cbn; auto.
  - exact Hls.
Qed.

Lemma answers_once_guarded (r : nat) (st : Z) (b : body) (s : state) :
  answers_once s -> (r < next_request s)%nat ->
  answers_once (if negb (headersSent r s) then respond r st b s else s).
Proof.
  intros Hs Hr. destruct (headersSent r s) eqn:E; cbn [negb]; [exact Hs|].
  apply answers_once_respond; auto using not_sent_not_answered.
Qed.

Lemma answers_once_handle (h : option nat) (s : state) :
  answers_once s -> answers_once (set_handle h s).
Proof. trivial. Qed.

Lemma answers_once_detach (pid : nat) (s : state) :
  answers_once s -> answers_once (detach pid s).
Proof.
  intros (Hnd & Hlt & Hls). split; [exact Hnd|]. split; [exact Hlt|].
  intros p r Hin. cbn in Hin. apply List.filter_In in Hin as [Hin _].
  now apply (Hls p r).
Qed.

Lemma answers_once_accept (s : state) :
  answers_once s ->
  answers_once (accept_request s)
  /\ ~ List.In (next_request s) (answered (accept_request s)).
Proof.
  intros (Hnd & Hlt & Hls). split.
  - split; [exact Hnd|]. split.
    + intros r Hr. cbn. specialize (Hlt r Hr). lia.
    + intros p r Hin. cbn. specialize (Hls p r Hin). lia.
  - intros Hin. specialize (Hlt _ Hin). lia.
Qed.

Lemma answers_once_step (s : state) (e : event) :
  answers_once s -> answers_once (step s e).
Proof.
  intros Hs. destruct e as [| |pid pe]; cbn [step].
  - unfold start. destruct (answers_once_accept s Hs) as [Ha Hnew].
    cbn zeta. destruct (portForwardProcess (accept_request s)) eqn:Eh.
    + apply answers_once_respond; [exact Ha | exact Hnew | cbn; lia].
    + destruct Ha as (Hnd & Hlt & Hls). split; [exact Hnd|]. split; [exact Hlt|].
      intros p r Hin. cbn in Hin |- *.
      apply List.in_app_iff in Hin as [Hin|[[= <- <-]|[]]]; [|lia].
      specialize (Hls p r Hin). cbn in Hls. exact Hls.
  - unfold stop. destruct (answers_once_accept s Hs) as [Ha Hnew].
    cbn zeta. destruct (portForwardProcess (accept_request s)) eqn:Eh.
    + apply answers_once_respond; [exact Ha | exact Hnew | cbn; lia].
    + apply answers_once_respond; [exact Ha | exact Hnew | cbn; lia].
  - destruct (List.find _ (listeners s)) as [[p r]|] eqn:Ef; [|exact Hs].
    destruct (listener_found pid r s _ Ef) as [Hin _].
    assert (Hr : (r < next_request s)%nat) by (destruct Hs as (_ & _ & Hls); eauto).
    unfold on_proc. destruct pe as [[|] data|[code|m]].
    + destruct (negb (headersSent r s) && includes "Forwarding from" data) eqn:E;
        [|exact Hs].
      apply andb_prop in E as [E _]. apply negb_true_iff in E.
      apply answers_once_respond; auto using not_sent_not_answered.
    + now apply answers_once_handle, answers_once_guarded.
    + now apply answers_once_detach, answers_once_handle.
    + now apply answers_once_handle, answers_once_guarded.
Qed.

Lemma answers_once_init : answers_once init.
Proof. split; [constructor|]. split; intros; contradiction. Qed.

(** X11. Whatever requests and child events arrive, in whatever order, no
    request to the two port-forward routes is ever answered twice, and
    only requests that were made are answered. *)
Theorem port_forward_answers_at_most_once (trace : list event) :
  let s := run init trace in
  NoDup (List.map fst (responses s))
  /\ Forall (fun r => (r < next_request s)%nat) (List.map fst (responses s)).
Proof.
  cbn zeta.
  assert (Hinv : answers_once (run init trace)).
  { induction trace as [|e trace IH] using List.rev_ind.
    - exact answers_once_init.
    - rewrite forward_run_snoc. now apply answers_once_step. }
  destruct Hinv as (Hnd & Hlt & _). split; [exact Hnd|].
  apply List.Forall_forall. exact Hlt.
Qed.

(** ** SIGTERM *)

Definition signals_own (s : state) : Prop :=
  NoDup (terminated s)
  /\ (forall t, List.In t (terminated s) -> List.In (t, forward_spawn) (spawned s))
  /\ (forall p rec, List.In (p, rec) (spawned s) -> (p < List.length (spawned s))%nat)
  /\ (forall p, portForwardProcess s = Some p ->
                List.In (p, forward_spawn) (spawned s) /\ ~ List.In p (terminated s)).

Lemma signals_own_same (s s' : state) :
  signals_own s ->
  terminated s' = terminated s -> spawned s' = spawned s ->
  (portForwardProcess s' = portForwardProcess s \/ portForwardProcess s' = None) ->
  signals_own s'.
Proof.
  intros (Hnd & Ht & Hp & Hh) Et Es Eh. unfold signals_own.
  rewrite Et, Es. split; [exact Hnd|]. split; [exact Ht|]. split; [exact Hp|].
  intros p Hsome. destruct Eh as [Eh|Eh]; rewrite Eh in Hsome; [auto | discriminate].
Qed.

Lemma guarded_same (r : nat) (st : Z) (b : body) (s : state) :
  let s' := if negb (headersSent r s) then respond r st b s else s in
  terminated s' = terminated s /\ spawned s' = spawned s
  /\ portForwardProcess s' = portForwardProcess s.
Proof. cbn zeta. destruct (negb (headersSent r s)); auto. Qed.

Lemma signals_own_step (s : state) (e : event) :
  signals_own s -> signals_own (step s e).
Proof.
  intros Hs. destruct e as [| |pid pe]; cbn [step].
  - unfold start. cbn zeta. cbn [accept_request portForwardProcess].
    destruct (portForwardProcess s) as [p|] eqn:Eh.
    + apply (signals_own_same s); auto.
    + destruct Hs as (Hnd & Ht & Hp & Hh). unfold signals_own.
      cbn [terminated spawned portForwardProcess accept_request responses
           listeners next_request].
      split; [exact Hnd|]. split; [|split; [|intros p [= <-]; split]].
      * intros t Hin. apply List.in_app_iff. left. auto.
      * intros p rec Hin. rewrite List.length_app. cbn [List.length].
        apply List.in_app_iff in Hin as [Hin|[[= <- <-]|[]]]; [|lia].
        specialize (Hp p rec Hin). lia.
      * apply List.in_app_iff. right. left. reflexivity.
      * intros Hin. specialize (Hp _ _ (Ht _ Hin)). lia.
  - unfold stop. cbn zeta. cbn [accept_request portForwardProcess].
    destruct (portForwardProcess s) as [p|] eqn:Eh.
    + destruct Hs as (Hnd & Ht & Hp & Hh). destruct (Hh p Eh) as [Hin Hnot].
      unfold signals_own, respond.
      cbn [terminated spawned portForwardProcess].
      split; [|split; [|split; [exact Hp | discriminate]]].
      * now apply NoDup_snoc.
      * intros t Hin'. apply List.in_app_iff in Hin' as [Hin'|[<-|[]]]; auto.
    + apply (signals_own_same s); auto.
  - destruct (List.find _ (listeners s)) as [[p r]|] eqn:Ef; [|exact Hs].
    unfold on_proc. destruct pe as [[|] data|[code|m]].
    + destruct (negb (headersSent r s) && includes "Forwarding from" data);
        [|exact Hs].
      apply (signals_own_same s); auto.
    + destruct (guarded_same r 500 (Failure ("Failed to start port-forwarding: " +:+ data)) s)
        as (Et & Es & _).
      apply (signals_own_same s); auto.
    + apply (signals_own_same s); auto.
    + destruct (guarded_same r 500 (Failure "Failed to spawn kubectl port-forward process.") s)
        as (Et & Es & _).
      apply (signals_own_same s); auto.
Qed.

Lemma signals_own_run (trace : list event) (s : state) :
  signals_own s -> signals_own (run s trace).
Proof.
  revert s. induction trace as [|e trace IH]; intros s Hs; [exact Hs|].
  cbn [run List.fold_left]. apply IH. now apply signals_own_step.
Qed.

Lemma signals_own_init : signals_own init.
Proof.
  split; [constructor|]. split; [intros t []|]. split; [intros p rec []|].
  discriminate.
Qed.

(** X12. SIGTERM only ever goes to a [kubectl port-forward] child that these
    routes spawned, no child is signalled twice, and the child whose
    handle is held has not been signalled. *)
Theorem sigterm_once_and_only_own_children (trace : list event) :
  let s := run init trace in
  NoDup (terminated s)
  /\ Forall (fun t => List.In (t, forward_spawn) (spawned s)) (terminated s)
  /\ (forall p, portForwardProcess s = Some p -> ~ List.In p (terminated s)).
Proof.
  cbn zeta. destruct (signals_own_run trace init signals_own_init)
    as (Hnd & Ht & _ & Hh).
  split; [exact Hnd|]. split; [now apply List.Forall_forall|].
  intros p Hp. now apply Hh.
Qed.

(** ** A forwarder that ends without a word *)

Definition unanswered (r : nat) (s : state) : Prop :=
  ~ List.In r (answered s)
  /\ (forall pid r', List.In (pid, r') (listeners s) -> r' <> r)
  /\ (r < next_request s)%nat.

Lemma response_to_none (r : nat) (s : state) :
  ~ List.In r (answered s) -> response_to r s = None.
Proof.
  unfold response_to, answered. intros Hn.
  destruct (List.find (fun x => Nat.eqb (fst x) r) (responses s)) as [[r' resp]|] eqn:E;
    [|reflexivity].
  apply List.find_some in E as [Hin He]. cbn in He. apply Nat.eqb_eq in He. subst r'.
  exfalso. apply Hn. apply List.in_map_iff. now exists (r, resp).
Qed.

Lemma unanswered_respond (r r' : nat) (st : Z) (b : body) (s : state) :
  unanswered r s -> r' <> r -> unanswered r (respond r' st b s).
Proof.
  intros (Hn & Hl & Hr) Hne. split; [|split; [exact Hl | exact Hr]].
  rewrite answered_respond. intros Hin.
  apply List.in_app_iff in Hin as [Hin|[->|[]]]; auto.
Qed.

Lemma unanswered_guarded (r r' : nat) (st : Z) (b : body) (s : state) :
  unanswered r s -> r' <> r ->
  unanswered r (if negb (headersSent r' s) then respond r' st b s else s).
Proof.
  intros Hs Hne. destruct (negb (headersSent r' s)); [|exact Hs].
  now apply unanswered_respond.
Qed.

Lemma unanswered_step (r : nat) (s : state) (e : event) :
  unanswered r s -> unanswered r (step s e).
Proof.
  intros Hs. destruct e as [| |pid pe]; cbn [step].
  - unfold start. cbn zeta.
    assert (Ha : unanswered r (accept_request s)).
    { destruct Hs as (Hn & Hl & Hr). split; [exact Hn|]. split; [exact Hl|]. cbn. lia. }
    assert (Hne : next_request s <> r) by (destruct Hs as (_ & _ & Hr); lia).
    destruct (portForwardProcess (accept_request s)).
    + now apply unanswered_respond.
    + destruct Ha as (Hn & Hl & Hr). split; [exact Hn|]. split; [|exact Hr].
      intros p r' Hin. cbn in Hin.
      apply List.in_app_iff in Hin as [Hin|[[= <- <-]|[]]]; [|exact Hne].
      now apply (Hl p).
  - unfold stop. cbn zeta.
    assert (Ha : unanswered r (accept_request s)).
    { destruct Hs as (Hn & Hl & Hr). split; [exact Hn|]. split; [exact Hl|]. cbn. lia. }
    assert (Hne : next_request s <> r) by (destruct Hs as (_ & _ & Hr); lia).
    destruct (portForwardProcess (accept_request s)).
    + apply unanswered_respond; [|exact Hne]. exact Ha.
    + now apply unanswered_respond.
  - destruct (List.find _ (listeners s)) as [[p r']|] eqn:Ef; [|exact Hs].
    destruct (listener_found pid r' s _ Ef) as [Hin _].
    assert (Hne : r' <> r) by (destruct Hs as (_ & Hl & _); eauto).
    unfold on_proc. destruct pe as [[|] data|[code|m]].
    + destruct (negb (headersSent r' s) && includes "Forwarding from" data);
        [|exact Hs].
      now apply unanswered_respond.
    + now apply (unanswered_guarded r r').
    + destruct Hs as (Hn & Hl & Hr). split; [exact Hn|]. split; [|exact Hr].
      intros q r'' Hin'. cbn in Hin'. apply List.filter_In in Hin' as [Hin' _].
      now apply (Hl q).
    + now apply (unanswered_guarded r r').
Qed.

Lemma unanswered_run (r : nat) (trace : list event) (s : state) :
  unanswered r s -> unanswered r (run s trace).
Proof.
  revert s. induction trace as [|e trace IH]; intros s Hs; [exact Hs|].
  cbn [run List.fold_left]. apply IH. now apply unanswered_step.
Qed.

(** X13. A start request whose [kubectl port-forward] child closes without
    having written anything is never answered: the ['close'] listener
    clears the handle but sends nothing, and nothing that happens
    afterwards answers that request. *)
Theorem silent_exit_leaves_start_unanswered (code : option Z) (later : list event) :
  let s := run init (Start :: Proc 0 (Exit (Closed code)) :: later) in
  response_to 0 s = None /\ portForwardProcess (run init [Start; Proc 0 (Exit (Closed code))]) = None.
Proof.
  cbn zeta. split; [|reflexivity].
  apply response_to_none.
  change (run init (Start :: Proc 0 (Exit (Closed code)) :: later))
    with (run (run init [Start; Proc 0 (Exit (Closed code))]) later).
  apply unanswered_run. split; [intros []|]. split; [intros p r []|].
  cbn. lia.
Qed.

(** ** A late ['close'] of a stopped forwarder *)

Definition orphaned (p : nat) (s : state) : Prop :=
  ~ List.In p (terminated s)
  /\ (p < List.length (spawned s))%nat
  /\ portForwardProcess s <> Some p.

Lemma orphaned_step (p : nat) (s : state) (e : event) :
  orphaned p s -> orphaned p (step s e).
Proof.
  intros (Hn & Hlt & Hh). destruct e as [| |pid pe]; cbn [step].
  - unfold start. cbn zeta. cbn [accept_request portForwardProcess].
    destruct (portForwardProcess s) as [q|] eqn:Eh.
    + split; [exact Hn|]. split; [exact Hlt|]. cbn. congruence.
    + split; [exact Hn|]. cbn [spawned portForwardProcess accept_request].
      rewrite List.length_app. cbn [List.length]. split; [lia|].
      intros [= E]. lia.
  - unfold stop. cbn zeta. cbn [accept_request portForwardProcess].
    destruct (portForwardProcess s) as [q|] eqn:Eh.
    + split; [|split; [exact Hlt | discriminate]].
      cbn. intros Hin. apply List.in_app_iff in Hin as [Hin|[->|[]]]; auto.
    + split; [exact Hn|]. split; [exact Hlt|]. cbn. congruence.
  - destruct (List.find _ (listeners s)) as [[q r]|] eqn:Ef;
      [|split; [exact Hn|]; split; [exact Hlt | exact Hh]].
    unfold on_proc. destruct pe as [[|] data|[code|m]].
    + destruct (negb (headersSent r s) && includes "Forwarding from" data);
        split; try exact Hn; split; try exact Hlt; exact Hh.
    + destruct (guarded_same r 500 (Failure ("Failed to start port-forwarding: " +:+ data)) s)
        as (Et & Es & _).
      split; [cbn; now rewrite Et|]. split; [cbn; now rewrite Es | discriminate].
    + split; [exact Hn|]. split; [exact Hlt | discriminate].
    + destruct (guarded_same r 500 (Failure "Failed to spawn kubectl port-forward process.") s)
        as (Et & Es & _).
      split; [cbn; now rewrite Et|]. split; [cbn; now rewrite Es | discriminate].
Qed.

Lemma orphaned_run (p : nat) (trace : list event) (s : state) :
  orphaned p s -> orphaned p (run s trace).
Proof.
  revert s. induction trace as [|e trace IH]; intros s Hs; [exact Hs|].
  cbn [run List.fold_left]. apply IH. now apply orphaned_step.
Qed.

(** X14. Start, stop, start again, and only then the ['close'] of the first
    (stopped) child: its listener clears the handle of the second child,
    which is still forwarding.  From then on the routes have lost it:
    nothing that follows ever sends it SIGTERM or holds its handle
    again, and the next start spawns a third child for the same port. *)
Theorem late_close_orphans_the_new_forwarder (code : option Z) (later : list event) :
  let s := run init [Start; Stop; Start; Proc 0 (Exit (Closed code))] in
  portForwardProcess s = None
  /\ terminated s = [0%nat]
  /\ List.map fst (spawned s) = [0%nat; 1%nat]
  /\ ~ List.In 1%nat (terminated (run s later))
  /\ portForwardProcess (run s later) <> Some 1%nat
  /\ List.map fst (spawned (run s [Start])) = [0%nat; 1%nat; 2%nat].
Proof.
  cbn zeta. split; [reflexivity|]. split; [reflexivity|]. split; [reflexivity|].
  assert (Ho : orphaned 1 (run init [Start; Stop; Start; Proc 0 (Exit (Closed code))])).
  { split; [intros [[=]|[]]|]. split; [cbn; lia | discriminate]. }
  destruct (orphaned_run 1 later _ Ho) as (Hn & _ & Hh).
  split; [exact Hn|]. split; [exact Hh | reflexivity].
Qed.

End PortForwardInvariants.

(* ===================================================================== *)
(** * More on the provisioning connection *)
(* ===================================================================== *)

Module ProvisioningFacts.
Import JsString Js KubectlUtils EksConfig WsHandlers Examples.
Import JsStringFacts KubectlUtilsSpec WsHandlersSpec ExecutorFacts.

(** ** Failures of the pre-flight itself *)

(** The error frame of [catch (iamCheckError)]. *)
Definition preflight_failure (message : string) : Ws.frame :=
  Ws.Error ("Failed during IAM pre-flight check: " +:+ message
            +:+ ". This could be due to missing 'iam:SimulatePrincipalPolicy' or 'sts:GetCallerIdentity' permissions.").

(** What is wrong with the output of the simulation, if anything: the
    message of [JSON.parse]'s exception, or of the [TypeError] that reading
    the evaluation results raises. *)
Definition simulation_error `{Runtime} (iamCheckResult : string) : option string :=
  match JSON_parse iamCheckResult with
  | Thrown message => Some message
  | Returned parsedResult =>
      match denied_results parsedResult with
      | inl e => Some (type_error_message e)
      | inr _ => None
      end
  end.

(** The session after a pre-flight failure. *)
Definition failed_preflight (message : string) (ran : list (nat * spawn_record))
    : session :=
  {| ws := {| Ws.readyState := Ws.CLOSING;
              Ws.sent := [banner; preflight_failure message] |};
     eksProcess := None; eksProcessExited := false;
     pending := []; next_id := List.length ran;
     spawned := ran; killed := []; called := [] |}.

Lemma failed_preflight_stays `{Runtime} (message : string)
    (ran : list (nat * spawn_record)) (rest : list event) :
  forallb (fun e => negb (is_message e)) rest = true ->
  let s := run (failed_preflight message ran) rest in
  frames s = [banner; preflight_failure message]
  /\ spawned s = ran /\ killed s = [] /\ called s = [] /\ is_open s = false.
Proof.
  intros Hrest. cbn zeta.
  destruct (finished_run rest (failed_preflight message ran))
    as ((_ & Ho & _) & F1 & F2 & F3 & F4); [repeat split | exact Hrest |].
  rewrite F1, F2, F3, F4. repeat split. exact Ho.
Qed.

(** X15. When [aws sts get-caller-identity] fails (it exits with a code
    other than 0, or cannot be spawned), the create request ends there:
    one error frame that carries the failure, the socket closing, and no
    further command: no simulation, no existence check, no [eksctl]. *)
Theorem identity_failure_aborts `{Runtime} (p : payload)
    (chunks : list (stream * string)) (x : exit_event) (message : string)
    (rest : list event) :
  execPromise sts_command chunks x = Thrown message ->
  forallb (fun e => negb (is_message e)) rest = true ->
  let s := run init (Message (Create p) :: output_events 0 chunks
                       ++ [Proc 0 (Exit x)] ++ rest) in
  frames s = [banner; preflight_failure message]
  /\ List.map snd (spawned s) = [spawn_of_command sts_command None]
  /\ killed s = [] /\ called s = [] /\ is_open s = false.
Proof.
  intros Hfail Hrest. cbn zeta.
  rewrite run_cons, run_app, run_app.
  change (step init (Message (Create p))) with (awaiting_identity p no_output).
  rewrite (run_caller_identity_output 0 (context_of p) sts_command chunks no_output)
    by reflexivity.
  assert (Hstep : run (with_pending
                         [(0%nat, AwaitCallerIdentity (context_of p) sts_command
                                    (accumulate_onto no_output chunks))]
                         (awaiting_identity p no_output))
                      [Proc 0 (Exit x)]
                  = failed_preflight message [(0%nat, spawn_of_command sts_command None)]).
  { cbn [run fold_left]. unfold step, on_proc.
    cbn [with_pending pending awaiting_identity lookup_cont Nat.eqb].
    change (execPromise_exit sts_command (accumulate_onto no_output chunks) x)
      with (execPromise sts_command chunks x).
    rewrite Hfail. reflexivity. }
  rewrite Hstep.
  destruct (failed_preflight_stays message [(0%nat, spawn_of_command sts_command None)]
              rest Hrest) as (F1 & F2 & F3 & F4 & F5).
  rewrite F1, F2, F3, F4. repeat split. exact F5.
Qed.

Lemma identity_failure_aborts_witness :
  let s := @run example_runtime init
             (Message (Create my_cluster)
                :: output_events 0 [(StderrStream, "Unable to locate credentials" +:+ nl)]
                ++ [Proc 0 (Exit (Closed (Some 255)))] ++ [WsClose]) in
  frames s = [banner; preflight_failure "Unable to locate credentials"]
  /\ List.map (fun x => cmd (snd x)) (spawned s) = ["aws"]
  /\ killed s = [].
Proof.
  destruct (@identity_failure_aborts example_runtime my_cluster
              [(StderrStream, "Unable to locate credentials" +:+ nl)]
              (Closed (Some 255)) "Unable to locate credentials" [WsClose]
              eq_refl eq_refl) as (Hf & Hs & Hk & _).
  split; [exact Hf|]. split; [|exact Hk].
  change (List.map (fun x => cmd (snd x)) ?l) with (List.map cmd (List.map snd l)).
  rewrite Hs. reflexivity.
Defined.

(** X16. The output of the simulation is parsed with [JSON.parse] as it
    stands, not with the tolerant extraction: when it is not JSON, or is
    JSON without a usable [EvaluationResults] array, the create request
    ends with one error frame that carries the parser's or the
    [TypeError]'s message; only the two pre-flight commands have run. *)
Theorem unusable_simulation_aborts `{Runtime} (p : payload)
    (arn_chunks iam_chunks : list (stream * string)) (message : string)
    (rest : list event) :
  simulation_error (trim (collected StdoutStream iam_chunks)) = Some message ->
  forallb (fun e => negb (is_message e)) rest = true ->
  let s := run init (Message (Create p) :: succeeds 0 arn_chunks
                       ++ succeeds 1 iam_chunks ++ rest) in
  frames s = [banner; preflight_failure message]
  /\ List.map snd (spawned s)
     = [spawn_of_command sts_command None;
        spawn_of_command
          (checkIamPermsCmd (trim (collected StdoutStream arn_chunks))) None]
  /\ killed s = [] /\ called s = [] /\ is_open s = false.
Proof.
  intros Herr Hrest. cbn zeta.
  set (arn := trim (collected StdoutStream arn_chunks)).
  replace (run init (Message (Create p) :: succeeds 0 arn_chunks
                       ++ succeeds 1 iam_chunks ++ rest))
    with (run (step (awaiting_simulation p arn (accumulate_all iam_chunks))
                    (Proc 1 (Exit (Closed (Some 0))))) rest).
  2:{ rewrite app_comm_cons, run_app, run_to_simulation. fold arn.
      unfold succeeds. rewrite <- app_assoc, run_app, run_simulation_output.
      reflexivity. }
  assert (Hstep : step (awaiting_simulation p arn (accumulate_all iam_chunks))
                       (Proc 1 (Exit (Closed (Some 0))))
                  = failed_preflight message
                      [(0%nat, spawn_of_command sts_command None);
                       (1%nat, spawn_of_command (checkIamPermsCmd arn) None)]).
  { unfold step, on_proc.
    cbn [pending awaiting_simulation lookup_cont Nat.eqb].
    unfold execPromise_exit. cbn [is_zero Z.eqb].
    destruct (accumulate_all_collected iam_chunks) as [-> _].
    unfold after_iam_simulation. unfold simulation_error in Herr.
    destruct (JSON_parse (trim (collected StdoutStream iam_chunks))) as [parsed|m].
    - destruct (denied_results parsed) as [e|ds]; [|discriminate].
      injection Herr as <-. reflexivity.
    - injection Herr as <-. reflexivity. }
  rewrite Hstep.
  destruct (failed_preflight_stays message
              [(0%nat, spawn_of_command sts_command None);
               (1%nat, spawn_of_command (checkIamPermsCmd arn) None)]
              rest Hrest) as (F1 & F2 & F3 & F4 & F5).
  rewrite F1, F2, F3, F4. repeat split. exact F5.
Qed.

Lemma unusable_simulation_aborts_witness :
  let s := @run example_runtime init
             (Message (Create my_cluster)
                :: succeeds 0 [(StdoutStream, caller_arn +:+ nl)]
                ++ succeeds 1 [(StdoutStream, "warning: slow" +:+ nl
                                              +:+ simulation_text all_allowed)]
                ++ []) in
  frames s = [banner; preflight_failure "Unexpected token in JSON at position 0"]
  /\ List.map (fun x => cmd (snd x)) (spawned s) = ["aws"; "aws"].
Proof.
  destruct (@unusable_simulation_aborts example_runtime my_cluster
              [(StdoutStream, caller_arn +:+ nl)]
              [(StdoutStream, "warning: slow" +:+ nl +:+ simulation_text all_allowed)]
              "Unexpected token in JSON at position 0" []
              eq_refl eq_refl) as (Hf & Hs & _).
  split; [exact Hf|].
  change (List.map (fun x => cmd (snd x)) ?l) with (List.map cmd (List.map snd l)).
  rewrite Hs. reflexivity.
Defined.

(** ** The normalised cluster name *)

Ltac by_code_unit c :=
  destruct c as [[] [] [] [] [] [] [] []]; try reflexivity; try discriminate.

Lemma lower_char_idempotent (c : ascii) : lower_char (lower_char c) = lower_char c.
Proof. by_code_unit c. Qed.

Lemma lower_char_whitespace (c : ascii) :
  is_whitespace (lower_char c) = is_whitespace c.
Proof. by_code_unit c. Qed.

Lemma toLowerCase_idempotent (s : string) : toLowerCase (toLowerCase s) = toLowerCase s.
Proof.
  induction s as [|c s IH]; [reflexivity|].
  cbn [toLowerCase]. now rewrite lower_char_idempotent, IH.
Qed.

Lemma toLowerCase_no_whitespace (s : string) :
  no_whitespace (toLowerCase s) = no_whitespace s.
Proof.
  induction s as [|c s IH]; [reflexivity|].
  cbn [toLowerCase no_whitespace]. now rewrite lower_char_whitespace, IH.
Qed.

Lemma replaced_no_whitespace (in_run : bool) (s : string) :
  no_whitespace (replace_ws_from in_run "-" s) = true.
Proof.
  revert in_run. induction s as [|c s IH]; intros in_run; [reflexivity|].
  cbn [replace_ws_from]. destruct (is_whitespace c) eqn:Ec.
  - destruct in_run; [apply IH|].
    change ("-" +:+ replace_ws_from true "-" s)
      with (String "-" (replace_ws_from true "-" s)).
    cbn [no_whitespace]. now rewrite IH.
  - cbn [no_whitespace]. now rewrite Ec, IH.
Qed.

Lemma replace_kept (s : string) :
  no_whitespace s = true -> replace_ws_from false "-" s = s.
Proof.
  induction s as [|c s IH]; [reflexivity|].
  cbn [no_whitespace replace_ws_from]. intros Hn.
  apply andb_prop in Hn as [Hc Hs]. apply negb_true_iff in Hc.
  now rewrite Hc, IH.
Qed.

Lemma normalise_no_whitespace (s : string) : no_whitespace (normalise s) = true.
Proof.
  unfold normalise, replace_whitespace_runs.
  rewrite toLowerCase_no_whitespace. apply replaced_no_whitespace.
Qed.

Lemma check_command_words (c : context) :
  check_command c
  = join " " ["eksctl"; "get"; "cluster"; "--name=" +:+ name c;
              "--region=" +:+ where_ c; "--output"; "json"].
Proof.
  unfold check_command. cbn [join]. rewrite !append_assoc. reflexivity.
Qed.

(** X17. The normalised cluster name has no white space and normalising it
    again changes nothing.  So the existence check of a create request
    always receives the name as one argument of [eksctl get cluster],
    whatever spaces the requested name had, as long as the region has
    none. *)
Theorem normalised_name_is_one_argument (p : payload) :
  no_whitespace (region p) = true ->
  no_whitespace (normalise (clusterName p)) = true
  /\ normalise (normalise (clusterName p)) = normalise (clusterName p)
  /\ spawn_of_command (check_command (context_of p)) None
     = {| cmd := "eksctl";
          args := ["get"; "cluster"; "--name=" +:+ normalise (clusterName p);
                   "--region=" +:+ region p; "--output"; "json"];
          stdin := None |}.
Proof.
  intros Hr. split; [apply normalise_no_whitespace|]. split.
  - unfold normalise at 1, replace_whitespace_runs.
    rewrite (replace_kept _ (normalise_no_whitespace (clusterName p))).
    unfold normalise. apply toLowerCase_idempotent.
  - rewrite check_command_words. unfold spawn_of_command.
    rewrite split_join; [reflexivity | discriminate |].
    cbn [context_of name where_].
    repeat constructor; try discriminate.
    + rewrite no_whitespace_app. now rewrite normalise_no_whitespace.
    + rewrite no_whitespace_app. now rewrite Hr.
Qed.

Lemma normalised_name_is_one_argument_witness :
  normalise "My  Big Cluster" = "my-big-cluster"
  /\ args (spawn_of_command
             (check_command (context_of
                {| clusterName := "My  Big Cluster"; region := "us-east-1";
                   kubernetesVersion := "1.29"; nodeGroupName := "workers";
                   instanceType := "t3.medium"; desiredCapacity := 2; minNodes := 1;
                   maxNodes := 3; volumeSize := 20; volumeType := "gp3";
                   enableSsh := false; sshKeyName := EmptyString;
                   enableEbsCsiAccess := true; enableEfsCsiAccess := false;
                   albIngressAccess := false |})) None)
     = ["get"; "cluster"; "--name=my-big-cluster"; "--region=us-east-1";
        "--output"; "json"].
Proof.
  split; [reflexivity|].
  destruct (normalised_name_is_one_argument
              {| clusterName := "My  Big Cluster"; region := "us-east-1";
                 kubernetesVersion := "1.29"; nodeGroupName := "workers";
                 instanceType := "t3.medium"; desiredCapacity := 2; minNodes := 1;
                 maxNodes := 3; volumeSize := 20; volumeType := "gp3";
                 enableSsh := false; sshKeyName := EmptyString;
                 enableEbsCsiAccess := true; enableEfsCsiAccess := false;
                 albIngressAccess := false |} eq_refl) as (_ & _ & Hs).
  rewrite Hs. reflexivity.
Defined.

(** ** An error on the socket *)

(** The socket's ['error'] while a child is tracked: the listeners are
    detached and the reference is dropped, SIGKILL is sent unless the flag
    [eksProcessExited] is set, and a socket that is still open is sent one
    error frame and closed. *)
Lemma error_drops_tracked `{Runtime} (s : session) (p : nat) (message : string) :
  eksProcess s = Some p ->
  let s' := step s (WsError message) in
  killed s' = (killed s ++ (if eksProcessExited s then [] else [p]))%list
  /\ eksProcess s' = None
  /\ lookup_cont p (pending s') = None
  /\ frames s' = (if is_open s
                  then frames s ++ [Ws.Error ("WebSocket error: " +:+ message)]
                  else frames s)%list
  /\ is_open s' = false
  /\ spawned s' = spawned s.
Proof.
  intros Hp. destruct s as [[state sent] ep ex pend nid sp kl cl].
  cbn in Hp. subst ep.
  unfold step, on_ws_error, is_open, frames.
  destruct ex; cbn -[remove_cont lookup_cont];
    destruct state; cbn -[remove_cont lookup_cont];
    rewrite ?app_nil_r; repeat split; apply lookup_remove_same.
Qed.

(** X18. An ['error'] event on the socket while an eksctl child is tracked
    detaches the child's listeners and drops the reference.  The child is
    sent SIGKILL if no eksctl child of the connection has ended before,
    and is left running if one has: the flag that records the end of a
    child is the connection's and is never reset.  A socket that is still
    open is then sent one error frame and closed. *)
Theorem ws_error_kills_live_child `{Runtime} (trace : list event) (p : nat)
    (message : string) :
  let s := run init trace in
  eksProcess s = Some p ->
  let s' := step s (WsError message) in
  killed s' = (killed s ++ (if eksctl_ended init trace then [] else [p]))%list
  /\ eksProcess s' = None
  /\ lookup_cont p (pending s') = None
  /\ frames s' = (if is_open s
                  then frames s ++ [Ws.Error ("WebSocket error: " +:+ message)]
                  else frames s)%list
  /\ is_open s' = false
  /\ spawned s' = spawned s.
Proof.
  cbn zeta. intros Hp.
  pose proof (error_drops_tracked (run init trace) p message Hp) as Hdrop.
  cbn zeta in Hdrop. now rewrite exited_run in Hdrop.
Qed.

Lemma ws_error_kills_live_child_witness :
  let run := @run example_runtime in
  let first := run init [Message (Delete "demo" "us-east-1")] in
  let second := run init [Message (Delete "a" "us-east-1");
                          Proc 0 (Exit (Closed (Some 0)));
                          Message (Delete "b" "us-east-1")] in
  (killed (@step example_runtime first (WsError "read ECONNRESET")) = [0%nat]
   /\ frames (@step example_runtime first (WsError "read ECONNRESET"))
      = [Ws.Error "WebSocket error: read ECONNRESET"])
  /\ (eksProcess second = Some 2%nat
      /\ killed (@step example_runtime second (WsError "read ECONNRESET")) = []
      /\ eksProcess (@step example_runtime second (WsError "read ECONNRESET")) = None).
Proof.
  pose proof (@ws_error_kills_live_child example_runtime
                [Message (Delete "demo" "us-east-1")]
                0%nat "read ECONNRESET" eq_refl) as (Hk & _ & _ & Hf & _).
  pose proof (@ws_error_kills_live_child example_runtime
                [Message (Delete "a" "us-east-1");
                 Proc 0 (Exit (Closed (Some 0)));
                 Message (Delete "b" "us-east-1")]
                2%nat "read ECONNRESET" eq_refl) as (Hk2 & He2 & _).
  split; [split; [exact Hk | exact Hf]|].
  split; [reflexivity|]. split; [exact Hk2 | exact He2].
Defined.

(** ** Who is sent SIGKILL *)

(** [eksctl create cluster ...] or [eksctl delete cluster ...] *)
Definition is_mutation (r : spawn_record) : bool :=
  String.eqb (cmd r) "eksctl"
  && match args r with
     | verb :: what :: _ =>
         (String.eqb verb "create" || String.eqb verb "delete")
         && String.eqb what "cluster"
     | _ => false
     end.

Definition mutation_child (s : session) (p : nat) : Prop :=
  exists r, List.In (p, r) (spawned s) /\ is_mutation r = true.

(** Only children of the session are killed, each once, and they are
    eksctl children; ids are fresh; the tracked child has not been
    killed. *)
Definition guarded (s : session) : Prop :=
  NoDup (killed s)
  /\ (forall p, List.In p (killed s) -> mutation_child s p)
  /\ (forall p r, List.In (p, r) (spawned s) -> (p < next_id s)%nat)
  /\ (forall p, eksProcess s = Some p ->
                mutation_child s p /\ ~ List.In p (killed s)).

(** A step that kills nothing, spawns nothing and tracks what was tracked. *)
Definition steady (s s' : session) : Prop :=
  killed s' = killed s /\ spawned s' = spawned s
  /\ eksProcess s' = eksProcess s /\ (next_id s <= next_id s')%nat.

Lemma guarded_steady (s s' : session) : guarded s -> steady s s' -> guarded s'.
Proof.
  intros (Hnd & Hk & Hid & Ht) (Ek & Es & Ee & Hn).
  unfold guarded, mutation_child. rewrite Ek, Es, Ee.
  split; [exact Hnd|]. split; [exact Hk|]. split; [|exact Ht].
  intros p r Hin. specialize (Hid p r Hin). lia.
Qed.

Lemma guarded_with_ws (f : Ws.socket -> Ws.socket) (s : session) :
  guarded s -> guarded (with_ws f s).
Proof. intros Hg. apply (guarded_steady s); [exact Hg | repeat split; cbn; lia]. Qed.

Lemma guarded_send (f : Ws.frame) (s : session) : guarded s -> guarded (send f s).
Proof. apply guarded_with_ws. Qed.

Lemma guarded_send_if_open (f : Ws.frame) (s : session) :
  guarded s -> guarded (send_if_open f s).
Proof. apply guarded_with_ws. Qed.

Lemma guarded_close (s : session) : guarded s -> guarded (close_socket s).
Proof. apply guarded_with_ws. Qed.

Lemma guarded_with_exited (b : bool) (s : session) :
  guarded s -> guarded (with_exited b s).
Proof. intros Hg. apply (guarded_steady s); [exact Hg | repeat split; cbn; lia]. Qed.

Lemma guarded_forget (id : nat) (s : session) : guarded s -> guarded (forget id s).
Proof. intros Hg. apply (guarded_steady s); [exact Hg | repeat split; cbn; lia]. Qed.

Lemma guarded_replace (id : nat) (k : cont) (s : session) :
  guarded s -> guarded (replace_cont id k s).
Proof. intros Hg. apply (guarded_steady s); [exact Hg | repeat split; cbn; lia]. Qed.

Lemma guarded_wait (k : cont) (s : session) : guarded s -> guarded (wait k s).
Proof. intros Hg. apply (guarded_steady s); [exact Hg | repeat split; cbn; lia]. Qed.

Lemma guarded_call (h : helper) (a : list hval) (c : context) (s : session) :
  guarded s -> guarded (call h a c s).
Proof. intros Hg. apply (guarded_steady s); [exact Hg | repeat split; cbn; lia]. Qed.

Lemma mutation_child_more (s s' : session) (p : nat) :
  (forall x, List.In x (spawned s) -> List.In x (spawned s')) ->
  mutation_child s p -> mutation_child s' p.
Proof. intros Hsub (r & Hin & Hm). exists r. auto. Qed.

Lemma guarded_spawn (r : spawn_record) (k : cont) (s : session) :
  guarded s -> guarded (spawn r k s).
Proof.
  intros (Hnd & Hk & Hid & Ht).
  assert (Hsub : forall x, List.In x (spawned s) -> List.In x (spawned (spawn r k s))).
  { intros x Hx. cbn. apply List.in_app_iff. now left. }
  split; [exact Hnd|]. split; [|split].
  - intros p Hp. apply (mutation_child_more s); auto.
  - intros p r' Hin. cbn in Hin |- *.
    apply List.in_app_iff in Hin as [Hin|[[= <- <-]|[]]]; [|lia].
    specialize (Hid p r' Hin). lia.
  - intros p Hp. destruct (Ht p Hp) as [Hm Hn]. split; [|exact Hn].
    now apply (mutation_child_more s).
Qed.

Lemma guarded_tracked (r : spawn_record) (k : cont) (s : session) :
  guarded s -> is_mutation r = true ->
  guarded (with_eksProcess (Some (next_id s)) (spawn r k s)).
Proof.
  intros Hg Hr. pose proof (guarded_spawn r k s Hg) as (Hnd & Hk & Hid & _).
  split; [exact Hnd|]. split; [exact Hk|]. split; [exact Hid|].
  intros p [= <-]. split.
  - exists r. split; [|exact Hr]. cbn. apply List.in_app_iff. right. now left.
  - intros Hin. destruct Hg as (_ & Hk0 & Hid0 & _).
    destruct (Hk0 _ Hin) as (r' & Hin' & _). specialize (Hid0 _ _ Hin'). lia.
Qed.

Lemma guarded_cleanup (s : session) :
  guarded s -> guarded (cleanupEksProcessResources s).
Proof.
  intros Hg. unfold cleanupEksProcessResources.
  destruct (eksProcess s) as [p|] eqn:Ep; [|exact Hg].
  destruct Hg as (Hnd & Hk & Hid & Ht). destruct (Ht p Ep) as [Hm Hn].
  cbn [forget with_pending eksProcessExited].
  destruct (eksProcessExited s).
  - split; [exact Hnd|]. split; [exact Hk|]. split; [exact Hid | discriminate].
  - split; [|split; [|split; [exact Hid | discriminate]]].
    + cbn. clear -Hnd Hn. induction Hnd as [|a l Ha Hl IH]; cbn.
      * constructor; [intros H; inversion H | constructor].
      * constructor.
        -- rewrite list_elem_of_In. intros Hin.
           apply List.in_app_iff in Hin as [Hin|[->|[]]].
           ++ apply Ha. now apply list_elem_of_In.
           ++ apply Hn. now left.
        -- apply IH. intros Hin. apply Hn. now right.
    + intros q Hq. cbn in Hq. apply List.in_app_iff in Hq as [Hq|[<-|[]]].
      * destruct (Hk q Hq) as (r & Hin & Hr). exists r. auto.
      * destruct Hm as (r & Hin & Hr). exists r. auto.
Qed.

Lemma guarded_abort (message : string) (s : session) :
  guarded s -> guarded (abort message s).
Proof.
  intros Hg. unfold abort. now apply guarded_cleanup, guarded_close, guarded_send.
Qed.

Lemma guarded_finish (s : session) : guarded s -> guarded (finish s).
Proof. intros Hg. unfold finish. now apply guarded_cleanup, guarded_wait. Qed.

Lemma guarded_stabilise (c : context) (s : session) :
  guarded s -> guarded (stabilise c s).
Proof. intros Hg. unfold stabilise. now apply guarded_wait, guarded_send. Qed.

Lemma mutation_create (c : context) : is_mutation (create_spawn c) = true.
Proof. reflexivity. Qed.

Lemma mutation_delete (n r : string) : is_mutation (delete_spawn n r) = true.
Proof. reflexivity. Qed.

Create HintDb guards.
#[local] Hint Resolve guarded_with_ws guarded_send guarded_send_if_open guarded_close
  guarded_with_exited guarded_forget guarded_replace guarded_wait guarded_call
  guarded_spawn guarded_tracked guarded_cleanup guarded_abort guarded_finish
  guarded_stabilise mutation_create mutation_delete : guards.

Ltac keeps_guard := split_flow; auto 10 with guards.

Lemma guarded_preflight_error (message : string) (s : session) :
  guarded s -> guarded (preflight_error message s).
Proof. intros Hg. unfold preflight_error. keeps_guard. Qed.

Lemma guarded_after_iam_simulation `{Runtime} (c : context) (out : string)
    (s : session) :
  guarded s -> guarded (after_iam_simulation c out s).
Proof.
  intros Hg. unfold after_iam_simulation.
  pose proof guarded_preflight_error. keeps_guard.
Qed.

Lemma guarded_after_existence_check (c : context) (r : command_result) (s : session) :
  guarded s -> guarded (after_existence_check c r s).
Proof. intros Hg. unfold after_existence_check. keeps_guard. Qed.

Lemma guarded_on_create_close (c : context) (code : option Z) (s : session) :
  guarded s -> guarded (on_create_close c code s).
Proof. intros Hg. unfold on_create_close. keeps_guard. Qed.

Lemma guarded_on_delete_close (n : string) (code : option Z) (s : session) :
  guarded s -> guarded (on_delete_close n code s).
Proof. intros Hg. unfold on_delete_close. keeps_guard. Qed.

Lemma guarded_on_eks_error (prefix message : string) (s : session) :
  guarded s -> guarded (on_eks_error prefix message s).
Proof. intros Hg. unfold on_eks_error. keeps_guard. Qed.

Lemma guarded_after_helper (h : helper) (c : context) (r : outcome hval)
    (s : session) :
  guarded s -> guarded (after_helper h c r s).
Proof. intros Hg. unfold after_helper. keeps_guard. Qed.

Lemma guarded_after_stabilise (c : context) (s : session) :
  guarded s -> guarded (after_stabilise c s).
Proof. intros Hg. unfold after_stabilise. keeps_guard. Qed.

#[local] Hint Resolve guarded_preflight_error guarded_after_iam_simulation
  guarded_after_existence_check guarded_on_create_close guarded_on_delete_close
  guarded_on_eks_error guarded_after_helper guarded_after_stabilise : guards.

Lemma guarded_step `{Runtime} (s : session) (e : event) :
  guarded s -> guarded (step s e).
Proof.
  intros Hg. destruct e as [m| |message|pid pe|id he|id]; cbn [step].
  - unfold on_message, on_create, on_delete. keeps_guard.
  - unfold on_ws_close. keeps_guard.
  - unfold on_ws_error. keeps_guard.
  - unfold on_proc, after_caller_identity. keeps_guard.
  - unfold on_helper. keeps_guard.
  - unfold on_timeout. keeps_guard.
Qed.

Lemma guarded_init : guarded init.
Proof.
  split; [constructor|]. split; [intros p []|]. split; [intros p r []|discriminate].
Qed.

Lemma guarded_run `{Runtime} (trace : list event) (s : session) :
  guarded s -> guarded (run s trace).
Proof.
  revert s. induction trace as [|e trace IH]; intros s Hg; [exact Hg|].
  rewrite run_cons. apply IH. now apply guarded_step.
Qed.

(** X19. Whatever arrives on a connection, in whatever order and however
    many commands it carries: SIGKILL is only ever sent to a child that
    this connection spawned as [eksctl create cluster] or [eksctl delete
    cluster], never to the [aws] commands of the pre-flight or to the
    existence check, and no child is sent it twice. *)
Theorem only_eksctl_children_are_killed `{Runtime} (trace : list event) :
  let s := run init trace in
  NoDup (killed s)
  /\ Forall (fun p => exists r, List.In (p, r) (spawned s) /\ cmd r = "eksctl"
                              /\ is_mutation r = true) (killed s).
Proof.
  cbn zeta. destruct (guarded_run trace init guarded_init) as (Hnd & Hk & _).
  split; [exact Hnd|]. apply List.Forall_forall. intros p Hp.
  destruct (Hk p Hp) as (r & Hin & Hr). exists r. split; [exact Hin|].
  split; [|exact Hr]. unfold is_mutation in Hr.
  apply andb_prop in Hr as [Hc _]. now apply String.eqb_eq in Hc.
Qed.

(** ** A client that leaves during the pre-flight *)

Definition left_socket : Ws.socket :=
  {| Ws.readyState := Ws.CLOSED; Ws.sent := [banner] |}.

(** The connection after the client has left, while the command with id
    [List.length ran] is awaited by [k]. *)
Definition unattended (ran : list (nat * spawn_record)) (r : spawn_record) (k : cont)
    : session :=
  {| ws := left_socket; eksProcess := None; eksProcessExited := false;
     pending := [(List.length ran, k)];
     next_id := S (List.length ran);
     spawned := ran ++ [(List.length ran, r)];
     killed := []; called := [] |}.

(** The same once [eksctl create cluster] runs. *)
Definition unattended_creation (p : payload) (arn : string) : session :=
  {| ws := left_socket; eksProcess := Some 3%nat; eksProcessExited := false;
     pending := [(3%nat, EksCreateListeners (context_of p))];
     next_id := 4;
     spawned := first_three p arn ++ [(3%nat, create_spawn (context_of p))];
     killed := []; called := [] |}.

Lemma unattended_check_output `{Runtime} (p : payload) (arn : string)
    (chunks : list (stream * string)) :
  forall b : buffers,
    run (unattended [(0%nat, spawn_of_command sts_command None);
                     (1%nat, spawn_of_command (checkIamPermsCmd arn) None)]
           (spawn_of_command (check_command (context_of p)) None)
           (AwaitExistenceCheck (context_of p) b))
        (output_events 2 chunks)
    = unattended [(0%nat, spawn_of_command sts_command None);
                  (1%nat, spawn_of_command (checkIamPermsCmd arn) None)]
        (spawn_of_command (check_command (context_of p)) None)
        (AwaitExistenceCheck (context_of p) (accumulate_onto b chunks)).
Proof.
  induction chunks as [|[from data] chunks IH]; intros b; [reflexivity|].
  cbn [output_events List.map run fold_left fst snd].
  change (fold_left step (List.map _ chunks) ?x) with (run x (output_events 2 chunks)).
  match goal with
  | |- run (step ?s ?e) _ = _ =>
      change (step s e)
        with (unattended [(0%nat, spawn_of_command sts_command None);
                          (1%nat, spawn_of_command (checkIamPermsCmd arn) None)]
                (spawn_of_command (check_command (context_of p)) None)
                (AwaitExistenceCheck (context_of p) (accumulate b from data)))
  end.
  now rewrite IH.
Qed.

Lemma unattended_creation_output `{Runtime} (p : payload) (arn : string)
    (chunks : list (stream * string)) :
  run (unattended_creation p arn) (output_events 3 chunks) = unattended_creation p arn.
Proof.
  induction chunks as [|[from data] chunks IH]; [reflexivity|].
  cbn [output_events List.map run fold_left fst snd].
  change (fold_left step (List.map _ chunks) ?x) with (run x (output_events 3 chunks)).
  change (step (unattended_creation p arn) (Proc 3 (Data from data)))
    with (unattended_creation p arn).
  exact IH.
Qed.

(** X20. A client that disconnects right after its create request does not
    stop the request: no eksctl child is tracked yet, so the ['close']
    handler kills nothing, and the pre-flight, the existence check and
    [eksctl create cluster] all still run, with nobody to read a frame.
    When the creation then ends, even with exit code 0, the closed socket
    makes the handler skip every post-creation step: no helper is called
    (no default StorageClass, no ALB controller) and nothing is sent. *)
Theorem creation_runs_unattended `{Runtime} (p : payload)
    (arn_chunks iam_chunks check_chunks eks_chunks : list (stream * string))
    (parsed : json) (items : list json) (x : exit_event) (error : string)
    (code : option Z) :
  JSON_parse (trim (collected StdoutStream iam_chunks)) = Returned parsed ->
  get_prop parsed "EvaluationResults" = Some (JArray items) ->
  Forall (fun i => i <> JNull) items ->
  Forall (fun i => not_allowed i = false) items ->
  executeCommand_exit (accumulate_all check_chunks) x = Failed error ->
  includes missing_marker error = true ->
  let arn := trim (collected StdoutStream arn_chunks) in
  let before := Message (Create p) :: WsClose :: succeeds 0 arn_chunks
                  ++ succeeds 1 iam_chunks
                  ++ output_events 2 check_chunks ++ [Proc 2 (Exit x)] in
  let s := run init before in
  let s' := run s (output_events 3 eks_chunks ++ [Proc 3 (Exit (Closed code))]) in
  (spawned s = (first_three p arn ++ [(3%nat, create_spawn (context_of p))])%list
   /\ eksProcess s = Some 3%nat /\ killed s = [] /\ frames s = [banner])
  /\ (spawned s' = spawned s /\ killed s' = [] /\ called s' = []
      /\ frames s' = [banner] /\ pending s' = [] /\ eksProcess s' = None).
Proof.
  intros Hparse Hget Hnull Hall Hcheck Hmark. cbn zeta.
  set (arn := trim (collected StdoutStream arn_chunks)).
  assert (Hs : run init (Message (Create p) :: WsClose :: succeeds 0 arn_chunks
                           ++ succeeds 1 iam_chunks
                           ++ output_events 2 check_chunks ++ [Proc 2 (Exit x)])
               = unattended_creation p arn).
  { rewrite run_cons, run_cons.
    change (step (step init (Message (Create p))) WsClose)
      with (unattended [] (spawn_of_command sts_command None)
              (AwaitCallerIdentity (context_of p) sts_command no_output)).
    unfold succeeds. rewrite <- !app_assoc. rewrite run_app.
    rewrite (run_caller_identity_output 0 (context_of p) sts_command arn_chunks no_output)
      by reflexivity.
    rewrite run_app.
    assert (H1 : run (with_pending
                        [(0%nat, AwaitCallerIdentity (context_of p) sts_command
                                   (accumulate_onto no_output arn_chunks))]
                        (unattended [] (spawn_of_command sts_command None)
                           (AwaitCallerIdentity (context_of p) sts_command no_output)))
                     [Proc 0 (Exit (Closed (Some 0)))]
                 = unattended [(0%nat, spawn_of_command sts_command None)]
                     (spawn_of_command (checkIamPermsCmd arn) None)
                     (AwaitIamSimulation (context_of p) (checkIamPermsCmd arn) no_output)).
    { cbn [run fold_left]. unfold step, on_proc.
      cbn [with_pending pending unattended lookup_cont Nat.eqb List.length].
      unfold execPromise_exit. cbn [is_zero Z.eqb].
      destruct (accumulate_all_collected arn_chunks) as [Ho _].
      unfold accumulate_all in Ho. unfold accumulate_onto. rewrite Ho.
      reflexivity. }
    rewrite H1, run_app.
    rewrite (run_iam_simulation_output 1 (context_of p) (checkIamPermsCmd arn)
               iam_chunks no_output) by reflexivity.
    rewrite run_app.
    assert (H2 : run (with_pending
                        [(1%nat, AwaitIamSimulation (context_of p) (checkIamPermsCmd arn)
                                   (accumulate_onto no_output iam_chunks))]
                        (unattended [(0%nat, spawn_of_command sts_command None)]
                           (spawn_of_command (checkIamPermsCmd arn) None)
                           (AwaitIamSimulation (context_of p) (checkIamPermsCmd arn)
                              no_output)))
                     [Proc 1 (Exit (Closed (Some 0)))]
                 = unattended [(0%nat, spawn_of_command sts_command None);
                               (1%nat, spawn_of_command (checkIamPermsCmd arn) None)]
                     (spawn_of_command (check_command (context_of p)) None)
                     (AwaitExistenceCheck (context_of p) no_output)).
    { cbn [run fold_left]. unfold step, on_proc.
      cbn [with_pending pending unattended lookup_cont Nat.eqb List.length].
      unfold execPromise_exit. cbn [is_zero Z.eqb].
      destruct (accumulate_all_collected iam_chunks) as [Ho _].
      unfold accumulate_all in Ho. unfold accumulate_onto. rewrite Ho.
      unfold after_iam_simulation. rewrite Hparse.
      rewrite (denied_results_of_array parsed items Hget Hnull), (filter_none items Hall).
      reflexivity. }
    rewrite H2, run_app, unattended_check_output.
    cbn [run fold_left]. unfold step, on_proc.
    cbn [pending unattended lookup_cont Nat.eqb List.length].
    change (accumulate_onto no_output check_chunks) with (accumulate_all check_chunks).
    rewrite Hcheck. unfold after_existence_check. fold missing_marker.
    rewrite Hmark, andb_false_r. reflexivity. }
  rewrite Hs. split; [repeat split|].
  rewrite run_app, unattended_creation_output.
  cbn [run fold_left]. repeat split.
Qed.

Lemma creation_runs_unattended_witness :
  let s := @run example_runtime init
             (Message (Create my_cluster) :: WsClose
                :: succeeds 0 [(StdoutStream, caller_arn +:+ nl)]
                ++ succeeds 1 [(StdoutStream, simulation_text all_allowed)]
                ++ output_events 2 lookup_fails ++ [Proc 2 (Exit (Closed (Some 1)))]) in
  List.map (fun x => cmd (snd x) :: args (snd x))
           (List.filter (fun x => Nat.eqb (fst x) 3) (spawned s))
  = [["eksctl"; "create"; "cluster"; "-f"; "-"]]
  /\ killed s = []
  /\ called (@run example_runtime s [Proc 3 (Exit (Closed (Some 0)))]) = [].
Proof.
  destruct (@creation_runs_unattended example_runtime my_cluster
              [(StdoutStream, caller_arn +:+ nl)]
              [(StdoutStream, simulation_text all_allowed)]
              lookup_fails []
              (simulation all_allowed)
              (List.map (fun e => evaluation (fst e) (snd e)) all_allowed)
              (Closed (Some 1))
              "Error: ResourceNotFoundException: No cluster found for name: my-cluster."
              (Some 0) eq_refl eq_refl) as ((Hsp & _ & Hk & _) & (_ & _ & Hc & _)).
  - repeat constructor; discriminate.
  - repeat constructor.
  - reflexivity.
  - reflexivity.
  - split; [rewrite Hsp; reflexivity|]. split; [exact Hk | exact Hc].
Defined.

End ProvisioningFacts.

(* ===================================================================== *)
(** * The language of an anchored pattern *)
(* ===================================================================== *)

Module RegexFacts.
Import JsString JsValue Regex JsStringFacts.
Local Arguments String.append !_ _ / : simpl nomatch.

(** The strings a pattern describes. *)
Inductive lang : regex -> string -> Prop :=
| lang_eps : lang Eps EmptyString
| lang_class p c : p c = true -> lang (Class p) (String c EmptyString)
| lang_seq r1 r2 s1 s2 : lang r1 s1 -> lang r2 s2 -> lang (Seq r1 r2) (s1 +:+ s2)
| lang_alt_l r1 r2 s : lang r1 s -> lang (Alt r1 r2) s
| lang_alt_r r1 r2 s : lang r2 s -> lang (Alt r1 r2) s
| lang_star_nil r : lang (Star r) EmptyString
| lang_star_cons r s1 s2 :
    lang r s1 -> lang (Star r) s2 -> lang (Star r) (s1 +:+ s2).

(** Every code unit of [s] is in the class [p]. *)
Fixpoint all_in (p : ascii -> bool) (s : string) : bool :=
  match s with
  | EmptyString => true
  | String c r => p c && all_in p r
  end.

Lemma append_is_nil (a b : string) :
  a +:+ b = EmptyString -> a = EmptyString /\ b = EmptyString.
Proof. destruct a; simpl; [auto | discriminate]. Qed.

Lemma nullable_lang (r : regex) : nullable r = true <-> lang r EmptyString.
Proof.
  split.
  - induction r as [| |p|r1 IH1 r2 IH2|r1 IH1 r2 IH2|r IH]; simpl; intros Hn;
      try discriminate.
    + constructor.
    + apply andb_prop in Hn as [H1 H2].
      change EmptyString with (EmptyString +:+ EmptyString). constructor; auto.
    + apply orb_prop in Hn as [H1|H2]; [apply lang_alt_l | apply lang_alt_r]; auto.
    + constructor.
  - intros Hl. remember EmptyString as s eqn:Es.
    induction Hl as [|p c Hp|r1 r2 s1 s2 _ IH1 _ IH2|r1 r2 s _ IH|r1 r2 s _ IH
                    |r|r s1 s2 _ _ _ _]; simpl; try reflexivity.
    + discriminate.
    + apply append_is_nil in Es as [-> ->].
      now rewrite IH1, IH2.
    + now rewrite IH.
    + rewrite IH by assumption. apply orb_true_r.
Qed.

Lemma deriv_sound (c : ascii) (r : regex) :
  forall s, lang (deriv c r) s -> lang r (String c s).
Proof.
  induction r as [| |p|r1 IH1 r2 IH2|r1 IH1 r2 IH2|r IH]; simpl; intros s Hl.
  - inversion Hl.
  - inversion Hl.
  - destruct (p c) eqn:Hp; inversion Hl; subst. now constructor.
  - assert (Hseq : forall t, lang (Seq (deriv c r1) r2) t -> lang (Seq r1 r2) (String c t)).
    { intros t Ht. inversion Ht as [| |? ? s1 s2 H1 H2| | | |]; subst.
      change (String c (s1 +:+ s2)) with (String c s1 +:+ s2).
      constructor; auto. }
    destruct (nullable r1) eqn:Hn; [|auto].
    inversion Hl as [| | |? ? ? Hleft|? ? ? Hright| |]; subst; [auto|].
    change (String c s) with (EmptyString +:+ String c s).
    constructor; [now apply nullable_lang | auto].
  - inversion Hl; subst; [apply lang_alt_l | apply lang_alt_r]; auto.
  - inversion Hl as [| |? ? s1 s2 H1 H2| | | |]; subst.
    change (String c (s1 +:+ s2)) with (String c s1 +:+ s2).
    constructor; auto.
Qed.

Lemma deriv_complete (c : ascii) (r : regex) (t : string) :
  lang r t -> forall s, t = String c s -> lang (deriv c r) s.
Proof.
  induction 1 as [|p a Hp|r1 r2 s1 s2 H1 IH1 H2 IH2|r1 r2 t H IH|r1 r2 t H IH
                 |r|r s1 s2 H1 IH1 H2 IH2]; intros s Es; simpl.
  - discriminate.
  - injection Es as -> <-. rewrite Hp. constructor.
  - destruct s1 as [|a s1'].
    + simpl in Es. apply nullable_lang in H1. rewrite H1.
      apply lang_alt_r. auto.
    + simpl in Es. injection Es as -> <-.
      assert (Hs : lang (Seq (deriv c r1) r2) (s1' +:+ s2))
        by (constructor; auto).
      destruct (nullable r1); [now apply lang_alt_l | exact Hs].
  - apply lang_alt_l. auto.
  - apply lang_alt_r. auto.
  - discriminate.
  - destruct s1 as [|a s1'].
    + simpl in Es. apply (IH2 s Es).
    + simpl in Es. injection Es as -> <-. constructor; auto.
Qed.

(** [test] decides membership. *)
Lemma test_lang (r : regex) (s : string) : test r s = true <-> lang r s.
Proof.
  revert r. induction s as [|c s IH]; intros r; simpl.
  - apply nullable_lang.
  - rewrite IH. split; [apply deriv_sound|].
    intros Hl. now apply (deriv_complete c r (String c s)).
Qed.

(** ** The shapes the sources' patterns are made of *)

Lemma lang_seq_inv (r1 r2 : regex) (s : string) :
  lang (Seq r1 r2) s -> exists s1 s2, s = s1 +:+ s2 /\ lang r1 s1 /\ lang r2 s2.
Proof. inversion 1; subst; eauto. Qed.

Lemma lang_alt_inv (r1 r2 : regex) (s : string) :
  lang (Alt r1 r2) s -> lang r1 s \/ lang r2 s.
Proof. inversion 1; subst; auto. Qed.

Lemma lang_opt_inv (r : regex) (s : string) :
  lang (Opt r) s -> lang r s \/ s = EmptyString.
Proof.
  intros Hl. apply lang_alt_inv in Hl as [Hl|Hl]; [auto|].
  inversion Hl. auto.
Qed.

Lemma lang_class_inv (p : ascii -> bool) (s : string) :
  lang (Class p) s -> exists c, s = String c EmptyString /\ p c = true.
Proof. inversion 1; subst; eauto. Qed.

Lemma lang_char_inv (c : ascii) (s : string) :
  lang (Char c) s -> s = String c EmptyString.
Proof.
  intros Hl. apply lang_class_inv in Hl as (a & -> & Ha).
  apply Ascii.eqb_eq in Ha. now subst.
Qed.

Lemma lang_char (c : ascii) : lang (Char c) (String c EmptyString).
Proof. constructor. apply Ascii.eqb_refl. Qed.

Lemma all_in_app (p : ascii -> bool) (a b : string) :
  all_in p (a +:+ b) = all_in p a && all_in p b.
Proof.
  induction a as [|c a IH]; simpl; [reflexivity|].
  now rewrite IH, andb_assoc.
Qed.

Lemma lang_star_class (p : ascii -> bool) (s : string) :
  lang (Star (Class p)) s <-> all_in p s = true.
Proof.
  split.
  - intros Hl. remember (Star (Class p)) as r eqn:Er.
    induction Hl as [| | | | |r|r s1 s2 H1 _ H2 IH2]; try discriminate.
    + reflexivity.
    + injection Er as ->. apply lang_class_inv in H1 as (c & -> & Hc).
      simpl. rewrite Hc. now apply IH2.
  - induction s as [|c s IH]; simpl; intros Ha; [constructor|].
    apply andb_prop in Ha as [Hc Hs].
    change (String c s) with (String c EmptyString +:+ s).
    constructor; [now constructor | auto].
Qed.

Lemma lang_plus_class (p : ascii -> bool) (s : string) :
  lang (Plus (Class p)) s <-> all_in p s = true /\ s <> EmptyString.
Proof.
  unfold Plus. split.
  - intros Hl. apply lang_seq_inv in Hl as (s1 & s2 & -> & H1 & H2).
    apply lang_class_inv in H1 as (c & -> & Hc).
    apply lang_star_class in H2. simpl. rewrite Hc, H2. split; [reflexivity|discriminate].
  - intros [Ha Hne]. destruct s as [|c s]; [congruence|].
    simpl in Ha. apply andb_prop in Ha as [Hc Hs].
    change (String c s) with (String c EmptyString +:+ s).
    constructor; [now constructor | now apply lang_star_class].
Qed.

Lemma lang_lit (w s : string) : lang (Lit w) s <-> s = w.
Proof.
  revert s. induction w as [|c w IH]; intros s; simpl.
  - split; [now inversion 1 | intros ->; constructor].
  - split.
    + intros Hl. apply lang_seq_inv in Hl as (s1 & s2 & -> & H1 & H2).
      apply lang_char_inv in H1 as ->. apply IH in H2 as ->. reflexivity.
    + intros ->. change (String c w) with (String c EmptyString +:+ w).
      constructor; [apply lang_char | now apply IH].
Qed.

Lemma lang_one_of (words : list string) (s : string) :
  lang (OneOf words) s <-> List.In s words.
Proof.
  induction words as [|w words IH]; simpl.
  - split; [inversion 1 | tauto].
  - split.
    + intros Hl. apply lang_alt_inv in Hl as [Hl|Hl].
      * left. symmetry. now apply lang_lit.
      * right. now apply IH.
    + intros [->|Hin]; [apply lang_alt_l; now apply lang_lit|].
      apply lang_alt_r. now apply IH.
Qed.

End RegexFacts.

(* ===================================================================== *)
(** * Validators against manifest generators *)
(* ===================================================================== *)

Module ManifestFacts.
Import JsString Js JsValue Regex Validation Manifests Routes KubectlUtils.
Import JsStringFacts RegexFacts.
Local Arguments String.append !_ _ / : simpl nomatch.

(** ** Sanitised names *)

Ltac by_code_unit c :=
  destruct c as [[] [] [] [] [] [] [] []]; try reflexivity; try discriminate.

Lemma name_char_lower (c : ascii) : name_char c = true -> lower_char c = c.
Proof. by_code_unit c. Qed.

Lemma label_char_name_char (c : ascii) : label_char c = true -> name_char c = true.
Proof. unfold name_char, label_char. now intros ->. Qed.

Lemma label_char_lower (c : ascii) : label_char c = true -> lower_char c = c.
Proof. intros Hc. now apply name_char_lower, label_char_name_char. Qed.

(** A class of sanitised names: it has the dash and none of its code
    units changes under [toLowerCase]. *)
Definition settled (keep : ascii -> bool) : Prop :=
  keep "-"%char = true /\ forall c, keep c = true -> lower_char c = c.

Lemma settled_label : settled label_char.
Proof. split; [reflexivity | exact label_char_lower]. Qed.

Lemma settled_name : settled name_char.
Proof. split; [reflexivity | exact name_char_lower]. Qed.

Definition dash_first (s : string) : bool :=
  match s with
  | EmptyString => false
  | String c _ => is_dash c
  end.

Fixpoint dash_last (s : string) : bool :=
  match s with
  | EmptyString => false
  | String c r => if is_empty r then is_dash c else dash_last r
  end.

Lemma replace_other_all (keep : ascii -> bool) (s : string) :
  keep "-"%char = true -> all_in keep (replace_other keep s) = true.
Proof.
  intros Hd. induction s as [|c s IH]; simpl; [reflexivity|].
  rewrite IH, andb_true_r. destruct (keep c) eqn:E; [exact E | exact Hd].
Qed.

Lemma replace_other_kept (keep : ascii -> bool) (s : string) :
  all_in keep s = true -> replace_other keep s = s.
Proof.
  induction s as [|c s IH]; simpl; [reflexivity|].
  intros Ha. apply andb_prop in Ha as [-> Hs]. now rewrite IH.
Qed.

Lemma toLowerCase_kept (keep : ascii -> bool) (s : string) :
  (forall c, keep c = true -> lower_char c = c) ->
  all_in keep s = true -> toLowerCase s = s.
Proof.
  intros Hk. induction s as [|c s IH]; simpl; [reflexivity|].
  intros Ha. apply andb_prop in Ha as [Hc Hs]. now rewrite (Hk c Hc), IH.
Qed.

Lemma strip_leading_all (p : ascii -> bool) (s : string) :
  all_in p s = true -> all_in p (strip_leading s) = true.
Proof.
  induction s as [|c s IH]; simpl; [reflexivity|].
  intros Ha. destruct (is_dash c); [|exact Ha].
  apply andb_prop in Ha as [_ Hs]. auto.
Qed.

Lemma strip_trailing_all (p : ascii -> bool) (s : string) :
  all_in p s = true -> all_in p (strip_trailing s) = true.
Proof.
  induction s as [|c s IH]; simpl; [reflexivity|].
  intros Ha. apply andb_prop in Ha as [Hc Hs].
  destruct (is_dash c && is_empty (strip_trailing s)); simpl; [reflexivity|].
  now rewrite Hc, IH.
Qed.

Lemma strip_leading_first (s : string) : dash_first (strip_leading s) = false.
Proof.
  induction s as [|c s IH]; simpl; [reflexivity|].
  destruct (is_dash c) eqn:E; [exact IH | simpl; exact E].
Qed.

Lemma strip_trailing_first (s : string) :
  dash_first s = false -> dash_first (strip_trailing s) = false.
Proof.
  destruct s as [|c s]; simpl; [reflexivity|].
  intros Hc. rewrite Hc. simpl. exact Hc.
Qed.

Lemma strip_trailing_last (s : string) : dash_last (strip_trailing s) = false.
Proof.
  induction s as [|c s IH]; simpl; [reflexivity|].
  destruct (is_dash c) eqn:Ec; simpl.
  - destruct (is_empty (strip_trailing s)) eqn:Ee; simpl; [reflexivity|].
    now rewrite Ee.
  - destruct (is_empty (strip_trailing s)) eqn:Ee; [exact Ec | exact IH].
Qed.

Lemma strip_leading_kept (s : string) : dash_first s = false -> strip_leading s = s.
Proof. destruct s as [|c s]; simpl; [reflexivity|]. now intros ->. Qed.

Lemma strip_trailing_kept (s : string) : dash_last s = false -> strip_trailing s = s.
Proof.
  induction s as [|c s IH]; simpl; [reflexivity|].
  destruct (is_empty s) eqn:Ee.
  - apply is_empty_true in Ee as ->. simpl. now intros ->.
  - intros Hl. rewrite (IH Hl), Ee, andb_false_r. reflexivity.
Qed.

Lemma dash_first_starts_with (s : string) : starts_with "-" s = dash_first s.
Proof.
  destruct s as [|c s]; [reflexivity|]. unfold dash_first, is_dash.
  cbn [starts_with]. rewrite Ascii.eqb_sym. now destruct (Ascii.eqb c "-").
Qed.

Lemma dash_last_ends_with (s : string) : ends_with "-" s = dash_last s.
Proof.
  induction s as [|c s IH]; [reflexivity|].
  cbn [ends_with dash_last]. rewrite IH.
  destruct s as [|d s]; cbn [is_empty dash_last].
  - unfold is_dash. cbn [String.eqb ends_with]. rewrite Ascii.eqb_sym.
    destruct (Ascii.eqb c "-"); reflexivity.
  - replace (String.eqb "-" (String c (String d s))) with false; [reflexivity|].
    cbn [String.eqb]. now destruct (Ascii.eqb "-" c).
Qed.

Lemma sanitize_shape (keep : ascii -> bool) (name : string) :
  settled keep ->
  let out := sanitize keep name in
  all_in keep out = true /\ dash_first out = false /\ dash_last out = false
  /\ sanitize keep out = out.
Proof.
  intros [Hd Hk]. cbn zeta.
  assert (Ha : all_in keep (sanitize keep name) = true).
  { unfold sanitize, strip_dashes.
    now apply strip_trailing_all, strip_leading_all, replace_other_all. }
  assert (Hf : dash_first (sanitize keep name) = false).
  { unfold sanitize, strip_dashes. apply strip_trailing_first, strip_leading_first. }
  assert (Hl : dash_last (sanitize keep name) = false).
  { unfold sanitize, strip_dashes. apply strip_trailing_last. }
  repeat split; try assumption.
  set (out := sanitize keep name) in *.
  unfold sanitize at 1, strip_dashes.
  rewrite (toLowerCase_kept keep out Hk Ha), (replace_other_kept keep out Ha).
  now rewrite (strip_leading_kept out Hf), (strip_trailing_kept out Hl).
Qed.

(** X21. Whatever name a request gives, the name the generators put into a
    manifest consists of lower-case letters, digits and dashes (and dots,
    for the generators that allow them), neither starts nor ends with a
    dash, and is left as it is when it is sanitised again. *)
Theorem sanitized_names_are_labels (name : string) :
  (let out := sanitize label_char name in
   all_in label_char out = true
   /\ starts_with "-" out = false /\ ends_with "-" out = false
   /\ sanitize label_char out = out)
  /\ (let out := sanitize name_char name in
      all_in name_char out = true
      /\ starts_with "-" out = false /\ ends_with "-" out = false
      /\ sanitize name_char out = out).
Proof.
  split; cbn zeta; rewrite dash_first_starts_with, dash_last_ends_with.
  - exact (sanitize_shape label_char name settled_label).
  - exact (sanitize_shape name_char name settled_name).
Qed.

(** ** Namespace names: validator and generator agree *)

Lemma is_label_char_label (c : ascii) : is_label_char c = label_char c.
Proof.
  unfold is_label_char, label_char.
  destruct (Ascii.eqb c "-"), (is_lower c), (is_digit c); reflexivity.
Qed.

Lemma all_in_ext (p q : ascii -> bool) (s : string) :
  (forall c, p c = true -> q c = true) -> all_in p s = true -> all_in q s = true.
Proof.
  intros Hpq. induction s as [|c s IH]; simpl; [reflexivity|].
  intros Ha. apply andb_prop in Ha as [Hc Hs]. now rewrite (Hpq c Hc), IH.
Qed.

Lemma lower_alnum_label (c : ascii) : is_lower_alnum c = true -> label_char c = true.
Proof. unfold is_lower_alnum, label_char. now intros ->. Qed.

Lemma lower_alnum_no_dash (c : ascii) : is_lower_alnum c = true -> is_dash c = false.
Proof. by_code_unit c. Qed.

Lemma dash_last_app (m : string) (d : ascii) :
  dash_last (m +:+ String d EmptyString) = is_dash d.
Proof.
  induction m as [|c m IH]; simpl; [reflexivity|].
  rewrite IH. now destruct m.
Qed.

(** What [namespacePattern] accepts. *)
Lemma namespace_shape (n : string) :
  test namespacePattern n = true ->
  all_in label_char n = true /\ dash_first n = false /\ dash_last n = false
  /\ n <> EmptyString.
Proof.
  intros Ht. apply test_lang in Ht. unfold namespacePattern in Ht.
  apply lang_seq_inv in Ht as (s1 & s2 & -> & H1 & H2).
  apply lang_class_inv in H1 as (c & -> & Hc).
  apply lang_opt_inv in H2 as [H2| ->].
  - apply lang_seq_inv in H2 as (m & e & -> & Hm & He).
    apply lang_star_class in Hm. apply lang_class_inv in He as (d & -> & Hd).
    simpl. rewrite (lower_alnum_label c Hc), (lower_alnum_no_dash c Hc).
    rewrite all_in_app. simpl.
    rewrite (all_in_ext is_label_char label_char m
               ltac:(intros a Ha; now rewrite <- is_label_char_label) Hm).
    rewrite (lower_alnum_label d Hd). rewrite dash_last_app.
    rewrite (lower_alnum_no_dash d Hd).
    repeat split; try reflexivity; try discriminate.
    now destruct m.
  - simpl. rewrite (lower_alnum_label c Hc), (lower_alnum_no_dash c Hc).
    repeat split; discriminate.
Qed.

Lemma valid_namespace_kept (n : string) :
  test namespacePattern n = true -> sanitize label_char n = n.
Proof.
  intros Ht. destruct (namespace_shape n Ht) as (Ha & Hf & Hl & _).
  unfold sanitize, strip_dashes.
  rewrite (toLowerCase_kept label_char n label_char_lower Ha).
  rewrite (replace_other_kept label_char n Ha).
  now rewrite (strip_leading_kept n Hf), (strip_trailing_kept n Hl).
Qed.

Definition namespace_manifest (n : string) : string :=
  "apiVersion: v1" +:+ nl +:+ "kind: Namespace" +:+ nl +:+ "metadata:" +:+ nl
  +:+ "  name: " +:+ n +:+ nl.

(** X22. A request that [validateNamespaceInput] accepts names a string, and
    the route applies a Namespace manifest that carries this very name:
    the sanitiser of [generateNamespaceYaml] changes nothing in a name
    the validator let through.  The first child the route spawns is
    [kubectl apply -f -] with that manifest on its stdin. *)
Theorem accepted_namespace_is_applied_verbatim (name quotas : option json)
    (first second : child) :
  validateNamespaceInput name quotas = None ->
  exists n,
    name = Some (JString n)
    /\ generateNamespaceYaml n = namespace_manifest n
    /\ List.hd_error (snd (kube_create_namespace name quotas first second))
       = Some {| cmd := "kubectl"; args := ["apply"; "-f"; "-"];
                 stdin := Some (namespace_manifest n) |}.
Proof.
  intros Hv. unfold kube_create_namespace. rewrite Hv.
  unfold validateNamespaceInput in Hv.
  destruct (bad_name name) eqn:Hb; [discriminate|].
  unfold bad_name in Hb.
  destruct name as [[| | |n| |]|]; try discriminate.
  apply orb_false_elim in Hb as [_ Hb]. apply negb_false_iff in Hb.
  exists n. split; [reflexivity|].
  assert (Hg : generateNamespaceYaml n = namespace_manifest n).
  { unfold generateNamespaceYaml. now rewrite (valid_namespace_kept n Hb). }
  split; [exact Hg|]. rewrite Hg.
  destruct (awaited apply_command first); [|reflexivity].
  destruct (generateResourceQuotaYaml n quotas) as [m|]; [|reflexivity].
  destruct (JsString.truthy m); [|reflexivity].
  destruct (awaited apply_command second); reflexivity.
Qed.

Lemma accepted_namespace_is_applied_verbatim_witness :
  validateNamespaceInput (Some (JString "team-a")) None = None
  /\ exists n,
       Some (JString "team-a") = Some (JString n)
       /\ generateNamespaceYaml n = namespace_manifest n
       /\ List.hd_error (snd (kube_create_namespace (Some (JString "team-a")) None
                                ([], Closed (Some 0)) ([], Closed (Some 0))))
          = Some {| cmd := "kubectl"; args := ["apply"; "-f"; "-"];
                    stdin := Some (namespace_manifest n) |}.
Proof.
  split; [reflexivity|].
  apply (accepted_namespace_is_applied_verbatim (Some (JString "team-a")) None
           ([], Closed (Some 0)) ([], Closed (Some 0))).
  reflexivity.
Defined.

(** ** Resource quantities: validator and generator disagree on memory *)

Lemma digit_not_space (c : ascii) : is_digit c = true -> is_whitespace c = false.
Proof. by_code_unit c. Qed.

Lemma no_whitespace_all (s : string) :
  all_in (fun c => negb (is_whitespace c)) s = true -> no_whitespace s = true.
Proof.
  induction s as [|c s IH]; simpl; [reflexivity|].
  intros Ha. apply andb_prop in Ha as [Hc Hs]. now rewrite Hc, IH.
Qed.

Lemma trimStart_no_whitespace (s : string) :
  no_whitespace s = true -> trimStart s = s.
Proof.
  destruct s as [|c s]; simpl; [reflexivity|].
  intros Ha. apply andb_prop in Ha as [Hc _].
  apply negb_true_iff in Hc. now rewrite Hc.
Qed.

Lemma trim_no_whitespace (s : string) : no_whitespace s = true -> trim s = s.
Proof.
  intros Hn. unfold trim. rewrite (trimStart_no_whitespace s Hn).
  now apply trimEnd_no_whitespace.
Qed.

Lemma digits_no_whitespace (s : string) :
  all_in is_digit s = true -> no_whitespace s = true.
Proof.
  intros Ha. apply no_whitespace_all.
  apply (all_in_ext is_digit); [|exact Ha].
  intros c Hc. now rewrite (digit_not_space c Hc).
Qed.

Lemma all_digits_all_in (s : string) : all_digits s = all_in is_digit s.
Proof. induction s as [|c s IH]; simpl; [reflexivity | now rewrite IH]. Qed.

Lemma unit_no_whitespace (u : string) :
  u = EmptyString \/ List.In u memoryUnits -> no_whitespace u = true.
Proof.
  intros [->|Hin]; [reflexivity|].
  repeat (destruct Hin as [<-|Hin]; [reflexivity|]). destruct Hin.
Qed.

Definition no_dot (s : string) : bool :=
  all_in (fun c => negb (Ascii.eqb c ".")) s.

Lemma digits_no_dot (s : string) : all_in is_digit s = true -> no_dot s = true.
Proof.
  apply all_in_ext. intros c Hc. by_code_unit c.
Qed.

Lemma unit_no_dot (u : string) : List.In u memoryUnits -> no_dot u = true.
Proof.
  intros Hin.
  repeat (destruct Hin as [<-|Hin]; [reflexivity|]). destruct Hin.
Qed.

Lemma test_false (r : regex) (s : string) : ~ lang r s -> test r s = false.
Proof.
  intros Hn. destruct (test r s) eqn:E; [|reflexivity].
  apply test_lang in E. contradiction.
Qed.

(** X23. A memory quantity with a fractional part, such as [1.5Gi] or
    [0.5]: the validator's [memoryRegex] accepts it, but
    [normalizeResourceValue] gives [undefined] for it, so the generators
    leave the request or limit out of the manifest without a word. *)
Theorem fractional_memory_accepted_then_dropped `{Numbers}
    (whole frac unit : string) :
  all_digits whole = true -> whole <> EmptyString ->
  all_digits frac = true -> frac <> EmptyString ->
  unit = EmptyString \/ List.In unit memoryUnits ->
  let v := whole +:+ "." +:+ frac +:+ unit in
  test memoryRegex v = true
  /\ normalizeResourceValue (Some v) "memory" = None.
Proof.
  rewrite !all_digits_all_in. intros Hw Hwne Hf Hfne Hu. cbn zeta.
  assert (Hdot : no_dot (whole +:+ "." +:+ frac +:+ unit) = false).
  { unfold no_dot. rewrite all_in_app. simpl. apply andb_false_r. }
  split.
  - apply test_lang. unfold memoryRegex.
    constructor; [now apply lang_plus_class|].
    change ("." +:+ frac +:+ unit) with (String "." (frac +:+ unit)).
    change (String "." (frac +:+ unit)) with (String "." frac +:+ unit).
    constructor.
    + apply lang_alt_l. change (String "." frac) with ("." +:+ frac).
      constructor; [apply lang_char | now apply lang_plus_class].
    + destruct Hu as [->|Hin]; [apply lang_alt_r; constructor|].
      apply lang_alt_l. apply lang_one_of.
      repeat (destruct Hin as [<-|Hin]; [simpl; tauto|]). destruct Hin.
  - assert (Hn : no_whitespace (whole +:+ "." +:+ frac +:+ unit) = true).
    { rewrite !no_whitespace_app, (digits_no_whitespace whole Hw).
      rewrite (digits_no_whitespace frac Hf), (unit_no_whitespace unit Hu).
      reflexivity. }
    unfold normalizeResourceValue. rewrite (trim_no_whitespace _ Hn).
    replace (is_empty (whole +:+ "." +:+ frac +:+ unit)) with false
      by (destruct whole; [congruence | reflexivity]).
    cbn [orb String.eqb Ascii.eqb Bool.eqb].
    rewrite (test_false digitsPattern).
    2:{ intros Hl. apply lang_plus_class in Hl as [Ha _].
        apply digits_no_dot in Ha. congruence. }
    rewrite (test_false unitRegex); [reflexivity|].
    intros Hl. unfold unitRegex in Hl.
    apply lang_seq_inv in Hl as (s1 & s2 & Es & H1 & H2).
    apply lang_plus_class in H1 as [H1 _]. apply lang_one_of in H2.
    rewrite Es in Hdot. unfold no_dot in Hdot. rewrite all_in_app in Hdot.
    fold (no_dot s1) (no_dot s2) in Hdot.
    rewrite (digits_no_dot s1 H1), (unit_no_dot s2 H2) in Hdot. discriminate.
Qed.

(** A table for [Math.round(parseFloat(v) * 1000)] on a few numerals. *)
Definition example_numbers : Numbers :=
  {| millicores := fun v =>
       if String.eqb v "0.5" then "500"
       else if String.eqb v "0.25" then "250"
       else if String.eqb v "1.5" then "1500"
       else "NaN" |}.

Lemma fractional_memory_accepted_then_dropped_witness :
  test memoryRegex "1.5Gi" = true
  /\ @normalizeResourceValue example_numbers (Some "1.5Gi") "memory" = None.
Proof.
  apply (@fractional_memory_accepted_then_dropped example_numbers "1" "5" "Gi");
    try reflexivity; try discriminate.
  right. simpl. tauto.
Defined.

Lemma ends_with_app (x a : string) : ends_with x (a +:+ x) = true.
Proof.
  induction a as [|c a IH]; simpl.
  - destruct x; simpl; [reflexivity|].
    now rewrite Ascii.eqb_refl, String.eqb_refl.
  - rewrite IH. apply orb_true_r.
Qed.

Lemma includes_dot (s : string) : includes "." s = negb (no_dot s).
Proof.
  induction s as [|c s IH]; [reflexivity|].
  cbn [includes starts_with no_dot all_in]. fold (no_dot s). rewrite IH.
  rewrite Ascii.eqb_sym.
  destruct (Ascii.eqb c "."); cbn [negb andb orb]; [reflexivity|].
  destruct (no_dot s); reflexivity.
Qed.

(** What [cpuRegex] accepts: digits, with or without a fractional part,
    with or without a final [m]. *)
Lemma cpu_shape (v : string) :
  test cpuRegex v = true ->
  exists a m,
    v = a +:+ m /\ lang decimalPattern a /\ (m = "m" \/ m = EmptyString).
Proof.
  intros Ht. apply test_lang in Ht. unfold cpuRegex in Ht.
  apply lang_seq_inv in Ht as (a & m & -> & Ha & Hm).
  exists a, m. split; [reflexivity|]. split.
  - apply lang_alt_inv in Ha as [Ha|Ha]; [exact Ha|].
    unfold decimalPattern. rewrite <- (append_nil_r a).
    constructor; [exact Ha | apply lang_alt_r; constructor].
  - apply lang_opt_inv in Hm as [Hm|Hm]; [|auto].
    left. now apply lang_char_inv in Hm.
Qed.

Lemma decimal_no_whitespace (a : string) :
  lang decimalPattern a -> no_whitespace a = true /\ a <> EmptyString.
Proof.
  unfold decimalPattern. intros Hl.
  apply lang_seq_inv in Hl as (w & f & -> & Hw & Hf).
  apply lang_plus_class in Hw as [Hw Hne].
  split; [|destruct w; [congruence | discriminate]].
  rewrite no_whitespace_app, (digits_no_whitespace w Hw).
  apply lang_opt_inv in Hf as [Hf| ->]; [|reflexivity].
  apply lang_seq_inv in Hf as (d & g & -> & Hd & Hg).
  apply lang_char_inv in Hd as ->. apply lang_plus_class in Hg as [Hg _].
  simpl. now apply digits_no_whitespace.
Qed.

(** X24. Every CPU quantity the validator's [cpuRegex] accepts is kept by
    [normalizeResourceValue]: as it stands when it ends with [m] or has
    no fractional part, and converted to millicores otherwise.  (Memory
    is not so lucky: see the theorem above.) *)
Theorem accepted_cpu_is_kept `{Numbers} (v : string) :
  test cpuRegex v = true ->
  normalizeResourceValue (Some v) "cpu"
  = Some (if ends_with "m" v || negb (includes "." v)
          then v else millicores v +:+ "m").
Proof.
  intros Ht. destruct (cpu_shape v Ht) as (a & m & Ev & Ha & Hm).
  destruct (decimal_no_whitespace a Ha) as [Hn Hne].
  assert (Hnv : no_whitespace v = true).
  { rewrite Ev, no_whitespace_app, Hn. now destruct Hm as [->| ->]. }
  assert (Hev : is_empty v = false).
  { rewrite Ev. destruct a; [congruence | reflexivity]. }
  unfold normalizeResourceValue. rewrite (trim_no_whitespace v Hnv), Hev.
  cbn [orb String.eqb Ascii.eqb Bool.eqb].
  destruct (ends_with "m" v) eqn:Ee; [reflexivity|].
  destruct Hm as [->| ->]; [rewrite Ev, ends_with_app in Ee; discriminate|].
  rewrite append_nil_r in Ev. subst a.
  apply test_lang in Ha. rewrite Ha. cbn [orb].
  now destruct (includes "." v).
Qed.

Lemma accepted_cpu_is_kept_witness :
  test cpuRegex "0.5" = true
  /\ @normalizeResourceValue example_numbers (Some "0.5") "cpu" = Some "500m".
Proof.
  split; [reflexivity|].
  exact (@accepted_cpu_is_kept example_numbers "0.5" eq_refl).
Defined.

(** ** The ResourceQuota manifest *)

Lemma fold_append_empty (f : string * json -> string) (l : list (string * json)) :
  forall init : string,
    is_empty (List.fold_left (fun acc e => acc +:+ f e) l init)
    = is_empty init && List.forallb (fun e => is_empty (f e)) l.
Proof.
  induction l as [|e l IH]; intros init; cbn [List.fold_left List.forallb].
  - now rewrite andb_true_r.
  - rewrite IH. destruct init; simpl; [reflexivity|]. reflexivity.
Qed.

Lemma quota_line_empty (e : string * json) :
  is_empty (quota_line e) = negb (JsValue.truthy (snd e)).
Proof. unfold quota_line. now destruct (JsValue.truthy (snd e)). Qed.

(** X25. [generateResourceQuotaYaml] gives [null] exactly when no value
    that [for-in] finds in [quotas] is truthy: no [quotas] at all, an
    empty object, or only empty, zero, [false] or [null] values. *)
Theorem quota_manifest_absent_iff_no_value (namespace : string)
    (quotas : option json) :
  generateResourceQuotaYaml namespace quotas = None
  <-> Forall (fun e => JsValue.truthy (snd e) = false) (for_in quotas).
Proof.
  unfold generateResourceQuotaYaml, hardQuotasYaml.
  rewrite List.Forall_forall.
  destruct (is_empty (List.fold_left _ (for_in quotas) EmptyString)) eqn:E;
    rewrite fold_append_empty in E; cbn [is_empty andb] in E.
  - split; [|reflexivity]. intros _ e He.
    rewrite List.forallb_forall in E. specialize (E e He).
    rewrite quota_line_empty in E. now apply negb_true_iff in E.
  - split; [discriminate|]. intros Hall. exfalso.
    assert (Ht : List.forallb (fun e => is_empty (quota_line e)) (for_in quotas) = true).
    { apply List.forallb_forall. intros e He. rewrite quota_line_empty.
      apply negb_true_iff, Hall. exact He. }
    congruence.
Qed.

End ManifestFacts.
